(** * CCSoft: convolutional encoder and reliability matrix

    A shallow embedding of [CC_Encoding_FA.h] (the shift-register encoder
    template) and of [CC_ReliabilityMatrix.cpp] (the soft-decision matrix),
    followed by the properties established about them.

    Conventions.
    - C++ unsigned integers are [Z] values reduced modulo [2^w]; the
      reductions are written where the source computes in that type.
    - [float] is IEEE-754 binary32, taken from the parametric specification
      [SpecFloat] with [prec = 24] and [emax = 128].
    - Arrays are lists; a loop is a bounded iteration over its index. *)

From Stdlib Require Import ZArith List Lia Bool String Permutation.
From Stdlib Require Import Floats.SpecFloat.
Import ListNotations.

Local Open Scope Z_scope.

(* ====================================================================== *)
(** * Machine integers, arrays and loops *)

Module Mach.

(** Reduction of a value to [w] bits: what storing into an unsigned
    [w]-bit object does. *)
Definition wrap (w x : Z) : Z := x mod 2 ^ w.

(** [unsigned int] is 32 bits wide. *)
Definition u32 (x : Z) : Z := wrap 32 x.

(** Array read [a[i]]; [d] stands for what an access outside the object
    would yield (such accesses are undefined in the source). *)
Definition get {A} (d : A) (a : list A) (i : Z) : A := nth (Z.to_nat i) a d.

Fixpoint upd {A} (i : nat) (v : A) (a : list A) : list A :=
  match a, i with
  | [], _ => []
  | _ :: t, O => v :: t
  | h :: t, S j => h :: upd j v t
  end.

(** Array write [a[i] = v]; a write outside the object leaves it as is. *)
Definition set {A} (a : list A) (i : Z) (v : A) : list A :=
  if i <? 0 then a else upd (Z.to_nat i) v a.

(** [for (i = lo; i < lo + count; i++) s = body i s]. *)
Fixpoint for_loop {S} (count : nat) (i : Z) (body : Z -> S -> S) (s : S) : S :=
  match count with
  | O => s
  | Datatypes.S c => for_loop c (i + 1) body (body i s)
  end.

Definition for_range {S} (lo hi : Z) (body : Z -> S -> S) (s : S) : S :=
  for_loop (Z.to_nat (hi - lo)) lo body s.

(** [while (cond s) s = body s], cut off after [fuel] iterations. *)
Fixpoint while_loop {S} (fuel : nat) (cond : S -> bool) (body : S -> S) (s : S) : S :=
  match fuel with
  | O => s
  | Datatypes.S f => if cond s then while_loop f cond body (body s) else s
  end.

(** [memcpy(&dst[doff], &src[soff], cnt * sizeof(elt))]. *)
Definition memcpy {A} (d : A) (dst : list A) (doff : Z) (src : list A) (soff : Z)
    (cnt : Z) : list A :=
  for_range 0 cnt (fun i acc => set acc (doff + i) (get d src (soff + i))) dst.

End Mach.

Import Mach.

(* ====================================================================== *)
(** * binary32 *)

Module F32.

Definition float : Type := spec_float.

Definition prec : Z := 24.
Definition emax : Z := 128.

Definition zero : float := S754_zero false.
Definition add : float -> float -> float := SFadd prec emax.
Definition div : float -> float -> float := SFdiv prec emax.
Definition eqb : float -> float -> bool := SFeqb.
Definition ltb : float -> float -> bool := SFltb.
Definition leb : float -> float -> bool := SFleb.

(** [x >= y] and [x != y] as C++ evaluates them (false, resp. true, as soon
    as one side is a NaN). *)
Definition geb (x y : float) : bool := leb y x.
Definition neqb (x y : float) : bool := negb (eqb x y).

Definition is_nan (x : float) : bool :=
  match x with S754_nan => true | _ => false end.

(** Conversion of a small non-negative integer literal. *)
Definition of_Z (z : Z) : float := binary_normalize prec emax z 0 false.

End F32.

(* ====================================================================== *)
(** * CC_Encoding_FA<T_Register, T_IOSymbol, N_k> *)

Module Encoder.

(** Outcome of a constructor that may throw [CCSoft_Exception]. *)
Inductive outcome (A : Type) : Type :=
| Ok (a : A)
| Throw (msg : string).
Arguments Ok {A} a.
Arguments Throw {A} msg%_string.

Definition bind {A B} (x : outcome A) (f : A -> outcome B) : outcome B :=
  match x with
  | Ok a => f a
  | Throw msg => Throw msg
  end.

Notation "' pat <- c ;; k" := (bind c (fun x => match x with pat => k end))
  (at level 61, pat pattern, c at next level, right associativity).
Notation "'guard' b 'else_throw' msg ;; k" := (if b then k else Throw msg)
  (at level 61, b at next level, msg at next level, right associativity).

Record t : Type := mk {
  k : Z;                                  (* number of input bits *)
  n : Z;                                  (* number of output bits *)
  m : Z;                                  (* maximum register length *)
  constraints : list Z;
  genpoly_representations : list (list Z);
  registers : list Z
}.

Definition with_registers (e : t) (regs : list Z) : t :=
  mk (k e) (n e) (m e) (constraints e) (genpoly_representations e) regs.

Section Template.

(** [reg_bits = sizeof(T_Register)*8], [sym_bits = sizeof(T_IOSymbol)*8]. *)
Variables (reg_bits sym_bits N_k : Z).

Definition size {A} (v : list A) : Z := Z.of_nat (List.length v).

(** [std::fill(registers.begin(), registers.end(), 0)] on an array of
    [N_k] registers. *)
Definition clear_registers : list Z := repeat 0 (Z.to_nat N_k).

Definition clear (e : t) : t := with_registers e clear_registers.

(** The body of the constructor's loop over [ci]; the state is
    [(min_nb_outputs, m)]. *)
Definition scan_constraint (_constraints : list Z) (_genpoly : list (list Z))
    (ci : Z) (st : outcome (Z * Z)) : outcome (Z * Z) :=
  '(min_nb_outputs, m) <- st ;;
  guard negb (get 0 _constraints ci >? reg_bits)
    else_throw "One constraint size is too large for the size of the registers" ;;
  let min_nb_outputs :=
    if size (get [] _genpoly ci) <? min_nb_outputs
    then u32 (size (get [] _genpoly ci)) else min_nb_outputs in
  let m := if get 0 _constraints ci >? m then get 0 _constraints ci else m in
  Ok (min_nb_outputs, m).

(** The constructor.  It reads [genpoly_representations[0]] once the three
    size checks have passed; for [N_k = 0] that vector is empty and the
    read is undefined in the source ([get] then yields the empty default),
    so the properties below are stated for [0 < N_k]. *)
Definition construct (_constraints : list Z) (_genpoly : list (list Z)) : outcome t :=
  guard (size _constraints =? N_k)
    else_throw "Constraints size is not valid" ;;
  guard negb (N_k >? sym_bits)
    else_throw "Number of input bits not supported by I/O symbol type" ;;
  guard (size _genpoly =? N_k)
    else_throw "Generator polynomial representations size error" ;;
  let min_nb_outputs := u32 (size (get [] _genpoly 0)) in
  '(min_nb_outputs, m) <-
    for_range 0 (size _constraints) (scan_constraint _constraints _genpoly)
      (Ok (min_nb_outputs, 0)) ;;
  let n := min_nb_outputs in
  guard negb (n <=? N_k)
    else_throw "The number of outputs must be larger than the number of inputs" ;;
  guard negb (n >? sym_bits)
    else_throw "Number of output bits not supported by I/O symbol type" ;;
  Ok (mk N_k n m _constraints _genpoly clear_registers).

(** [xorbits]: the loop runs while the working copy is nonzero, which for
    a [reg_bits]-wide value is at most [reg_bits] times. *)
Definition xorbits_cond (st : Z * Z) : bool :=
  let '(w_reg, _) := st in negb (w_reg =? 0).

Definition xorbits_body (st : Z * Z) : Z * Z :=
  let '(w_reg, nb_ones) := st in (w_reg / 2, u32 (nb_ones + w_reg mod 2)).

Definition xorbits_loop (reg : Z) : Z * Z :=
  while_loop (Z.to_nat reg_bits) xorbits_cond xorbits_body (reg, 0).

Definition xorbits (reg : Z) : bool :=
  snd (xorbits_loop reg) mod 2 =? 1.

(** First loop of [encode]: the state is [(registers, w_in)]. *)
Definition load_bit (no_step : bool) (ki : Z) (st : list Z * Z) : list Z * Z :=
  let '(regs, w_in) := st in
  let regs := if no_step then set regs ki (Z.shiftr (get 0 regs ki) 1) else regs in
  let regs := set regs ki (wrap reg_bits (Z.shiftl (get 0 regs ki) 1)) in
  let regs := set regs ki (wrap reg_bits (get 0 regs ki + Z.land w_in 1)) in
  (regs, Z.shiftr w_in 1).

Definition load_registers (e : t) (in_symbol : Z) (no_step : bool) : list Z :=
  fst (for_range 0 (k e) (load_bit no_step) (registers e, in_symbol)).

(** Inner loop of the output computation, for output bit [ni]. *)
Definition symbol_bit (e : t) (regs : list Z) (ni : Z) : Z :=
  for_range 0 (k e)
    (fun ki sb =>
       Z.lxor sb
         (if xorbits (Z.land (get 0 regs ki)
                        (get 0 (get [] (genpoly_representations e) ki) ni))
          then 1 else 0))
    0.

Definition output_symbol (e : t) (regs : list Z) : Z :=
  for_range 0 (n e)
    (fun ni out_symbol => wrap sym_bits (out_symbol + Z.shiftl (symbol_bit e regs ni) ni))
    0.

(** [encode] returns its [bool], the output symbol and the encoder after
    the call. *)
Definition encode (e : t) (in_symbol : Z) (no_step : bool) : bool * Z * t :=
  let regs := load_registers e in_symbol no_step in
  (true, output_symbol e regs, with_registers e regs).

Definition get_k (e : t) : Z := k e.
Definition get_n (e : t) : Z := n e.
Definition get_m (e : t) : Z := m e.

(** [get_registers] hands out the array, [set_registers] assigns it. *)
Definition get_registers (e : t) : list Z := registers e.
Definition set_registers (e : t) (_registers : list Z) : t :=
  with_registers e _registers.

(** Encoding a sequence of (symbol, no_step) calls, collecting outputs. *)
Fixpoint encode_all (e : t) (inputs : list (Z * bool)) : list Z * t :=
  match inputs with
  | [] => ([], e)
  | (x, no_step) :: rest =>
      let '(_, out, e1) := encode e x no_step in
      let '(outs, e2) := encode_all e1 rest in
      (out :: outs, e2)
  end.

(** ** Notions used to state the properties of the encoder *)

(** Representation invariant: registers have at least one bit, there is
    one register per input bit, each a [reg_bits]-wide value, and the
    output width fits the symbol type (the last check of the
    constructor). *)
Definition wfb (e : t) : bool :=
  (0 <? reg_bits) && (0 <=? k e) && (size (registers e) =? k e)
  && forallb (fun x => (0 <=? x) && (x <? 2 ^ reg_bits)) (registers e)
  && (0 <=? n e) && (n e <=? sym_bits).

Definition wf (e : t) : Prop := wfb e = true.

(** Number of set bits of [x] among its [reg_bits] low bits. *)
Definition popcount (x : Z) : Z :=
  Z.of_nat (List.length (filter (fun j => Z.testbit x (Z.of_nat j))
                           (seq 0 (Z.to_nat reg_bits)))).

(** XOR of all bits: the population count reduced modulo 2. *)
Definition parity (x : Z) : bool := Z.odd (popcount x).

(** Output bit [j] for the register contents [regs]: the XOR over the
    registers of the parity of (register AND tap-vector[i][j]). *)
Definition output_bit (e : t) (regs : list Z) (j : Z) : bool :=
  fold_left xorb
    (map (fun i => parity (Z.land (get 0 regs (Z.of_nat i))
                             (get 0 (get [] (genpoly_representations e) (Z.of_nat i)) j)))
       (seq 0 (Z.to_nat (k e))))
    false.

(** What the first loop of [encode] does to one register, [w_in] being
    the input symbol already shifted down to its bit. *)
Definition clocked (no_step : bool) (reg w_in : Z) : Z :=
  let reg := if no_step then Z.shiftr reg 1 else reg in
  let reg := wrap reg_bits (Z.shiftl reg 1) in
  wrap reg_bits (reg + Z.land w_in 1).

(** The low [count] bits of [x] that are set, counted. *)
Definition count_bits (count : nat) (x : Z) : Z :=
  Z.of_nat (List.length (filter (fun j => Z.testbit x (Z.of_nat j)) (seq 0 count))).

(** A register after shifting left by one and inserting bit [i] of [x]. *)
Definition shifted_in (reg x i : Z) : Z :=
  wrap reg_bits (2 * reg + Z.b2z (Z.testbit x i)).

(** The shortest tap-vector length of a configuration. *)
Definition min_tap_length (_genpoly : list (list Z)) : Z :=
  match _genpoly with
  | [] => 0
  | v :: vs => fold_left Z.min (map size vs) (size v)
  end.

(** The five grounds on which a configuration is rejected. *)
Definition rejected (_constraints : list Z) (_genpoly : list (list Z)) : Prop :=
  size _constraints <> N_k
  \/ (exists c, In c _constraints /\ reg_bits < c)
  \/ size _genpoly <> N_k
  \/ min_tap_length _genpoly <= N_k
  \/ sym_bits < min_tap_length _genpoly.

(** Vector sizes that an [unsigned int] holds. *)
Definition sizes_fit (_genpoly : list (list Z)) : Prop :=
  Forall (fun v => size v < 2 ^ 32) _genpoly.

(** Two encoders of the same code: same [k], [n] and tap vectors. *)
Definition same_code (e1 e2 : t) : Prop :=
  k e1 = k e2 /\ n e1 = n e2
  /\ genpoly_representations e1 = genpoly_representations e2.

End Template.

End Encoder.

(* ====================================================================== *)
(** * CC_ReliabilityMatrix *)

Module RelMat.

Import F32.

Record t : Type := mk {
  _nb_symbols_log2 : Z;
  _nb_symbols : Z;
  _message_length : Z;
  _message_symbol_count : Z;            (* the ingestion cursor *)
  _matrix : list float
}.

Definition with_matrix (r : t) (mat : list float) : t :=
  mk (_nb_symbols_log2 r) (_nb_symbols r) (_message_length r)
     (_message_symbol_count r) mat.

(** The buffer index [ic*_nb_symbols + ir], computed in [unsigned int]. *)
Definition index (r : t) (ic ir : Z) : Z := u32 (u32 (ic * _nb_symbols r) + ir).

(** Number of floats in the buffer: [_nb_symbols*_message_length]. *)
Definition buffer_size (r : t) : Z := u32 (_nb_symbols r * _message_length r).

(** The cell at row [ir] of column [ic]. *)
Definition cell (r : t) (ir ic : Z) : float := get zero (_matrix r) (index r ic ir).

(** A column as the list of its cells, row 0 first. *)
Definition column (r : t) (ic : Z) : list float :=
  map (fun ir => cell r (Z.of_nat ir) ic) (seq 0 (Z.to_nat (_nb_symbols r))).

(** Constructor: allocates the buffer and zeroes every element. *)
Definition create (nb_symbols_log2 message_length : Z) : t :=
  let nb_symbols := u32 (Z.shiftl 1 nb_symbols_log2) in
  let sz := u32 (nb_symbols * message_length) in
  let fresh := repeat zero (Z.to_nat sz) in
  mk nb_symbols_log2 nb_symbols message_length 0
     (for_range 0 sz (fun i mat => set mat i zero) fresh).

(** Copy constructor. *)
Definition copy (relmat : t) : t :=
  let sz := u32 (_nb_symbols relmat * _message_length relmat) in
  let fresh := repeat zero (Z.to_nat sz) in
  mk (_nb_symbols_log2 relmat) (_nb_symbols relmat) (_message_length relmat) 0
     (memcpy zero fresh 0 (_matrix relmat) 0 sz).

(** [enter_symbol_data(symbol_data)], at the cursor. *)
Definition enter_symbol_data (r : t) (symbol_data : list float) : t :=
  if _message_symbol_count r <? _message_length r then
    let mat := memcpy zero (_matrix r) (u32 (_message_symbol_count r * _nb_symbols r))
                 symbol_data 0 (_nb_symbols r) in
    mk (_nb_symbols_log2 r) (_nb_symbols r) (_message_length r)
       (u32 (_message_symbol_count r + 1)) mat
  else r.

(** [enter_symbol_data(message_symbol_index, symbol_data)], at a given column. *)
Definition enter_symbol_data_at (r : t) (message_symbol_index : Z)
    (symbol_data : list float) : t :=
  if message_symbol_index <? _message_length r then
    with_matrix r
      (memcpy zero (_matrix r) (u32 (message_symbol_index * _nb_symbols r))
         symbol_data 0 (_nb_symbols r))
  else r.

(** [enter_erasure()], at the cursor. *)
Definition enter_erasure (r : t) : t :=
  if _message_symbol_count r <? _message_length r then
    let mat := for_range 0 (_nb_symbols r)
                 (fun i mat => set mat (index r (_message_symbol_count r) i) zero)
                 (_matrix r) in
    mk (_nb_symbols_log2 r) (_nb_symbols r) (_message_length r)
       (u32 (_message_symbol_count r + 1)) mat
  else r.

(** [enter_erasure(message_symbol_index)], at a given column. *)
Definition enter_erasure_at (r : t) (message_symbol_index : Z) : t :=
  if message_symbol_index <? _message_length r then
    with_matrix r
      (for_range 0 (_nb_symbols r)
         (fun i mat => set mat (index r message_symbol_index i) zero)
         (_matrix r))
  else r.

(** Inner loop of [normalize] for the virtual column [ic]; the state is
    [(matrix, col_sum)]. *)
Definition normalize_row (r : t) (ic : Z) (last_col_sum : float) (ir : Z)
    (st : list float * float) : list float * float :=
  let '(mat, col_sum) := st in
  let col_sum :=
    if ic <? _message_length r then add col_sum (get zero mat (index r ic ir))
    else col_sum in
  let mat :=
    if 0 <? ic then
      if neqb last_col_sum zero then
        set mat (index r (ic - 1) ir)
          (div (get zero mat (index r (ic - 1) ir)) last_col_sum)
      else mat
    else mat in
  (mat, col_sum).

(** Outer loop body of [normalize]. *)
Definition normalize_col (r : t) (ic : Z) (st : list float * float) : list float * float :=
  let '(mat, col_sum) := st in
  let last_col_sum := col_sum in
  let col_sum := zero in
  for_range 0 (_nb_symbols r) (normalize_row r ic last_col_sum) (mat, col_sum).

Definition normalize (r : t) : t :=
  with_matrix r
    (fst (for_range 0 (u32 (_message_length r + 1)) (normalize_col r)
            (_matrix r, zero))).

(** [find_max]: the state is [(max, i_row, i_col)]. *)
Definition find_max_cell (r : t) (ic ir : Z) (st : float * Z * Z) : float * Z * Z :=
  let '(max, i_row, i_col) := st in
  if geb (get zero (_matrix r) (index r ic ir)) max
  then (get zero (_matrix r) (index r ic ir), ir, ic)
  else (max, i_row, i_col).

Definition find_max (r : t) : float * Z * Z :=
  for_range 0 (_message_length r)
    (fun ic st => for_range 0 (_nb_symbols r) (find_max_cell r ic) st)
    (zero, 0, 0).

(** [find_max_in_col]: the state is [(max, i_row)]. *)
Definition find_max_in_col_cell (r : t) (i_col : Z) (prev_max : float) (ir : Z)
    (st : float * Z) : float * Z :=
  let '(max, i_row) := st in
  if geb (get zero (_matrix r) (index r i_col ir)) max
     && ltb (get zero (_matrix r) (index r i_col ir)) prev_max
  then (get zero (_matrix r) (index r i_col ir), ir)
  else (max, i_row).

Definition find_max_in_col (r : t) (i_col : Z) (prev_max : float) : float * Z :=
  for_range 0 (_nb_symbols r) (find_max_in_col_cell r i_col prev_max) (zero, 0).

(** The bit-reversal loop of [deinterleave]: the state is
    [(new_index, s, iv)]; [iv] is an [unsigned int], so the loop ends
    within 32 iterations. *)
Definition reverse_cond (st : Z * Z * Z) : bool :=
  let '(_, _, iv) := st in negb (iv =? 0).

Definition reverse_body (st : Z * Z * Z) : Z * Z * Z :=
  let '(new_index, s, iv) := st in
  let new_index := Z.lor new_index (Z.land iv 1) in
  let new_index := u32 (Z.shiftl new_index 1) in
  (new_index, u32 (s - 1), Z.shiftr iv 1).

Definition reverse_loop (index_size i : Z) : Z * Z * Z :=
  while_loop 32 reverse_cond reverse_body (0, index_size, i).

Definition reversed_index (index_size i : Z) : Z :=
  let '(new_index, s, _) := reverse_loop index_size i in
  let new_index := Z.shiftr new_index 1 in
  u32 (Z.shiftl new_index s).

(** [(unsigned int) (log(_message_length)/log(2)) + 1]: the quotient of
    the two logarithms truncates to the position of the highest set bit.
    (Should the quotient come out just below an integer at an exact power
    of two, the width is one less: see [width_fits].) *)
Definition index_size (r : t) : Z := u32 (Z.log2 (_message_length r) + 1).

(** [1 << index_size]. *)
Definition index_max (index_size : Z) : Z := u32 (Z.shiftl 1 index_size).

(** Main loop of [deinterleave]: the state is [(matrix, old_index, i)];
    [i] stays below [index_max], which bounds the iterations. *)
Definition deinterleave_step (r : t) (index_size : Z) (tmp_matrix : list float)
    (st : list float * Z * Z) : list float * Z * Z :=
  let '(mat, old_index, i) := st in
  let new_index := reversed_index index_size i in
  let '(mat, old_index) :=
    if new_index <? _message_length r then
      (memcpy zero mat (u32 (old_index * _nb_symbols r))
         tmp_matrix (u32 (new_index * _nb_symbols r)) (_nb_symbols r),
       u32 (old_index + 1))
    else (mat, old_index) in
  (mat, old_index, u32 (i + 1)).

Definition deinterleave_cond (r : t) (index_size : Z) (st : list float * Z * Z) : bool :=
  let '(_, old_index, i) := st in
  (i <? index_max index_size) && (old_index <? _message_length r).

Definition deinterleave_loop (r : t) (index_size : Z) (tmp_matrix : list float)
    : list float * Z * Z :=
  while_loop (Z.to_nat (index_max index_size)) (deinterleave_cond r index_size)
    (deinterleave_step r index_size tmp_matrix) (_matrix r, 0, 0).

(** The copy of the buffer taken before the loop. *)
Definition tmp_matrix (r : t) : list float :=
  let sz := buffer_size r in
  memcpy zero (repeat zero (Z.to_nat sz)) 0 (_matrix r) 0 sz.

(** [deinterleave] once [index_size] is computed. *)
Definition deinterleave_at (index_size : Z) (r : t) : t :=
  with_matrix r (fst (fst (deinterleave_loop r index_size (tmp_matrix r)))).

Definition deinterleave (r : t) : t := deinterleave_at (index_size r) r.

(** ** Notions used to state the properties of the matrix *)

(** Representation invariant of a constructed matrix: [_nb_symbols] is
    [1 << _nb_symbols_log2], the element count fits [unsigned int] (the
    buffer has that many floats) and the cursor never passes
    [_message_length]. *)
Definition wfb (r : t) : bool :=
  (0 <=? _nb_symbols_log2 r) && (_nb_symbols_log2 r <? 32)
  && (_nb_symbols r =? 2 ^ _nb_symbols_log2 r)
  && (0 <=? _message_length r)
  && (_nb_symbols r * _message_length r <? 2 ^ 32)
  && (0 <=? _message_symbol_count r)
  && (_message_symbol_count r <=? _message_length r)
  && (Z.of_nat (List.length (_matrix r)) =? _nb_symbols r * _message_length r).

Definition wf (r : t) : Prop := wfb r = true.

(** Every stored metric compares [>= 0.0]. *)
Definition nonneg (r : t) : Prop :=
  forallb (fun x => leb zero x) (_matrix r) = true.

Definition in_range (r : t) (ir ic : Z) : Prop :=
  0 <= ir < _nb_symbols r /\ 0 <= ic < _message_length r.

(** [r'] is [r] with column [ic] overwritten by [vals] (row [ir] receives
    [vals ir]) and nothing else touched: same dimensions, same buffer
    length, every cell of every other column as before. *)
Definition column_written (r r' : t) (ic : Z) (vals : Z -> float) : Prop :=
  _nb_symbols_log2 r' = _nb_symbols_log2 r
  /\ _nb_symbols r' = _nb_symbols r
  /\ _message_length r' = _message_length r
  /\ List.length (_matrix r') = List.length (_matrix r)
  /\ (forall ir, 0 <= ir < _nb_symbols r -> cell r' ir ic = vals ir)
  /\ (forall ir jc, in_range r ir jc -> jc <> ic -> cell r' ir jc = cell r ir jc).

(** The columns, column 0 first. *)
Definition columns (r : t) : list (list float) :=
  map (fun ic => column r (Z.of_nat ic)) (seq 0 (Z.to_nat (_message_length r))).

(** Sum of a column, accumulated from [0.0] in increasing row order. *)
Definition col_sum (r : t) (ic : Z) : float := fold_left add (column r ic) zero.

(** Sum of the first [rows] cells of a column. *)
Definition partial_sum (r : t) (ic : Z) (rows : nat) : float :=
  fold_left add (map (fun ir => cell r (Z.of_nat ir) ic) (seq 0 rows)) zero.

(** A cell divided by the sum of its column, or the cell itself when that
    sum compares equal to zero. *)
Definition normalized_cell (r : t) (ir ic : Z) : float :=
  if neqb (col_sum r ic) zero then div (cell r ir ic) (col_sum r ic)
  else cell r ir ic.

(** State of the inner loop of [normalize] before row [ir] at the virtual
    column [ic], and of the outer loop before column [ic]; [r] is the
    matrix before the call. *)
Definition normalize_row_inv (r : t) (ic ir : Z) (st : list float * float) : Prop :=
  let '(mat, cs) := st in
  List.length mat = List.length (_matrix r)
  /\ cs = (if ic <? _message_length r then partial_sum r ic (Z.to_nat ir) else zero)
  /\ forall jr jc, in_range r jr jc ->
       get zero mat (index r jc jr) =
       if (jc <? ic - 1) || ((jc =? ic - 1) && (jr <? ir))
       then normalized_cell r jr jc else cell r jr jc.

Definition normalize_col_inv (r : t) (ic : Z) (st : list float * float) : Prop :=
  let '(mat, cs) := st in
  List.length mat = List.length (_matrix r)
  /\ (1 <= ic <= _message_length r -> cs = col_sum r (ic - 1))
  /\ forall jr jc, in_range r jr jc ->
       get zero mat (index r jc jr) =
       if jc <? ic - 1 then normalized_cell r jr jc else cell r jr jc.

(** [(ic, ir)] is scanned strictly after [(jc, jr)] by [find_max]. *)
Definition scanned_after (ic ir jc jr : Z) : Prop :=
  jc < ic \/ (jc = ic /\ jr < ir).

(** What [find_max] owes on a matrix with at least one cell: the result is
    a cell of the matrix, no cell exceeds it, and every cell scanned after
    the reported position is strictly smaller. *)
Definition is_last_max (r : t) (res : float * Z * Z) : Prop :=
  let '(v, row, col) := res in
  in_range r row col /\ v = cell r row col
  /\ (forall ir ic, in_range r ir ic -> leb (cell r ir ic) v = true)
  /\ (forall ir ic, in_range r ir ic -> scanned_after ic ir col row ->
        ltb (cell r ir ic) v = true).

(** State of [find_max] when the scan is about to read row [ir] of column
    [ic]: the running maximum is not below zero, bounds every cell read so
    far, and is either the initial triple (nothing read yet) or a cell read
    so far after which only strictly smaller cells were read. *)
Definition find_max_inv (r : t) (ic ir : Z) (st : float * Z * Z) : Prop :=
  let '(v, row, col) := st in
  leb zero v = true
  /\ (forall jr jc, in_range r jr jc -> scanned_after ic ir jc jr ->
        leb (cell r jr jc) v = true)
  /\ ((ic = 0 /\ ir = 0 /\ st = (zero, 0, 0))
      \/ (in_range r row col /\ scanned_after ic ir col row /\ v = cell r row col
          /\ forall jr jc, in_range r jr jc -> scanned_after ic ir jc jr ->
               scanned_after jc jr col row -> ltb (cell r jr jc) v = true)).

(** What [find_max_in_col] owes when asked for the largest value of column
    [ic] strictly below [bound]. *)
Definition is_last_max_below (r : t) (ic : Z) (bound : float) (res : float * Z) : Prop :=
  let '(v, row) := res in
  0 <= row < _nb_symbols r /\ v = cell r row ic /\ ltb v bound = true
  /\ (forall ir, 0 <= ir < _nb_symbols r -> ltb (cell r ir ic) bound = true ->
        leb (cell r ir ic) v = true)
  /\ (forall ir, row < ir < _nb_symbols r -> ltb (cell r ir ic) bound = true ->
        ltb (cell r ir ic) v = true).

(** State of [find_max_in_col] when the scan is about to read row [ir]:
    either no cell below the bound was read and the state is the initial
    pair, or the state is the last largest cell below the bound read. *)
Definition find_max_in_col_inv (r : t) (ic : Z) (bound : float) (ir : Z)
    (st : float * Z) : Prop :=
  let '(v, row) := st in
  leb zero v = true
  /\ (((forall jr, 0 <= jr < ir -> ltb (cell r jr ic) bound = false) /\ st = (zero, 0))
      \/ (0 <= row < ir /\ v = cell r row ic /\ ltb v bound = true
          /\ (forall jr, 0 <= jr < ir -> ltb (cell r jr ic) bound = true ->
                leb (cell r jr ic) v = true)
          /\ (forall jr, row < jr < ir -> ltb (cell r jr ic) bound = true ->
                ltb (cell r jr ic) v = true))).

(** Successive calls of [find_max_in_col], each bounded by the value the
    previous one returned. *)
Fixpoint descend (r : t) (ic : Z) (bound : float) (calls : nat) : list (float * Z) :=
  match calls with
  | O => []
  | S c =>
      let res := find_max_in_col r ic bound in
      res :: descend r ic (fst res) c
  end.

(** ** The column permutation as the specification words it *)

(** Bit-reversal of [i] within [w] bits: bit 0 of [i] lands on bit [w-1]. *)
Fixpoint spec_bit_reverse (w : nat) (i : Z) : Z :=
  match w with
  | O => 0
  | S w' => (i mod 2) * 2 ^ Z.of_nat w' + spec_bit_reverse w' (i / 2)
  end.

(** [w = ceil(log2(message_length))]. *)
Definition spec_width (r : t) : Z := Z.log2_up (_message_length r).

(** Copy of column [src] of [snapshot] onto column [dst] of [mat]. *)
Definition spec_copy_column (r : t) (mat snapshot : list float) (dst src : Z) : list float :=
  memcpy zero mat (dst * _nb_symbols r) snapshot (src * _nb_symbols r) (_nb_symbols r).

(** Visiting the source column [src]: when it is a column of the matrix it
    is copied onto the next destination; the state is the matrix and the
    next destination. *)
Definition visit (r : t) (snapshot : list float) (src : Z)
    (st : list float * Z) : list float * Z :=
  let '(mat, dst) := st in
  if src <? _message_length r
  then (spec_copy_column r mat snapshot dst src, dst + 1)
  else (mat, dst).

(** One raw index [i]. *)
Definition spec_deinterleave_step (r : t) (snapshot : list float) (i : Z)
    (st : list float * Z) : list float * Z :=
  visit r snapshot (spec_bit_reverse (Z.to_nat (spec_width r)) i) st.

Definition spec_deinterleave (r : t) : t :=
  with_matrix r
    (fst (for_range 0 (2 ^ spec_width r) (spec_deinterleave_step r (_matrix r))
            (_matrix r, 0))).

(** The values [index_size] takes: the position of the highest set bit
    plus one; or, for a length that is an exact power of two, that
    exponent itself, which is what the source obtains where the quotient of
    logarithms is rounded just below the exponent. *)
Definition width_fits (r : t) (w : Z) : Prop :=
  w = Z.log2 (_message_length r) + 1 \/ (1 <= w /\ 2 ^ w = _message_length r).

(** The integers [0 .. n-1]. *)
Definition iota (n : nat) : list Z := map Z.of_nat (seq 0 n).

(** The source columns in the order in which they are copied: the
    reversed raw indices that denote a column. *)
Definition sources (r : t) (w : nat) : list Z :=
  filter (fun x => x <? _message_length r)
    (map (spec_bit_reverse w) (iota (2 ^ w))).

Definition spec_sources (r : t) : list Z := sources r (Z.to_nat (spec_width r)).

(** Visiting a list of source columns in turn. *)
Definition run (r : t) (snapshot : list float) (l : list Z)
    (st : list float * Z) : list float * Z :=
  fold_left (fun st src => visit r snapshot src st) l st.

End RelMat.

(* ====================================================================== *)
(** * Further notions, for the properties beyond the claims *)

Module EncoderExt.

Import Encoder.

(** The largest constraint length, as the constructor accumulates it
    from 0. *)
Definition max_constraint (_constraints : list Z) : Z :=
  fold_left Z.max _constraints 0.

(** A sequence of plain [encode] calls ([no_step] left at its default). *)
Definition steps (inputs : list Z) : list (Z * bool) :=
  map (fun x => (x, false)) inputs.

(** An array of registers of [reg_bits] bits each. *)
Definition in_width (reg_bits : Z) (regs : list Z) : Prop :=
  Forall (fun x => 0 <= x < 2 ^ reg_bits) regs.

(** An input symbol whose [k] low bits are all zero. *)
Definition low_bits_clear (k x : Z) : Prop :=
  forall i, 0 <= i < k -> Z.testbit x i = false.

(** Element-wise XOR of two register arrays. *)
Definition lxor_all (a b : list Z) : list Z :=
  map (fun p => Z.lxor (fst p) (snd p)) (combine a b).

(** Bit [j] of register [i] once [inputs] (oldest first) have been
    encoded one after the other with plain [encode] calls, [old] being the
    register before: the last symbols entered supply the low bits, the
    most recent at bit 0, and the old contents sit above them. *)
Definition history_bit (inputs : list Z) (old i j : Z) : bool :=
  if j <? size inputs
  then Z.testbit (nth (Z.to_nat (size inputs - 1 - j)) inputs 0) i
  else Z.testbit old (j - size inputs).

End EncoderExt.

Module RelMatExt.

Import F32 RelMat.

(** A column of zeros. *)
Definition zeros (r : t) : list float := repeat zero (Z.to_nat (_nb_symbols r)).

(** Entering a list of columns one after the other at the cursor. *)
Definition fill (r : t) (cols : list (list float)) : t :=
  fold_left enter_symbol_data cols r.

(** [v] is at least every cell that is a number. *)
Definition bounds_numbers (r : t) (v : float) : Prop :=
  forall ir ic, in_range r ir ic ->
    is_nan (cell r ir ic) = true \/ leb (cell r ir ic) v = true.

(** No cell of column [ic] is a number that is at least zero and below
    [bound]. *)
Definition none_eligible (r : t) (ic : Z) (bound : float) : Prop :=
  forall ir, 0 <= ir < _nb_symbols r ->
    leb zero (cell r ir ic) && ltb (cell r ir ic) bound = false.

(** State of [find_max] when the scan is about to read row [ir] of column
    [ic], whatever the buffer holds: the running maximum is a number not
    below zero; every cell read so far is a NaN or at most the running
    maximum; and either no cell read so far compared [>= 0.0] and the
    state is the initial triple, or the state is a cell read so far, and
    no cell read after it compared [>=] to it. *)
Definition find_max_inv_any (r : t) (ic ir : Z) (st : float * Z * Z) : Prop :=
  let '(v, row, col) := st in
  leb zero v = true
  /\ (forall jr jc, in_range r jr jc -> scanned_after ic ir jc jr ->
        is_nan (cell r jr jc) = true \/ leb (cell r jr jc) v = true)
  /\ (((forall jr jc, in_range r jr jc -> scanned_after ic ir jc jr ->
          leb zero (cell r jr jc) = false) /\ st = (zero, 0, 0))
      \/ (in_range r row col /\ scanned_after ic ir col row /\ v = cell r row col
          /\ forall jr jc, in_range r jr jc -> scanned_after ic ir jc jr ->
               scanned_after jc jr col row -> geb (cell r jr jc) v = false)).

(** The result of [find_max] when some cell compares [>= 0.0]. *)
Definition is_last_max_any (r : t) (res : float * Z * Z) : Prop :=
  let '(v, row, col) := res in
  in_range r row col /\ v = cell r row col /\ leb zero v = true
  /\ bounds_numbers r v
  /\ (forall ir ic, in_range r ir ic -> scanned_after ic ir col row ->
        geb (cell r ir ic) v = false).

(** State of [find_max_in_col] before row [ir], whatever the buffer and
    the bound hold. *)
Definition find_max_in_col_inv_any (r : t) (ic : Z) (bound : float) (ir : Z)
    (st : float * Z) : Prop :=
  let '(v, row) := st in
  leb zero v = true
  /\ (((forall jr, 0 <= jr < ir ->
          leb zero (cell r jr ic) && ltb (cell r jr ic) bound = false)
       /\ st = (zero, 0))
      \/ (0 <= row < ir /\ v = cell r row ic /\ ltb v bound = true
          /\ (forall jr, 0 <= jr < ir -> ltb (cell r jr ic) bound = true ->
                leb (cell r jr ic) v = true)
          /\ (forall jr, row < jr < ir -> ltb (cell r jr ic) bound = true ->
                ltb (cell r jr ic) v = true))).

(** The result of [find_max_in_col] when some cell of the column is a
    number at least zero and below the bound. *)
Definition is_last_max_below_any (r : t) (ic : Z) (bound : float)
    (res : float * Z) : Prop :=
  let '(v, row) := res in
  0 <= row < _nb_symbols r /\ v = cell r row ic
  /\ leb zero v = true /\ ltb v bound = true
  /\ (forall ir, 0 <= ir < _nb_symbols r -> ltb (cell r ir ic) bound = true ->
        leb (cell r ir ic) v = true)
  /\ (forall ir, row < ir < _nb_symbols r -> ltb (cell r ir ic) bound = true ->
        ltb (cell r ir ic) v = true).

(** Same dimensions, whatever the cursor and the cells. *)
Definition same_shape (r r' : t) : Prop :=
  _nb_symbols_log2 r' = _nb_symbols_log2 r
  /\ _nb_symbols r' = _nb_symbols r
  /\ _message_length r' = _message_length r.

(** A length that is an exact power of two. *)
Definition power_of_two (n w : Z) : Prop := 0 <= w /\ n = 2 ^ w.

End RelMatExt.

(* ====================================================================== *)
(** * Facts about loops and arrays *)

Section LoopFacts.

Context {S : Type}.

Lemma for_loop_ind (P : Z -> S -> Prop) (body : Z -> S -> S) :
  forall count i s,
    P i s ->
    (forall j t, i <= j < i + Z.of_nat count -> P j t -> P (j + 1) (body j t)) ->
    P (i + Z.of_nat count) (for_loop count i body s).
Proof.
  induction count as [|c IH]; intros i s H0 Hstep.
  - simpl. now rewrite Z.add_0_r.
  - cbn [for_loop].
    replace (i + Z.of_nat (Datatypes.S c)) with ((i + 1) + Z.of_nat c) by lia.
    apply IH.
    + apply Hstep; [lia | exact H0].
    + intros j t Hj. apply Hstep. lia.
Qed.

Lemma for_range_ind (P : Z -> S -> Prop) (body : Z -> S -> S) lo hi s :
  lo <= hi ->
  P lo s ->
  (forall j t, lo <= j < hi -> P j t -> P (j + 1) (body j t)) ->
  P hi (for_range lo hi body s).
Proof.
  intros Hle H0 Hstep. unfold for_range.
  replace hi with (lo + Z.of_nat (Z.to_nat (hi - lo))) at 1 by lia.
  apply for_loop_ind; [exact H0|].
  intros j t Hj. apply Hstep. lia.
Qed.

Lemma for_range_empty (body : Z -> S -> S) lo hi s :
  hi <= lo -> for_range lo hi body s = s.
Proof.
  intros H. unfold for_range.
  replace (Z.to_nat (hi - lo)) with O by lia. reflexivity.
Qed.

Lemma for_loop_ext (f g : Z -> S -> S) :
  forall count i s,
    (forall j t, i <= j < i + Z.of_nat count -> f j t = g j t) ->
    for_loop count i f s = for_loop count i g s.
Proof.
  induction count as [|c IH]; intros i s H; [reflexivity|].
  cbn [for_loop]. rewrite (H i s) by lia.
  apply IH. intros j t Hj. apply H. lia.
Qed.

Lemma for_range_ext (f g : Z -> S -> S) lo hi s :
  (forall j t, lo <= j < hi -> f j t = g j t) ->
  for_range lo hi f s = for_range lo hi g s.
Proof.
  intros H. unfold for_range. apply for_loop_ext.
  intros j t Hj. apply H. lia.
Qed.

(** A [for] loop is a left fold over its index values. *)
Lemma for_loop_fold (body : Z -> S -> S) :
  forall count i s,
    for_loop count i body s =
    fold_left (fun t j => body (i + Z.of_nat j) t) (seq 0 count) s.
Proof.
  induction count as [|c IH]; intros i s; [reflexivity|].
  cbn [for_loop seq fold_left]. rewrite IH, <- seq_shift, Z.add_0_r.
  generalize (body i s). generalize (seq 0 c).
  induction l as [|a l IHl]; intros t; [reflexivity|].
  cbn [map fold_left]. rewrite IHl. do 2 f_equal. lia.
Qed.

End LoopFacts.

Section ArrayFacts.

Context {A : Type}.

Lemma length_upd (i : nat) (v : A) (a : list A) : List.length (upd i v a) = List.length a.
Proof.
  revert i. induction a as [|h t IH]; intros [|i]; simpl; auto.
Qed.

Lemma nth_upd_same (d : A) (i : nat) (v : A) (a : list A) :
  (i < List.length a)%nat -> nth i (upd i v a) d = v.
Proof.
  revert i. induction a as [|h t IH]; intros [|i] H; simpl in *; try lia; auto.
  apply IH. lia.
Qed.

Lemma nth_upd_other (d : A) (i j : nat) (v : A) (a : list A) :
  i <> j -> nth j (upd i v a) d = nth j a d.
Proof.
  revert i j. induction a as [|h t IH]; intros [|i] [|j] H; simpl; auto; try lia.
Qed.

Lemma upd_nth_id (d : A) (i : nat) (a : list A) : upd i (nth i a d) a = a.
Proof.
  revert i. induction a as [|h t IH]; intros [|i]; simpl; auto.
  now rewrite IH.
Qed.

Lemma length_set (a : list A) i v : List.length (set a i v) = List.length a.
Proof. unfold set. destruct (i <? 0); [reflexivity | apply length_upd]. Qed.

Lemma get_set_same (d : A) (a : list A) i v :
  0 <= i < Z.of_nat (List.length a) -> get d (set a i v) i = v.
Proof.
  intros H. unfold get, set.
  destruct (Z.ltb_spec i 0); [lia|]. apply nth_upd_same. lia.
Qed.

Lemma get_set_other (d : A) (a : list A) i j v :
  0 <= j -> i <> j -> get d (set a i v) j = get d a j.
Proof.
  intros Hj H. unfold get, set.
  destruct (Z.ltb_spec i 0); [reflexivity|]. apply nth_upd_other. lia.
Qed.

Lemma set_get_id (d : A) (a : list A) i : set a i (get d a i) = a.
Proof.
  unfold get, set. destruct (i <? 0); [reflexivity | apply upd_nth_id].
Qed.

(** Two arrays of one length with the same elements are equal. *)
Lemma get_ext (d : A) (a b : list A) :
  List.length a = List.length b ->
  (forall i, 0 <= i < Z.of_nat (List.length a) -> get d a i = get d b i) ->
  a = b.
Proof.
  intros Hlen H. apply (nth_ext a b d d Hlen).
  intros n Hn. specialize (H (Z.of_nat n)). unfold get in H.
  rewrite Nat2Z.id in H. apply H. lia.
Qed.

Lemma memcpy_spec (d : A) (dst src : list A) doff soff cnt :
  0 <= doff -> 0 <= cnt -> doff + cnt <= Z.of_nat (List.length dst) ->
  List.length (memcpy d dst doff src soff cnt) = List.length dst
  /\ forall j, 0 <= j ->
       get d (memcpy d dst doff src soff cnt) j =
       if (doff <=? j) && (j <? doff + cnt)
       then get d src (soff + (j - doff)) else get d dst j.
Proof.
  intros Hd Hc Hlen. unfold memcpy.
  apply (for_range_ind
    (fun i acc => List.length acc = List.length dst
       /\ forall j, 0 <= j ->
            get d acc j = if (doff <=? j) && (j <? doff + i)
                          then get d src (soff + (j - doff)) else get d dst j)).
  - lia.
  - split; [reflexivity|]. intros j Hj.
    destruct (Z.leb_spec doff j), (Z.ltb_spec j (doff + 0)); simpl; auto; lia.
  - intros i acc Hi [Hl Hacc]. split; [now rewrite length_set|].
    intros j Hj. destruct (Z.eq_dec j (doff + i)) as [->|Hne].
    + rewrite get_set_same by lia.
      destruct (Z.leb_spec doff (doff + i)), (Z.ltb_spec (doff + i) (doff + (i + 1)));
        simpl; try lia.
      f_equal. lia.
    + rewrite get_set_other by lia. rewrite Hacc by lia.
      destruct (Z.leb_spec doff j), (Z.ltb_spec j (doff + i)),
        (Z.ltb_spec j (doff + (i + 1))); simpl; auto; lia.
Qed.

End ArrayFacts.

Lemma flat_index_inj nb a b x y :
  0 <= x < nb -> 0 <= y < nb -> a * nb + x = b * nb + y -> a = b /\ x = y.
Proof.
  intros Hx Hy H.
  assert (Ha : (a * nb + x) / nb = a) by (rewrite Z.div_add_l, Z.div_small; lia).
  assert (Hb : (b * nb + y) / nb = b) by (rewrite Z.div_add_l, Z.div_small; lia).
  assert (a = b) by congruence. subst b. split; lia.
Qed.

Lemma wrap_small w x : 0 <= x < 2 ^ w -> wrap w x = x.
Proof. intros H. unfold wrap. now apply Z.mod_small. Qed.

Lemma u32_small x : 0 <= x < 2 ^ 32 -> u32 x = x.
Proof. apply wrap_small. Qed.

(* ====================================================================== *)
(** * The reliability matrix: layout *)

Section Layout.

Import F32 RelMat.

Lemma wf_unpack r :
  wf r ->
  0 <= _nb_symbols_log2 r < 32
  /\ _nb_symbols r = 2 ^ _nb_symbols_log2 r
  /\ 0 < _nb_symbols r
  /\ 0 <= _message_length r
  /\ _nb_symbols r * _message_length r < 2 ^ 32
  /\ 0 <= _message_symbol_count r <= _message_length r
  /\ Z.of_nat (List.length (_matrix r)) = _nb_symbols r * _message_length r.
Proof.
  unfold wf, wfb. rewrite !andb_true_iff.
  intros [[[[[[[H1 H2] H3] H4] H5] H6] H7] H8].
  apply Z.leb_le in H1, H4, H6, H7. apply Z.ltb_lt in H2, H5.
  apply Z.eqb_eq in H3, H8.
  assert (0 < 2 ^ _nb_symbols_log2 r) by (apply Z.pow_pos_nonneg; lia).
  repeat split; lia.
Qed.

Lemma index_eq r ir ic :
  wf r -> in_range r ir ic ->
  index r ic ir = ic * _nb_symbols r + ir
  /\ 0 <= ic * _nb_symbols r + ir < _nb_symbols r * _message_length r.
Proof.
  intros Hwf [Hr Hc]. destruct (wf_unpack r Hwf) as (_ & _ & Hnb & Hml & Hsz & _).
  assert (Hb : 0 <= ic * _nb_symbols r + ir < _nb_symbols r * _message_length r) by nia.
  split; [|exact Hb].
  unfold index. rewrite (u32_small (ic * _nb_symbols r)) by nia.
  apply u32_small. lia.
Qed.

Lemma column_base r ic :
  wf r -> 0 <= ic < _message_length r ->
  u32 (ic * _nb_symbols r) = ic * _nb_symbols r.
Proof.
  intros Hwf Hc. destruct (wf_unpack r Hwf) as (_ & _ & Hnb & Hml & Hsz & _).
  apply u32_small. nia.
Qed.

Lemma index_with_matrix r mat ic ir : index (with_matrix r mat) ic ir = index r ic ir.
Proof. reflexivity. Qed.

(** Copying [_nb_symbols] floats to the start of column [c]. *)
Lemma memcpy_column r (src : list float) soff c :
  wf r -> 0 <= c < _message_length r ->
  let mat := memcpy zero (_matrix r) (u32 (c * _nb_symbols r)) src soff (_nb_symbols r) in
  List.length mat = List.length (_matrix r)
  /\ forall ir jc, in_range r ir jc ->
       get zero mat (index r jc ir) =
       if jc =? c then get zero src (soff + ir) else get zero (_matrix r) (index r jc ir).
Proof.
  intros Hwf Hc mat.
  destruct (wf_unpack r Hwf) as (_ & _ & Hnb & Hml & Hsz & _ & Hlen).
  assert (Hbase := column_base r c Hwf Hc).
  destruct (memcpy_spec zero (_matrix r) src (u32 (c * _nb_symbols r)) soff (_nb_symbols r))
    as [Hl Hg]; try nia.
  split; [exact Hl|].
  intros ir jc Hin. destruct (index_eq r ir jc Hwf Hin) as [Hi Hb].
  subst mat. rewrite Hg by lia. rewrite Hi, Hbase.
  destruct Hin as [Hr Hj].
  destruct (Z.eqb_spec jc c) as [->|Hne].
  - destruct (Z.leb_spec (c * _nb_symbols r) (c * _nb_symbols r + ir)),
      (Z.ltb_spec (c * _nb_symbols r + ir) (c * _nb_symbols r + _nb_symbols r));
      simpl; try lia.
    f_equal. lia.
  - destruct (Z.leb_spec (c * _nb_symbols r) (jc * _nb_symbols r + ir)),
      (Z.ltb_spec (jc * _nb_symbols r + ir) (c * _nb_symbols r + _nb_symbols r));
      simpl; try reflexivity.
    exfalso. apply Hne. nia.
Qed.

(** Zeroing the cells of column [c], row by row. *)
Lemma erase_column r c :
  wf r -> 0 <= c < _message_length r ->
  let mat := for_range 0 (_nb_symbols r) (fun i mat => set mat (index r c i) zero)
               (_matrix r) in
  List.length mat = List.length (_matrix r)
  /\ forall ir jc, in_range r ir jc ->
       get zero mat (index r jc ir) =
       if jc =? c then zero else get zero (_matrix r) (index r jc ir).
Proof.
  intros Hwf Hc mat.
  destruct (wf_unpack r Hwf) as (_ & _ & Hnb & Hml & Hsz & _ & Hlen).
  subst mat.
  enough (Hinv :
    (fun i mat => List.length mat = List.length (_matrix r)
       /\ forall ir jc, in_range r ir jc ->
            get zero mat (index r jc ir) =
            if (jc =? c) && (ir <? i) then zero else get zero (_matrix r) (index r jc ir))
    (_nb_symbols r)
    (for_range 0 (_nb_symbols r) (fun i mat => set mat (index r c i) zero) (_matrix r))).
  { destruct Hinv as [Hl Hm]. split; [exact Hl|]. intros ir jc Hin.
    rewrite (Hm ir jc Hin). destruct Hin as [Hr Hj].
    destruct (jc =? c), (Z.ltb_spec ir (_nb_symbols r)); simpl; auto; lia. }
  apply for_range_ind.
  - lia.
  - split; [reflexivity|]. intros ir jc [Hr Hj].
    destruct (jc =? c), (Z.ltb_spec ir 0); simpl; auto; lia.
  - intros i mat Hi [Hl Hm]. split; [now rewrite length_set|].
    intros ir jc Hin.
    assert (Hic : in_range r i c) by (split; lia).
    destruct (index_eq r ir jc Hwf Hin) as [E1 B1].
    destruct (index_eq r i c Hwf Hic) as [E2 B2].
    destruct Hin as [Hr Hj].
    destruct (Z.eq_dec (index r c i) (index r jc ir)) as [Heq|Hne].
    + assert (jc = c /\ ir = i) as [-> ->]
        by (rewrite E1, E2 in Heq; symmetry in Heq;
            apply flat_index_inj in Heq; lia).
      rewrite get_set_same by (rewrite Hl, E2; lia).
      rewrite Z.eqb_refl. destruct (Z.ltb_spec i (i + 1)); simpl; auto; lia.
    + rewrite get_set_other by (rewrite ?E1; lia). rewrite Hm by (split; lia).
      destruct (Z.eqb_spec jc c) as [->|]; simpl; auto.
      destruct (Z.ltb_spec ir i), (Z.ltb_spec ir (i + 1)); auto; lia.
Qed.

End Layout.

(* ====================================================================== *)
(** * The reliability matrix: ingestion and copy *)

Section Ingestion.

Import F32 RelMat.

Lemma column_written_intro r cnt mat c vals :
  0 <= c < _message_length r ->
  List.length mat = List.length (_matrix r) ->
  (forall ir jc, in_range r ir jc ->
     get zero mat (index r jc ir) =
     if jc =? c then vals ir else get zero (_matrix r) (index r jc ir)) ->
  column_written r
    (mk (_nb_symbols_log2 r) (_nb_symbols r) (_message_length r) cnt mat) c vals.
Proof.
  intros Hc Hl Hg. unfold column_written, cell, index; cbn [_nb_symbols_log2
    _nb_symbols _message_length _matrix].
  repeat split; try assumption.
  - intros ir Hr. fold (index r c ir). rewrite Hg by (split; lia).
    now rewrite Z.eqb_refl.
  - intros ir jc Hin Hne. fold (index r jc ir). rewrite (Hg ir jc Hin).
    destruct (Z.eqb_spec jc c); [contradiction | reflexivity].
Qed.

Lemma enter_symbol_data_at_written r idx data :
  wf r -> 0 <= idx < _message_length r ->
  column_written r (enter_symbol_data_at r idx data) idx (get zero data)
  /\ _message_symbol_count (enter_symbol_data_at r idx data) = _message_symbol_count r.
Proof.
  intros Hwf Hi. unfold enter_symbol_data_at.
  destruct (Z.ltb_spec idx (_message_length r)); [|lia].
  destruct (memcpy_column r data 0 idx Hwf Hi) as [Hl Hg].
  split; [|reflexivity]. unfold with_matrix.
  apply column_written_intro; auto.
Qed.

Lemma enter_erasure_at_written r idx :
  wf r -> 0 <= idx < _message_length r ->
  column_written r (enter_erasure_at r idx) idx (fun _ => zero)
  /\ _message_symbol_count (enter_erasure_at r idx) = _message_symbol_count r.
Proof.
  intros Hwf Hi. unfold enter_erasure_at.
  destruct (Z.ltb_spec idx (_message_length r)); [|lia].
  destruct (erase_column r idx Hwf Hi) as [Hl Hg].
  split; [|reflexivity]. unfold with_matrix.
  apply column_written_intro; auto.
Qed.

Lemma cursor_step r :
  wf r -> _message_symbol_count r < _message_length r ->
  u32 (_message_symbol_count r + 1) = _message_symbol_count r + 1.
Proof.
  intros Hwf Hlt. destruct (wf_unpack r Hwf) as (_ & _ & Hnb & Hml & Hsz & Hcnt & _).
  apply u32_small. nia.
Qed.

Lemma enter_symbol_data_written r data :
  wf r -> _message_symbol_count r < _message_length r ->
  column_written r (enter_symbol_data r data) (_message_symbol_count r) (get zero data)
  /\ _message_symbol_count (enter_symbol_data r data) = _message_symbol_count r + 1.
Proof.
  intros Hwf Hlt. unfold enter_symbol_data.
  destruct (wf_unpack r Hwf) as (_ & _ & _ & _ & _ & Hcnt & _).
  destruct (Z.ltb_spec (_message_symbol_count r) (_message_length r)); [|lia].
  destruct (memcpy_column r data 0 (_message_symbol_count r) Hwf ltac:(lia)) as [Hl Hg].
  split; [|now apply cursor_step].
  apply column_written_intro; auto; lia.
Qed.

Lemma enter_erasure_written r :
  wf r -> _message_symbol_count r < _message_length r ->
  column_written r (enter_erasure r) (_message_symbol_count r) (fun _ => zero)
  /\ _message_symbol_count (enter_erasure r) = _message_symbol_count r + 1.
Proof.
  intros Hwf Hlt. unfold enter_erasure.
  destruct (wf_unpack r Hwf) as (_ & _ & _ & _ & _ & Hcnt & _).
  destruct (Z.ltb_spec (_message_symbol_count r) (_message_length r)); [|lia].
  destruct (erase_column r (_message_symbol_count r) Hwf ltac:(lia)) as [Hl Hg].
  split; [|now apply cursor_step].
  apply column_written_intro; auto; lia.
Qed.

(** The copy constructor reproduces the buffer. *)
Lemma copy_matrix r : wf r -> _matrix (copy r) = _matrix r.
Proof.
  intros Hwf. destruct (wf_unpack r Hwf) as (_ & _ & Hnb & Hml & Hsz & _ & Hlen).
  unfold copy; cbn [_matrix].
  rewrite (u32_small (_nb_symbols r * _message_length r)) by nia.
  set (sz := _nb_symbols r * _message_length r) in *.
  destruct (memcpy_spec zero (repeat zero (Z.to_nat sz)) (_matrix r) 0 0 sz) as [Hl Hg];
    try lia.
  { rewrite repeat_length. lia. }
  rewrite repeat_length in Hl.
  apply (get_ext zero).
  - rewrite Hl. lia.
  - intros i Hi. rewrite Hl in Hi. rewrite Hg by lia.
    destruct (Z.leb_spec 0 i), (Z.ltb_spec i (0 + sz)); simpl; try lia.
    f_equal. lia.
Qed.

Lemma copy_wf r : wf r -> wf (copy r).
Proof.
  intros Hwf. pose proof (copy_matrix r Hwf) as Hm.
  destruct (wf_unpack r Hwf) as (Hlg & Hnb & _ & Hml & Hsz & _ & Hlen).
  unfold wf, wfb. rewrite Hm.
  cbn [copy _nb_symbols_log2 _nb_symbols _message_length _message_symbol_count].
  rewrite !andb_true_iff. repeat split;
    first [apply Z.leb_le | apply Z.ltb_lt | apply Z.eqb_eq]; lia.
Qed.

End Ingestion.

Section IngestionClaims.

Import F32 RelMat.

(** Claim C9.  The ingestion cursor of a freshly constructed matrix is 0.
    On a well-formed matrix, an unindexed [enter_symbol_data] or
    [enter_erasure] issued while the cursor is below [_message_length]
    overwrites exactly the cursor's column (with the supplied values, resp.
    with zeros) and moves the cursor one column further; issued when the
    cursor equals [_message_length] it returns the object unchanged.  The
    indexed forms overwrite exactly the given column when it is in range,
    return the object unchanged when it is not, and keep the cursor. *)
Theorem ingestion_cursor :
  (forall nb_symbols_log2 message_length,
     _message_symbol_count (create nb_symbols_log2 message_length) = 0)
  /\ forall r, wf r ->
     (_message_symbol_count r < _message_length r ->
        (forall data, _nb_symbols r <= Z.of_nat (List.length data) ->
           column_written r (enter_symbol_data r data)
             (_message_symbol_count r) (get zero data)
           /\ _message_symbol_count (enter_symbol_data r data)
              = _message_symbol_count r + 1)
        /\ column_written r (enter_erasure r) (_message_symbol_count r) (fun _ => zero)
        /\ _message_symbol_count (enter_erasure r) = _message_symbol_count r + 1)
     /\ (_message_symbol_count r = _message_length r ->
          (forall data, enter_symbol_data r data = r) /\ enter_erasure r = r)
     /\ (forall idx, 0 <= idx < _message_length r ->
          (forall data, _nb_symbols r <= Z.of_nat (List.length data) ->
             column_written r (enter_symbol_data_at r idx data) idx (get zero data)
             /\ _message_symbol_count (enter_symbol_data_at r idx data)
                = _message_symbol_count r)
          /\ column_written r (enter_erasure_at r idx) idx (fun _ => zero)
          /\ _message_symbol_count (enter_erasure_at r idx) = _message_symbol_count r)
     /\ (forall idx, _message_length r <= idx ->
          (forall data, enter_symbol_data_at r idx data = r)
          /\ enter_erasure_at r idx = r).
Proof.
  split; [reflexivity|].
  intros r Hwf. repeat apply conj.
  - intros Hlt. split.
    + intros data _. now apply enter_symbol_data_written.
    + now apply enter_erasure_written.
  - intros Heq. unfold enter_symbol_data, enter_erasure.
    destruct (Z.ltb_spec (_message_symbol_count r) (_message_length r)); [lia|].
    split; reflexivity.
  - intros idx Hi. split.
    + intros data _. now apply enter_symbol_data_at_written.
    + now apply enter_erasure_at_written.
  - intros idx Hi. unfold enter_symbol_data_at, enter_erasure_at.
    destruct (Z.ltb_spec idx (_message_length r)); [lia|].
    split; reflexivity.
Qed.

Lemma ingestion_cursor_witness :
  let r := mk 1 2 3 1 (repeat zero 6) in
  let full := mk 1 2 3 3 (repeat zero 6) in
  let data := [of_Z 1; of_Z 2] in
  wf r /\ wf full
  /\ column_written r (enter_symbol_data r data) 1 (get zero data)
  /\ _message_symbol_count (enter_symbol_data r data) = 2
  /\ _matrix (enter_symbol_data r data) = [zero; zero; of_Z 1; of_Z 2; zero; zero]
  /\ enter_erasure full = full
  /\ enter_erasure_at full 3 = full.
Proof.
  intros r full data.
  assert (Hwf : wf r) by reflexivity.
  assert (Hfull : wf full) by reflexivity.
  destruct (proj2 ingestion_cursor r Hwf) as (Hstep & _ & _ & _).
  destruct (proj2 ingestion_cursor full Hfull) as (_ & Hstay & _ & Hout).
  assert (Hlt : _message_symbol_count r < _message_length r) by reflexivity.
  assert (Hlen : _nb_symbols r <= Z.of_nat (List.length data)) by (cbn; discriminate).
  destruct (proj1 (Hstep Hlt) data Hlen) as [Hwritten Hcursor].
  split; [exact Hwf|]. split; [exact Hfull|]. split; [exact Hwritten|].
  split; [exact Hcursor|]. split; [reflexivity|]. split.
  - exact (proj2 (Hstay eq_refl)).
  - refine (proj2 (Hout 3 _)). cbn. discriminate.
Defined.

(** Claim C10.  Copy construction reproduces the metric buffer cell for
    cell and the dimensions, and sets the copy's cursor to 0 whatever the
    cursor of the source was; hence, on a matrix with at least one column,
    the first unindexed [enter_symbol_data] or [enter_erasure] on the copy
    overwrites column 0 and leaves the cursor at 1, also when the source
    cursor had reached [_message_length]. *)
Theorem copy_resets_cursor r :
  wf r ->
  _matrix (copy r) = _matrix r
  /\ _nb_symbols_log2 (copy r) = _nb_symbols_log2 r
  /\ _nb_symbols (copy r) = _nb_symbols r
  /\ _message_length (copy r) = _message_length r
  /\ (forall ir ic, cell (copy r) ir ic = cell r ir ic)
  /\ _message_symbol_count (copy r) = 0
  /\ (0 < _message_length r ->
      (forall data, _nb_symbols r <= Z.of_nat (List.length data) ->
         column_written (copy r) (enter_symbol_data (copy r) data) 0 (get zero data)
         /\ _message_symbol_count (enter_symbol_data (copy r) data) = 1)
      /\ column_written (copy r) (enter_erasure (copy r)) 0 (fun _ => zero)
      /\ _message_symbol_count (enter_erasure (copy r)) = 1).
Proof.
  intros Hwf. pose proof (copy_matrix r Hwf) as Hm. pose proof (copy_wf r Hwf) as Hwf'.
  repeat apply conj; try reflexivity; try assumption.
  - intros ir ic. unfold cell. now rewrite Hm.
  - intros Hml.
    assert (Hlt : _message_symbol_count (copy r) < _message_length (copy r))
      by (cbn; exact Hml).
    split.
    + intros data _. exact (enter_symbol_data_written (copy r) data Hwf' Hlt).
    + exact (enter_erasure_written (copy r) Hwf' Hlt).
Qed.

Lemma copy_resets_cursor_witness :
  let r := mk 1 2 2 2 [of_Z 1; of_Z 2; of_Z 3; of_Z 4] in
  wf r
  /\ _message_symbol_count r = _message_length r
  /\ _matrix (copy r) = _matrix r
  /\ _message_symbol_count (enter_erasure (copy r)) = 1.
Proof.
  intros r.
  assert (Hwf : wf r) by reflexivity.
  destruct (copy_resets_cursor r Hwf) as (Hm & _ & _ & _ & _ & _ & Hfirst).
  split; [exact Hwf|]. split; [reflexivity|]. split; [exact Hm|].
  refine (proj2 (proj2 (Hfirst _))). reflexivity.
Defined.

End IngestionClaims.

(* ====================================================================== *)
(** * The order of binary32 values *)

Section FloatOrder.

Import F32.

Ltac order_cases :=
  repeat match goal with
  | |- context [Z.compare ?a ?b] => destruct (Z.compare_spec a b)
  | |- context [Pos.compare_cont Eq ?a ?b] =>
      change (Pos.compare_cont Eq a b) with (Pos.compare a b);
      destruct (Pos.compare_spec a b)
  end;
  cbn; try reflexivity; try discriminate; try lia.

Lemma leb_trans x y z : leb x y = true -> leb y z = true -> leb x z = true.
Proof.
  unfold leb, SFleb.
  destruct x as [sx|sx| |sx mx ex], y as [sy|sy| |sy my ey], z as [sz|sz| |sz mz ez];
    try destruct sx; try destruct sy; try destruct sz; cbn;
    try reflexivity; try discriminate; order_cases.
Qed.

Lemma ltb_leb x y : ltb x y = true -> leb x y = true.
Proof.
  unfold ltb, leb, SFltb, SFleb. destruct (SFcompare x y) as [[]|]; auto.
Qed.

Lemma leb_not_nan x y : leb x y = true -> is_nan x = false /\ is_nan y = false.
Proof.
  unfold leb, SFleb. destruct x, y; cbn; try discriminate; auto.
Qed.

(** Among values that are not NaN the order is total. *)
Lemma not_leb_ltb x y :
  is_nan x = false -> is_nan y = false -> leb x y = false -> ltb y x = true.
Proof.
  unfold leb, ltb, SFleb, SFltb.
  destruct x as [sx|sx| |sx mx ex], y as [sy|sy| |sy my ey];
    try destruct sx; try destruct sy; cbn;
    try reflexivity; try discriminate; intros _ _; order_cases.
Qed.

Lemma ltb_irrefl_eq x y : ltb x y = true -> eqb x y = false.
Proof.
  unfold ltb, eqb, SFltb, SFeqb. destruct (SFcompare x y) as [[]|]; auto; discriminate.
Qed.

Lemma leb_not_ltb x y : leb x y = true -> ltb y x = false.
Proof.
  unfold leb, ltb, SFleb, SFltb.
  destruct x as [sx|sx| |sx mx ex], y as [sy|sy| |sy my ey];
    try destruct sx; try destruct sy; cbn;
    try reflexivity; try discriminate; order_cases.
Qed.

Lemma leb_zero_zero : leb zero zero = true.
Proof. reflexivity. Qed.

(** A value that compares equal to zero on both sides of a comparison. *)
Lemma eqb_zero_leb x y : eqb x zero = true -> eqb y zero = true -> leb x y = true.
Proof.
  destruct x as [sx|sx| |sx mx ex], y as [sy|sy| |sy my ey];
    try destruct sx; try destruct sy; cbn; try reflexivity; try discriminate.
Qed.

Lemma eqb_zero_not_ltb x y : eqb x zero = true -> eqb y zero = true -> ltb x y = false.
Proof.
  destruct x as [sx|sx| |sx mx ex], y as [sy|sy| |sy my ey];
    try destruct sx; try destruct sy; cbn; try reflexivity; try discriminate.
Qed.

End FloatOrder.

(* ====================================================================== *)
(** * The reliability matrix: maximum search *)

Section MaxSearch.

Import F32 RelMat.

Lemma leb_refl x : is_nan x = false -> leb x x = true.
Proof.
  intros Hx. destruct (leb x x) eqn:E; [reflexivity|].
  pose proof (not_leb_ltb x x Hx Hx E) as Hlt.
  apply ltb_leb in Hlt. congruence.
Qed.

Lemma nonneg_cell r ir ic :
  wf r -> nonneg r -> in_range r ir ic -> leb zero (cell r ir ic) = true.
Proof.
  intros Hwf Hnn Hin. destruct (index_eq r ir ic Hwf Hin) as [E B].
  destruct (wf_unpack r Hwf) as (_ & _ & _ & _ & _ & _ & Hlen).
  unfold nonneg in Hnn. rewrite forallb_forall in Hnn.
  apply Hnn. unfold cell, get. apply nth_In. rewrite E. lia.
Qed.

Lemma find_max_cell_inv r ic ir st :
  wf r -> nonneg r -> in_range r ir ic ->
  find_max_inv r ic ir st -> find_max_inv r ic (ir + 1) (find_max_cell r ic ir st).
Proof.
  intros Hwf Hnn Hin Hinv. destruct st as [[v row] col].
  pose proof (nonneg_cell r ir ic Hwf Hnn Hin) as Hx.
  destruct (leb_not_nan _ _ Hx) as [_ Hxn].
  destruct Hinv as (Hv & Hle & Hpos).
  destruct (leb_not_nan _ _ Hv) as [_ Hvn].
  unfold find_max_cell. fold (cell r ir ic). unfold geb.
  destruct (leb v (cell r ir ic)) eqn:E.
  - (* the running maximum moves to this cell *)
    split; [exact Hx|]. split.
    + intros jr jc Hj Hs.
      destruct (Z.eq_dec jc ic) as [->|Hc]; [destruct (Z.eq_dec jr ir) as [->|Hr]|].
      * now apply leb_refl.
      * apply leb_trans with v; [|exact E]. apply Hle; [exact Hj|].
        unfold scanned_after in *. lia.
      * apply leb_trans with v; [|exact E]. apply Hle; [exact Hj|].
        unfold scanned_after in *. lia.
    + right. split; [exact Hin|]. split; [unfold scanned_after; lia|].
      split; [reflexivity|].
      intros jr jc _ H1 H2. unfold scanned_after in *. lia.
  - (* the cell is strictly below the running maximum *)
    pose proof (not_leb_ltb _ _ Hvn Hxn E) as Hlt.
    split; [exact Hv|]. split.
    + intros jr jc Hj Hs.
      destruct (Z.eq_dec jc ic) as [->|Hc]; [destruct (Z.eq_dec jr ir) as [->|Hr]|].
      * now apply ltb_leb.
      * apply Hle; [exact Hj|]. unfold scanned_after in *. lia.
      * apply Hle; [exact Hj|]. unfold scanned_after in *. lia.
    + right. destruct Hpos as [(_ & _ & Hst)|(Hrc & Hbefore & Hval & Hlater)].
      * injection Hst as -> _ _. congruence.
      * split; [exact Hrc|]. split; [unfold scanned_after in *; lia|].
        split; [exact Hval|].
        intros jr jc Hj H1 H2.
        destruct (Z.eq_dec jc ic) as [->|Hc]; [destruct (Z.eq_dec jr ir) as [->|Hr]|].
        -- exact Hlt.
        -- apply Hlater; auto. unfold scanned_after in *. lia.
        -- apply Hlater; auto. unfold scanned_after in *. lia.
Qed.

Lemma find_max_col_inv r ic st :
  wf r -> nonneg r -> 0 <= ic < _message_length r ->
  find_max_inv r ic 0 st ->
  find_max_inv r (ic + 1) 0 (for_range 0 (_nb_symbols r) (find_max_cell r ic) st).
Proof.
  intros Hwf Hnn Hic Hinv.
  destruct (wf_unpack r Hwf) as (_ & _ & Hnb & _).
  assert (H : find_max_inv r ic (_nb_symbols r)
                (for_range 0 (_nb_symbols r) (find_max_cell r ic) st)).
  { apply for_range_ind; [lia | exact Hinv |].
    intros j t Hj Ht. apply find_max_cell_inv; auto. split; lia. }
  destruct (for_range 0 (_nb_symbols r) (find_max_cell r ic) st) as [[v row] col].
  destruct H as (Hv & Hle & Hpos).
  split; [exact Hv|]. split.
  - intros jr jc Hj Hs. apply Hle; [exact Hj|].
    destruct Hj as [Hjr Hjc]. unfold scanned_after in *. lia.
  - right. destruct Hpos as [(_ & Hz & _)|(Hrc & Hbefore & Hval & Hlater)]; [lia|].
    split; [exact Hrc|]. destruct Hrc as [Hr Hc].
    split; [unfold scanned_after in *; lia|]. split; [exact Hval|].
    intros jr jc Hj H1 H2. apply Hlater; auto.
    destruct Hj as [Hjr Hjc]. unfold scanned_after in *. lia.
Qed.

Lemma find_max_final_inv r :
  wf r -> nonneg r -> find_max_inv r (_message_length r) 0 (find_max r).
Proof.
  intros Hwf Hnn. destruct (wf_unpack r Hwf) as (_ & _ & _ & Hml & _).
  unfold find_max. apply for_range_ind; [exact Hml | |].
  - split; [reflexivity|]. split.
    + intros jr jc [Hjr Hjc] Hs. unfold scanned_after in Hs. lia.
    + left. auto.
  - intros ic st Hic Hst. now apply find_max_col_inv.
Qed.

End MaxSearch.

Section MaxSearchClaims.

Import F32 RelMat.

(** Claim C4, as the code has it.  On a well-formed matrix whose entries
    all compare [>= 0.0]: when there is at least one column, [find_max]
    returns a cell of the matrix that no cell exceeds, and every cell
    scanned after the reported (row, col) -- columns in increasing order,
    rows in increasing order within a column -- is strictly smaller, so
    the reported position is the last one attaining the maximum; when the
    matrix has no column the result is value 0.0, row 0, col 0; and when
    every cell is zero and there is a column, the reported position is the
    last cell scanned, row [_nb_symbols - 1] of column
    [_message_length - 1], with a zero value. *)
Theorem find_max_last_maximum r :
  wf r -> nonneg r ->
  (0 < _message_length r -> is_last_max r (find_max r))
  /\ (_message_length r = 0 -> find_max r = (zero, 0, 0))
  /\ (0 < _message_length r ->
      (forall ir ic, in_range r ir ic -> eqb (cell r ir ic) zero = true) ->
      let '(v, row, col) := find_max r in
      eqb v zero = true /\ row = _nb_symbols r - 1 /\ col = _message_length r - 1).
Proof.
  intros Hwf Hnn. pose proof (find_max_final_inv r Hwf Hnn) as Hinv.
  destruct (wf_unpack r Hwf) as (_ & _ & Hnb & Hml & _).
  assert (Hlast : 0 < _message_length r -> is_last_max r (find_max r)).
  { intros Hpos. destruct (find_max r) as [[v row] col].
    destruct Hinv as (Hv & Hle & [(H0 & _)|(Hrc & Hbefore & Hval & Hlater)]); [lia|].
    split; [exact Hrc|]. split; [exact Hval|]. split.
    - intros ir ic Hin. apply Hle; [exact Hin|].
      destruct Hin as [Hr Hc]. unfold scanned_after. lia.
    - intros ir ic Hin Hafter. apply Hlater; auto.
      destruct Hin as [Hr Hc]. unfold scanned_after. lia. }
  split; [exact Hlast|]. split.
  - intros H0. destruct (find_max r) as [[v row] col].
    destruct Hinv as (_ & _ & [(_ & _ & Hst)|(Hrc & _)]); [exact Hst|].
    destruct Hrc as [_ Hc]. lia.
  - intros Hpos Hzero. specialize (Hlast Hpos).
    destruct (find_max r) as [[v row] col].
    destruct Hlast as (Hrc & Hval & _ & Hlater).
    assert (Hvz : eqb v zero = true) by (rewrite Hval; now apply Hzero).
    split; [exact Hvz|].
    assert (Hin : in_range r (_nb_symbols r - 1) (_message_length r - 1))
      by (split; lia).
    destruct Hrc as [Hr Hc].
    destruct (Z.eq_dec col (_message_length r - 1)) as [Ec|Nc];
      [destruct (Z.eq_dec row (_nb_symbols r - 1)) as [Er|Nr]|]; [auto | |].
    + assert (Hs : scanned_after (_message_length r - 1) (_nb_symbols r - 1) col row)
        by (unfold scanned_after; lia).
      pose proof (Hlater _ _ Hin Hs) as Hlt.
      rewrite (eqb_zero_not_ltb _ _ (Hzero _ _ Hin) Hvz) in Hlt. discriminate.
    + assert (Hs : scanned_after (_message_length r - 1) (_nb_symbols r - 1) col row)
        by (unfold scanned_after; lia).
      pose proof (Hlater _ _ Hin Hs) as Hlt.
      rewrite (eqb_zero_not_ltb _ _ (Hzero _ _ Hin) Hvz) in Hlt. discriminate.
Qed.

Lemma find_max_last_maximum_witness :
  let r := mk 1 2 2 0 [of_Z 1; of_Z 3; of_Z 3; of_Z 2] in
  wf r /\ nonneg r /\ is_last_max r (find_max r) /\ find_max r = (of_Z 3, 0, 1).
Proof.
  intros r.
  assert (Hwf : wf r) by reflexivity.
  assert (Hnn : nonneg r) by reflexivity.
  split; [exact Hwf|]. split; [exact Hnn|]. split; [|reflexivity].
  apply (proj1 (find_max_last_maximum r Hwf Hnn)). reflexivity.
Defined.

(** On a 2 x 2 matrix of zeros [find_max] reports the last cell scanned,
    row 1 of column 1, not row 0 of column 0. *)
Lemma find_max_all_zero_counterexample :
  let r := mk 1 2 2 0 [zero; zero; zero; zero] in
  wf r /\ nonneg r
  /\ (forall ir ic, in_range r ir ic -> cell r ir ic = zero)
  /\ find_max r = (zero, 1, 1)
  /\ find_max r <> (zero, 0, 0).
Proof.
  intros r. split; [reflexivity|]. split; [reflexivity|]. split.
  - intros ir ic [Hr Hc]. cbn in Hr, Hc.
    assert (Hir : ir = 0 \/ ir = 1) by lia.
    assert (Hic : ic = 0 \/ ic = 1) by lia.
    destruct Hir as [-> | ->], Hic as [-> | ->]; reflexivity.
  - split; [reflexivity|]. discriminate.
Qed.

End MaxSearchClaims.

(* ====================================================================== *)
(** * The reliability matrix: maximum search in a column *)

Section ColumnSearch.

Import F32 RelMat.

Lemma find_max_in_col_cell_inv r ic bound ir st :
  wf r -> nonneg r -> in_range r ir ic ->
  find_max_in_col_inv r ic bound ir st ->
  find_max_in_col_inv r ic bound (ir + 1) (find_max_in_col_cell r ic bound ir st).
Proof.
  intros Hwf Hnn Hin Hinv. destruct st as [v row].
  pose proof (nonneg_cell r ir ic Hwf Hnn Hin) as Hx.
  destruct (leb_not_nan _ _ Hx) as [_ Hxn].
  destruct Hinv as (Hv & Hpos).
  destruct (leb_not_nan _ _ Hv) as [_ Hvn].
  destruct Hin as [Hir Hic].
  unfold find_max_in_col_cell. fold (cell r ir ic). unfold geb.
  destruct (leb v (cell r ir ic)) eqn:E; cbn [andb];
    [destruct (ltb (cell r ir ic) bound) eqn:B|].
  - (* a new largest cell below the bound *)
    split; [exact Hx|]. right.
    split; [lia|]. split; [reflexivity|]. split; [exact B|]. split.
    + intros jr Hj Hb. destruct (Z.eq_dec jr ir) as [->|Hne]; [now apply leb_refl|].
      destruct Hpos as [(Hnone & _)|(_ & _ & _ & Hle & _)].
      * rewrite Hnone in Hb by lia. discriminate.
      * apply leb_trans with v; [|exact E]. apply Hle; [lia | exact Hb].
    + intros jr Hj. lia.
  - (* not below the bound: skipped *)
    split; [exact Hv|].
    destruct Hpos as [(Hnone & Hst)|(Hrow & Hval & Hvb & Hle & Hlater)].
    + left. split; [|exact Hst]. intros jr Hj.
      destruct (Z.eq_dec jr ir) as [->|Hne]; [exact B | apply Hnone; lia].
    + right. split; [lia|]. split; [exact Hval|]. split; [exact Hvb|]. split.
      * intros jr Hj Hb. destruct (Z.eq_dec jr ir) as [->|Hne]; [congruence|].
        apply Hle; [lia | exact Hb].
      * intros jr Hj Hb. destruct (Z.eq_dec jr ir) as [->|Hne]; [congruence|].
        apply Hlater; [lia | exact Hb].
  - (* strictly below the running maximum *)
    pose proof (not_leb_ltb _ _ Hvn Hxn E) as Hlt.
    split; [exact Hv|].
    destruct Hpos as [(Hnone & Hst)|(Hrow & Hval & Hvb & Hle & Hlater)].
    + injection Hst as -> _. congruence.
    + right. split; [lia|]. split; [exact Hval|]. split; [exact Hvb|]. split.
      * intros jr Hj Hb. destruct (Z.eq_dec jr ir) as [->|Hne]; [now apply ltb_leb|].
        apply Hle; [lia | exact Hb].
      * intros jr Hj Hb. destruct (Z.eq_dec jr ir) as [->|Hne]; [exact Hlt|].
        apply Hlater; [lia | exact Hb].
Qed.

Lemma find_max_in_col_final_inv r ic bound :
  wf r -> nonneg r -> 0 <= ic < _message_length r ->
  find_max_in_col_inv r ic bound (_nb_symbols r) (find_max_in_col r ic bound).
Proof.
  intros Hwf Hnn Hic. destruct (wf_unpack r Hwf) as (_ & _ & Hnb & _).
  unfold find_max_in_col. apply for_range_ind; [lia | |].
  - split; [reflexivity|]. left. split; [|reflexivity]. intros jr Hj. lia.
  - intros ir st Hir Hst. apply find_max_in_col_cell_inv; auto. split; lia.
Qed.

Lemma find_max_in_col_found r ic bound :
  wf r -> nonneg r -> 0 <= ic < _message_length r ->
  (exists ir, 0 <= ir < _nb_symbols r /\ ltb (cell r ir ic) bound = true) ->
  is_last_max_below r ic bound (find_max_in_col r ic bound).
Proof.
  intros Hwf Hnn Hic (ir & Hir & Hb).
  pose proof (find_max_in_col_final_inv r ic bound Hwf Hnn Hic) as Hinv.
  destruct (find_max_in_col r ic bound) as [v row].
  destruct Hinv as (_ & [(Hnone & _)|(Hrow & Hval & Hvb & Hle & Hlater)]).
  - rewrite Hnone in Hb by exact Hir. discriminate.
  - repeat split; auto; lia.
Qed.

Lemma nth_descend r ic d :
  forall calls bound i,
    (S i < calls)%nat ->
    nth (S i) (descend r ic bound calls) d =
    find_max_in_col r ic (fst (nth i (descend r ic bound calls) d)).
Proof.
  induction calls as [|c IH]; intros bound i Hi; [lia|].
  destruct c as [|c]; [lia|].
  destruct i as [|i]; [reflexivity|].
  change (descend r ic bound (S (S c)))
    with (find_max_in_col r ic bound
            :: descend r ic (fst (find_max_in_col r ic bound)) (S c)).
  cbn [nth]. apply IH. lia.
Qed.

End ColumnSearch.

Section ColumnSearchClaims.

Import F32 RelMat.

(** Claim C5, as the code has it.  On a well-formed matrix whose entries
    all compare [>= 0.0], for an in-range column and any bound: if some
    cell of the column is strictly below the bound, [find_max_in_col]
    returns the largest such cell and the last row attaining it (a cell of
    the column, strictly below the bound, not exceeded by any cell below
    the bound, and strictly above every later cell below the bound); if no
    cell of the column is below the bound it returns value 0.0, row 0.
    In a chain of calls, each bounded by the value the previous call
    returned, every call made while a cell remains below its bound returns
    the next lower value of the column, strictly below the previous one;
    a call made when none remains returns value 0.0, row 0, and so does
    every call bounded by 0.0. *)
Theorem find_max_in_col_below_bound r ic bound :
  wf r -> nonneg r -> 0 <= ic < _message_length r ->
  ((exists ir, 0 <= ir < _nb_symbols r /\ ltb (cell r ir ic) bound = true) ->
     is_last_max_below r ic bound (find_max_in_col r ic bound))
  /\ ((forall ir, 0 <= ir < _nb_symbols r -> ltb (cell r ir ic) bound = false) ->
       find_max_in_col r ic bound = (zero, 0))
  /\ (forall calls i, (S i < calls)%nat ->
       let l := descend r ic bound calls in
       let prev := fst (nth i l (zero, 0)) in
       ((exists ir, 0 <= ir < _nb_symbols r /\ ltb (cell r ir ic) prev = true) ->
        is_last_max_below r ic prev (nth (S i) l (zero, 0))
        /\ ltb (fst (nth (S i) l (zero, 0))) prev = true)
       /\ ((forall ir, 0 <= ir < _nb_symbols r -> ltb (cell r ir ic) prev = false) ->
           nth (S i) l (zero, 0) = (zero, 0)))
  /\ find_max_in_col r ic zero = (zero, 0).
Proof.
  intros Hwf Hnn Hic.
  assert (Hnone : forall b,
            (forall ir, 0 <= ir < _nb_symbols r -> ltb (cell r ir ic) b = false) ->
            find_max_in_col r ic b = (zero, 0)).
  { intros b Hb.
    pose proof (find_max_in_col_final_inv r ic b Hwf Hnn Hic) as Hinv.
    destruct (find_max_in_col r ic b) as [v row].
    destruct Hinv as (_ & [(_ & Hst)|(Hrow & Hval & Hvb & _)]); [exact Hst|].
    rewrite Hval, Hb in Hvb by lia. discriminate. }
  split; [now apply find_max_in_col_found|]. split; [apply Hnone|]. split.
  - intros calls i Hi l prev. subst l prev.
    rewrite (nth_descend r ic (zero, 0) calls bound i Hi). split.
    + intros Hex.
      pose proof (find_max_in_col_found r ic _ Hwf Hnn Hic Hex) as H.
      split; [exact H|].
      destruct (find_max_in_col r ic
                  (fst (nth i (descend r ic bound calls) (zero, 0)))) as [v row].
      cbn [fst]. destruct H as (_ & _ & Hvb & _). exact Hvb.
    + apply Hnone.
  - apply Hnone. intros ir Hir. apply leb_not_ltb.
    apply nonneg_cell; auto. split; assumption.
Qed.

Lemma find_max_in_col_below_bound_witness :
  let r := mk 1 2 2 0 [of_Z 1; of_Z 3; of_Z 3; of_Z 2] in
  wf r /\ nonneg r
  /\ find_max_in_col r 1 (of_Z 3) = (of_Z 2, 1)
  /\ is_last_max_below r 1 (of_Z 3) (find_max_in_col r 1 (of_Z 3)).
Proof.
  intros r.
  assert (Hwf : wf r) by reflexivity.
  assert (Hnn : nonneg r) by reflexivity.
  split; [exact Hwf|]. split; [exact Hnn|]. split; [reflexivity|].
  refine (proj1 (find_max_in_col_below_bound r 1 (of_Z 3) Hwf Hnn _) _).
  - cbn. split; [discriminate | reflexivity].
  - exists 1. split; [cbn; split; [discriminate | reflexivity] | reflexivity].
Defined.

(** With the column (1.0, 2.0) and the bound 1.0 no cell lies below the
    bound: the call returns value 0.0 and row 0, which is neither a value of
    the column nor below-bound cell; and in the chain of calls started at
    bound 3.0 the values are 2.0, 1.0, 0.0, 0.0 -- the last two equal. *)
Lemma find_max_in_col_exhausted_counterexample :
  let r := mk 1 2 1 0 [of_Z 1; of_Z 2] in
  wf r /\ nonneg r
  /\ find_max_in_col r 0 (of_Z 1) = (zero, 0)
  /\ ~ is_last_max_below r 0 (of_Z 1) (find_max_in_col r 0 (of_Z 1))
  /\ map fst (descend r 0 (of_Z 3) 4) = [of_Z 2; of_Z 1; zero; zero]
  /\ ltb zero zero = false.
Proof.
  intros r. split; [reflexivity|]. split; [reflexivity|]. split; [reflexivity|].
  split; [|split; reflexivity].
  change (find_max_in_col r 0 (of_Z 1)) with (zero, 0).
  intros (_ & Hval & _). discriminate Hval.
Qed.

End ColumnSearchClaims.

(* ====================================================================== *)
(** * The reliability matrix: normalization *)

Section Normalization.

Import F32 RelMat.

Lemma partial_sum_succ r ic ir :
  0 <= ir ->
  partial_sum r ic (Z.to_nat (ir + 1)) = add (partial_sum r ic (Z.to_nat ir)) (cell r ir ic).
Proof.
  intros Hir. unfold partial_sum.
  replace (Z.to_nat (ir + 1)) with (Datatypes.S (Z.to_nat ir)) by lia.
  rewrite seq_S, map_app, fold_left_app. cbn [map fold_left Nat.add].
  now rewrite Z2Nat.id by lia.
Qed.

Lemma col_sum_partial r ic : col_sum r ic = partial_sum r ic (Z.to_nat (_nb_symbols r)).
Proof. reflexivity. Qed.

Lemma normalize_row_step r ic last ir st :
  wf r -> 0 <= ic <= _message_length r -> 0 <= ir < _nb_symbols r ->
  (1 <= ic -> last = col_sum r (ic - 1)) ->
  normalize_row_inv r ic ir st ->
  normalize_row_inv r ic (ir + 1) (normalize_row r ic last ir st).
Proof.
  intros Hwf Hic Hir Hlast Hinv. destruct st as [mat cs].
  destruct Hinv as (Hl & Hcs & Hm).
  destruct (wf_unpack r Hwf) as (_ & _ & Hnb & Hml & Hsz & _ & Hlen).
  unfold normalize_row.
  (* the accumulated sum *)
  assert (Hsum :
    (if ic <? _message_length r then add cs (get zero mat (index r ic ir)) else cs)
    = (if ic <? _message_length r then partial_sum r ic (Z.to_nat (ir + 1)) else zero)).
  { destruct (Z.ltb_spec ic (_message_length r)) as [Hlt|Hge]; [|exact Hcs].
    rewrite partial_sum_succ by lia. rewrite Hcs. f_equal.
    rewrite Hm by (split; lia).
    destruct (Z.ltb_spec ic (ic - 1)), (Z.eqb_spec ic (ic - 1)); cbn; auto; lia. }
  rewrite Hsum. clear Hsum.
  destruct (Z.ltb_spec 0 ic) as [Hpos|Hzero].
  - (* column ic - 1 is being divided *)
    assert (Hprev : in_range r ir (ic - 1)) by (split; lia).
    destruct (index_eq r ir (ic - 1) Hwf Hprev) as [Ep Bp].
    assert (Hold : get zero mat (index r (ic - 1) ir) = cell r ir (ic - 1)).
    { rewrite Hm by exact Hprev.
      destruct (Z.ltb_spec (ic - 1) (ic - 1)), (Z.ltb_spec ir ir); try lia.
      rewrite Z.eqb_refl. reflexivity. }
    assert (Hnorm : normalized_cell r ir (ic - 1) =
                    if neqb last zero then div (cell r ir (ic - 1)) last
                    else cell r ir (ic - 1)).
    { unfold normalized_cell. now rewrite <- Hlast by lia. }
    split; [destruct (neqb last zero); [now rewrite length_set | exact Hl]|].
    split; [reflexivity|].
    intros jr jc Hin. destruct (index_eq r jr jc Hwf Hin) as [Ej Bj].
    destruct (Z.eq_dec jc (ic - 1)) as [Ec|Nc]; [destruct (Z.eq_dec jr ir) as [Er|Nr]|].
    + subst jc jr.
      assert (Hgoal : (if (ic - 1 <? ic - 1) || ((ic - 1 =? ic - 1) && (ir <? ir + 1))
                       then normalized_cell r ir (ic - 1) else cell r ir (ic - 1))
                      = normalized_cell r ir (ic - 1)).
      { rewrite Z.eqb_refl. destruct (Z.ltb_spec ir (ir + 1)); [|lia].
        now rewrite orb_true_r. }
      rewrite Hgoal, Hnorm.
      destruct (neqb last zero).
      * rewrite get_set_same by (rewrite Hl, Ep; lia). now rewrite Hold.
      * exact Hold.
    + subst jc.
      assert (Hne : index r (ic - 1) ir <> index r (ic - 1) jr).
      { rewrite Ep, Ej. intros H. apply Nr.
        destruct Hin as [Hjr _].
        apply (flat_index_inj (_nb_symbols r) (ic - 1) (ic - 1) ir jr) in H; lia. }
      assert (Hsame : get zero
                (if neqb last zero
                 then set mat (index r (ic - 1) ir)
                        (div (get zero mat (index r (ic - 1) ir)) last)
                 else mat) (index r (ic - 1) jr)
              = get zero mat (index r (ic - 1) jr)).
      { destruct (neqb last zero); [|reflexivity].
        apply get_set_other; [rewrite Ej; lia | exact Hne]. }
      rewrite Hsame, Hm by exact Hin.
      destruct (Z.ltb_spec jr ir), (Z.ltb_spec jr (ir + 1)); try lia; reflexivity.
    + assert (Hne : index r (ic - 1) ir <> index r jc jr).
      { rewrite Ep, Ej. intros H. apply Nc.
        destruct Hin as [Hjr _].
        apply (flat_index_inj (_nb_symbols r) (ic - 1) jc ir jr) in H; lia. }
      assert (Hsame : get zero
                (if neqb last zero
                 then set mat (index r (ic - 1) ir)
                        (div (get zero mat (index r (ic - 1) ir)) last)
                 else mat) (index r jc jr)
              = get zero mat (index r jc jr)).
      { destruct (neqb last zero); [|reflexivity].
        apply get_set_other; [rewrite Ej; lia | exact Hne]. }
      rewrite Hsame, Hm by exact Hin.
      destruct (Z.eqb_spec jc (ic - 1)); [contradiction|].
      now rewrite !andb_false_l.
  - (* ic = 0: nothing is divided yet *)
    split; [exact Hl|]. split; [reflexivity|].
    intros jr jc Hin. rewrite Hm by exact Hin.
    destruct Hin as [_ Hjc].
    destruct (Z.ltb_spec jc (ic - 1)), (Z.eqb_spec jc (ic - 1)); cbn; auto; lia.
Qed.

Lemma normalize_col_step r ic st :
  wf r -> 0 <= ic <= _message_length r ->
  normalize_col_inv r ic st ->
  normalize_col_inv r (ic + 1) (normalize_col r ic st).
Proof.
  intros Hwf Hic Hinv. destruct st as [mat cs].
  destruct Hinv as (Hl & Hcs & Hm).
  destruct (wf_unpack r Hwf) as (_ & _ & Hnb & _).
  unfold normalize_col.
  assert (H : normalize_row_inv r ic (_nb_symbols r)
                (for_range 0 (_nb_symbols r) (normalize_row r ic cs) (mat, zero))).
  { apply for_range_ind; [lia | |].
    - split; [exact Hl|]. split.
      + destruct (ic <? _message_length r); reflexivity.
      + intros jr jc Hin. rewrite Hm by exact Hin.
        destruct Hin as [Hjr _].
        destruct (Z.ltb_spec jc (ic - 1)), (Z.ltb_spec jr 0); cbn; auto; try lia.
        now rewrite andb_false_r.
    - intros ir t Hir Ht. apply normalize_row_step; auto. intros; apply Hcs; lia. }
  destruct (for_range 0 (_nb_symbols r) (normalize_row r ic cs) (mat, zero)) as [mat' cs'].
  destruct H as (Hl' & Hcs' & Hm').
  split; [exact Hl'|]. split.
  - intros Hnext. replace (ic + 1 - 1) with ic by lia.
    destruct (Z.ltb_spec ic (_message_length r)) as [Hlt|Hge]; [|lia].
    rewrite Hcs'. apply col_sum_partial.
  - intros jr jc Hin. rewrite Hm' by exact Hin.
    destruct Hin as [Hjr _].
    destruct (Z.ltb_spec jc (ic - 1)), (Z.eqb_spec jc (ic - 1)),
      (Z.ltb_spec jr (_nb_symbols r)), (Z.ltb_spec jc (ic + 1 - 1)); cbn; auto; lia.
Qed.

End Normalization.

Section NormalizationClaims.

Import F32 RelMat.

Lemma normalize_final_inv r :
  wf r -> _message_length r < 2 ^ 32 - 1 ->
  normalize_col_inv r (_message_length r + 1)
    (for_range 0 (u32 (_message_length r + 1)) (normalize_col r) (_matrix r, zero)).
Proof.
  intros Hwf Hmax. destruct (wf_unpack r Hwf) as (_ & _ & _ & Hml & _).
  rewrite u32_small by lia.
  apply for_range_ind; [lia | |].
  - split; [reflexivity|]. split; [lia|].
    intros jr jc [_ Hjc]. destruct (Z.ltb_spec jc (0 - 1)); [lia | reflexivity].
  - intros ic st Hic Hst. apply normalize_col_step; auto. lia.
Qed.

Lemma normalize_cells r :
  wf r -> _message_length r < 2 ^ 32 - 1 ->
  List.length (_matrix (normalize r)) = List.length (_matrix r)
  /\ forall ir ic, in_range r ir ic ->
       cell (normalize r) ir ic = normalized_cell r ir ic.
Proof.
  intros Hwf Hmax. pose proof (normalize_final_inv r Hwf Hmax) as Hinv.
  unfold normalize, cell, with_matrix, index; cbn [_matrix _nb_symbols].
  destruct (for_range 0 (u32 (_message_length r + 1)) (normalize_col r) (_matrix r, zero))
    as [mat cs].
  destruct Hinv as (Hl & _ & Hm). cbn [fst]. split; [exact Hl|].
  intros ir ic Hin. fold (index r ic ir). rewrite Hm by exact Hin.
  destruct Hin as [_ Hic].
  destruct (Z.ltb_spec ic (_message_length r + 1 - 1)); [reflexivity | lia].
Qed.

(** The loop bound [_message_length + 1] is computed in [unsigned int]:
    at the largest representable length it is 0 and nothing is divided. *)
Lemma normalize_at_max_length r :
  _message_length r = 2 ^ 32 - 1 -> normalize r = r.
Proof.
  intros H. unfold normalize. rewrite H.
  change (u32 (2 ^ 32 - 1 + 1)) with 0.
  rewrite for_range_empty by lia. destruct r; reflexivity.
Qed.

(** Claim C1, as the code has it.  On a well-formed matrix with fewer
    than [2^32 - 1] columns, [normalize] keeps the dimensions, the cursor
    and the buffer length, and leaves in every cell the original value
    divided (in binary32) by the binary32 sum of its column accumulated
    from 0.0 in row order, provided that sum compares different from 0.0;
    the cells of a column whose sum compares equal to 0.0 are unchanged.
    Whether the divided column sums to 1 is not part of the statement. *)
Theorem normalize_divides_columns r :
  wf r -> _message_length r < 2 ^ 32 - 1 ->
  _nb_symbols_log2 (normalize r) = _nb_symbols_log2 r
  /\ _nb_symbols (normalize r) = _nb_symbols r
  /\ _message_length (normalize r) = _message_length r
  /\ _message_symbol_count (normalize r) = _message_symbol_count r
  /\ List.length (_matrix (normalize r)) = List.length (_matrix r)
  /\ (forall ir ic, in_range r ir ic ->
        neqb (col_sum r ic) zero = true ->
        cell (normalize r) ir ic = div (cell r ir ic) (col_sum r ic))
  /\ (forall ir ic, in_range r ir ic ->
        eqb (col_sum r ic) zero = true ->
        cell (normalize r) ir ic = cell r ir ic).
Proof.
  intros Hwf Hmax.
  destruct (normalize_cells r Hwf Hmax) as [Hl Hcell].
  repeat apply conj; try reflexivity.
  - exact Hl.
  - intros ir ic Hin Hnz. rewrite Hcell by exact Hin.
    unfold normalized_cell. now rewrite Hnz.
  - intros ir ic Hin Hz. rewrite Hcell by exact Hin.
    unfold normalized_cell, neqb. now rewrite Hz.
Qed.

Lemma normalize_divides_columns_witness :
  let r := mk 1 2 3 0 [of_Z 1; of_Z 3; of_Z 3; of_Z 2; zero; zero] in
  wf r
  /\ cell (normalize r) 1 0 = div (of_Z 3) (of_Z 4)
  /\ cell (normalize r) 0 2 = zero.
Proof.
  intros r.
  assert (Hwf : wf r) by reflexivity.
  assert (Hmax : _message_length r < 2 ^ 32 - 1) by reflexivity.
  destruct (normalize_divides_columns r Hwf Hmax) as (_ & _ & _ & _ & _ & Hdiv & Hkeep).
  split; [exact Hwf|]. split.
  - refine (Hdiv 1 0 _ _); [|reflexivity].
    cbn. repeat split; discriminate || reflexivity.
  - refine (Hkeep 0 2 _ _); [|reflexivity].
    cbn. repeat split; discriminate || reflexivity.
Defined.

(** Two columns with a nonzero sum that do not sum to 1 once normalized.
    The column (0, 2, 4, 1) has sum 7 and its four quotients add up, in
    binary32, to the successor of 1.  The column made of the largest
    finite binary32 value twice has sum +infinity, both quotients are 0
    and so is their sum. *)
Lemma normalize_sum_counterexample :
  let one := of_Z 1 in
  let r := mk 2 4 1 0 [zero; of_Z 2; of_Z 4; of_Z 1] in
  let flt_max := S754_finite false 16777215 104 in
  let big := mk 1 2 1 0 [flt_max; flt_max] in
  (wf r /\ nonneg r /\ neqb (col_sum r 0) zero = true
   /\ eqb (col_sum (normalize r) 0) one = false
   /\ ltb one (col_sum (normalize r) 0) = true)
  /\ (wf big /\ nonneg big /\ neqb (col_sum big 0) zero = true
      /\ col_sum (normalize big) 0 = zero
      /\ eqb (col_sum (normalize big) 0) one = false).
Proof.
  cbv zeta. repeat split; vm_compute; reflexivity.
Qed.

End NormalizationClaims.

(* ====================================================================== *)
(** * Bit reversal *)

Section BitReversal.

Import RelMat.

Lemma spec_bit_reverse_0 w : spec_bit_reverse w 0 = 0.
Proof.
  induction w as [|w IH]; [reflexivity|]. cbn [spec_bit_reverse].
  change (0 / 2) with 0. change (0 mod 2) with 0. now rewrite IH.
Qed.

Lemma spec_bit_reverse_range w i :
  0 <= spec_bit_reverse w i < 2 ^ Z.of_nat w.
Proof.
  revert i. induction w as [|w IH]; intros i; [cbn; lia|].
  cbn [spec_bit_reverse]. rewrite Nat2Z.inj_succ, Z.pow_succ_r by lia.
  specialize (IH (i / 2)). pose proof (Z.mod_pos_bound i 2 ltac:(lia)). nia.
Qed.

Lemma spec_bit_reverse_even w j :
  spec_bit_reverse (S w) (2 * j) = spec_bit_reverse w j.
Proof.
  cbn [spec_bit_reverse].
  replace (2 * j) with (j * 2) by lia.
  rewrite Z.mod_mul, Z.div_mul by lia. lia.
Qed.

Lemma spec_bit_reverse_odd w j :
  spec_bit_reverse (S w) (2 * j + 1) = 2 ^ Z.of_nat w + spec_bit_reverse w j.
Proof.
  cbn [spec_bit_reverse].
  replace (2 * j + 1) with (1 + j * 2) by lia.
  rewrite Z.mod_add, Z.div_add by lia.
  change (1 mod 2) with 1. change (1 / 2) with 0. f_equal; lia.
Qed.

Lemma lor_even_bit h b : 0 <= h -> 0 <= b <= 1 -> Z.lor (2 * h) b = 2 * h + b.
Proof.
  intros Hh Hb. assert (b = 0 \/ b = 1) as [-> | ->] by lia.
  - now rewrite Z.lor_0_r, Z.add_0_r.
  - destruct h; [reflexivity | reflexivity | lia].
Qed.

Lemma land_1 x : Z.land x 1 = x mod 2.
Proof. change 1 with (Z.ones 1) at 1. now rewrite Z.land_ones by lia. Qed.

(** The loop of [reversed_index], from any state it can be in: with
    [2 * h] accumulated, [sn] positions left and [iv] still to consume, it
    stops with [iv = 0] and the reversed bits of [iv] appended. *)
Lemma reverse_loop_invariant :
  forall fuel h sn iv,
    0 <= h -> 0 <= iv < 2 ^ Z.of_nat fuel -> iv < 2 ^ Z.of_nat sn ->
    (h + 1) * 2 ^ Z.of_nat sn <= 2 ^ 31 ->
    exists h' sn',
      while_loop fuel reverse_cond reverse_body (2 * h, Z.of_nat sn, iv)
      = (2 * h', Z.of_nat sn', 0)
      /\ 0 <= h'
      /\ h' * 2 ^ Z.of_nat sn' = h * 2 ^ Z.of_nat sn + spec_bit_reverse sn iv
      /\ (h' + 1) * 2 ^ Z.of_nat sn' <= 2 ^ 31.
Proof.
  induction fuel as [|f IH]; intros h sn iv Hh Hiv Hsn Hb.
  - assert (iv = 0) by (cbn in Hiv; lia). subst iv.
    exists h, sn. cbn [while_loop]. rewrite spec_bit_reverse_0. repeat split; lia.
  - cbn [while_loop reverse_cond]. destruct (Z.eqb_spec iv 0) as [->|Hnz]; cbn [negb].
    + exists h, sn. rewrite spec_bit_reverse_0. repeat split; lia.
    + destruct sn as [|sn]; [cbn in Hsn; lia|].
      rewrite Nat2Z.inj_succ, Z.pow_succ_r in Hsn, Hb by lia.
      rewrite Nat2Z.inj_succ, Z.pow_succ_r in Hiv by lia.
      pose proof (Z.mod_pos_bound iv 2 ltac:(lia)) as Hbit.
      assert (Hp : 0 < 2 ^ Z.of_nat sn) by (apply Z.pow_pos_nonneg; lia).
      assert (Hs31 : Z.of_nat sn < 31).
      { destruct (Z.lt_ge_cases (Z.of_nat sn) 31) as [|Hge]; [assumption|].
        pose proof (Z.pow_le_mono_r 2 31 (Z.of_nat sn) ltac:(lia) Hge). nia. }
      unfold reverse_body. cbv zeta.
      rewrite land_1, lor_even_bit by lia.
      rewrite Z.shiftl_mul_pow2, Z.shiftr_div_pow2 by lia.
      change (2 ^ 1) with 2.
      rewrite (u32_small ((2 * h + iv mod 2) * 2)) by nia.
      rewrite (u32_small (Z.of_nat (S sn) - 1)) by lia.
      replace (Z.of_nat (S sn) - 1) with (Z.of_nat sn) by lia.
      replace ((2 * h + iv mod 2) * 2) with (2 * (2 * h + iv mod 2)) by lia.
      destruct (IH (2 * h + iv mod 2) sn (iv / 2)) as (h' & sn' & E & Hh' & Hval & Hb');
        try lia.
      * split; [apply Z.div_pos; lia | apply Z.div_lt_upper_bound; lia].
      * apply Z.div_lt_upper_bound; lia.
      * nia.
      * exists h', sn'. split; [exact E|]. split; [exact Hh'|]. split; [|exact Hb'].
        rewrite Hval. cbn [spec_bit_reverse].
        rewrite Nat2Z.inj_succ, Z.pow_succ_r by lia. lia.
Qed.

(** The loop of the source computes the bit reversal within [w] bits. *)
Lemma reversed_index_spec w i :
  0 <= w <= 31 -> 0 <= i < 2 ^ w ->
  reversed_index w i = spec_bit_reverse (Z.to_nat w) i
  /\ reverse_cond (reverse_loop w i) = false.
Proof.
  intros Hw Hi. unfold reversed_index.
  destruct (reverse_loop_invariant 32 0 (Z.to_nat w) i) as (h' & sn' & E & Hh' & Hval & Hb).
  - lia.
  - split; [lia|]. apply Z.lt_le_trans with (2 ^ w); [lia|].
    apply Z.pow_le_mono_r; lia.
  - rewrite Z2Nat.id by lia. lia.
  - rewrite Z2Nat.id by lia. rewrite Z.mul_1_l. apply Z.pow_le_mono_r; lia.
  - rewrite Z2Nat.id in E by lia.
    change (reverse_loop w i = (2 * h', Z.of_nat sn', 0)) in E.
    rewrite E. split; [|reflexivity].
    assert (Hp : 0 < 2 ^ Z.of_nat sn') by (apply Z.pow_pos_nonneg; lia).
    rewrite Z.shiftr_div_pow2, Z.shiftl_mul_pow2 by lia.
    change (2 ^ 1) with 2. replace (2 * h') with (h' * 2) by lia.
    rewrite Z.div_mul by lia.
    rewrite u32_small by nia. rewrite Hval. lia.
Qed.

End BitReversal.

(* ====================================================================== *)
(** * The order in which [deinterleave] reads the columns *)

Section Sources.

Import RelMat.

Lemma iota_S n : iota (S n) = iota n ++ [Z.of_nat n].
Proof. unfold iota. now rewrite seq_S, map_app. Qed.

Lemma iota_length n : List.length (iota n) = n.
Proof. unfold iota. now rewrite length_map, length_seq. Qed.

Lemma iota_In n x : In x (iota n) <-> 0 <= x < Z.of_nat n.
Proof.
  unfold iota. rewrite in_map_iff. split.
  - intros (k & <- & Hk). apply in_seq in Hk. lia.
  - intros Hx. exists (Z.to_nat x). split; [lia|]. apply in_seq. lia.
Qed.

Lemma iota_nth n j : (j < n)%nat -> nth j (iota n) 0 = Z.of_nat j.
Proof.
  intros Hj. unfold iota.
  change 0 with (Z.of_nat 0). rewrite map_nth, seq_nth by lia. reflexivity.
Qed.

Lemma iota_app a b : iota (a + b) = iota a ++ map (fun x => Z.of_nat a + x) (iota b).
Proof.
  induction b as [|b IH].
  - rewrite Nat.add_0_r. cbn. now rewrite app_nil_r.
  - rewrite Nat.add_succ_r, !iota_S, IH, map_app, app_assoc. cbn [map].
    do 2 f_equal. lia.
Qed.

Lemma iota_double n : iota (2 * n) = flat_map (fun j => [2 * j; 2 * j + 1]) (iota n).
Proof.
  induction n as [|n IH]; [reflexivity|].
  replace (2 * S n)%nat with (S (S (2 * n))) by lia.
  rewrite !iota_S, IH, flat_map_app, <- app_assoc. cbn [flat_map app].
  do 2 f_equal. - lia. - f_equal. lia.
Qed.

Lemma pow2_nat w : Z.of_nat (2 ^ w) = 2 ^ Z.of_nat w.
Proof. now rewrite Nat2Z.inj_pow. Qed.

(** One more bit of width only adds reversed indices that are too large
    to denote a column. *)
Lemma sources_succ r w :
  _message_length r <= 2 ^ Z.of_nat w -> sources r (S w) = sources r w.
Proof.
  intros Hml. unfold sources.
  replace (2 ^ S w)%nat with (2 * 2 ^ w)%nat by (cbn; lia).
  rewrite iota_double. generalize (iota (2 ^ w)). intros l.
  induction l as [|j l IH]; [reflexivity|].
  cbn [flat_map app map filter].
  rewrite spec_bit_reverse_even, spec_bit_reverse_odd, IH.
  pose proof (spec_bit_reverse_range w j) as Hr.
  destruct (Z.ltb_spec (2 ^ Z.of_nat w + spec_bit_reverse w j) (_message_length r));
    [lia | reflexivity].
Qed.

Lemma Permutation_pairs {A} (g h : Z -> A) l :
  Permutation (flat_map (fun j => [g j; h j]) l) (map g l ++ map h l).
Proof.
  induction l as [|j l IH]; [constructor|].
  cbn [flat_map map app]. constructor.
  apply Permutation_cons_app. exact IH.
Qed.

(** Bit reversal within [w] bits permutes [0 .. 2^w - 1]. *)
Lemma bit_reverse_permutation w :
  Permutation (map (spec_bit_reverse w) (iota (2 ^ w))) (iota (2 ^ w)).
Proof.
  induction w as [|w IH]; [apply Permutation_refl|].
  replace (2 ^ S w)%nat with (2 * 2 ^ w)%nat at 1 by (cbn; lia).
  replace (2 ^ S w)%nat with (2 ^ w + 2 ^ w)%nat by (cbn; lia).
  rewrite iota_double, iota_app.
  set (l := iota (2 ^ w)) in *.
  assert (E : map (spec_bit_reverse (S w)) (flat_map (fun j => [2 * j; 2 * j + 1]) l)
              = flat_map (fun j => [spec_bit_reverse w j;
                                    Z.of_nat (2 ^ w) + spec_bit_reverse w j]) l).
  { clear. induction l as [|j l IHl]; [reflexivity|].
    cbn [flat_map map app].
    rewrite spec_bit_reverse_even, spec_bit_reverse_odd, IHl, pow2_nat. reflexivity. }
  rewrite E.
  eapply Permutation_trans; [apply Permutation_pairs|].
  apply Permutation_app; [exact IH|].
  rewrite <- (map_map (spec_bit_reverse w) (fun x => Z.of_nat (2 ^ w) + x)).
  apply Permutation_map. exact IH.
Qed.

Lemma Permutation_filter {A} (p : A -> bool) l l' :
  Permutation l l' -> Permutation (filter p l) (filter p l').
Proof.
  induction 1 as [|x l l' H IH|x y l|l l' l'' H1 IH1 H2 IH2]; cbn [filter].
  - constructor.
  - destruct (p x); [now constructor | exact IH].
  - destruct (p x), (p y); try apply Permutation_refl. constructor.
  - eapply Permutation_trans; eassumption.
Qed.

Lemma filter_none {A} (p : A -> bool) l :
  (forall x, In x l -> p x = false) -> filter p l = [].
Proof.
  induction l as [|x l IH]; intros H; [reflexivity|].
  cbn [filter]. rewrite (H x) by (now left). apply IH.
  intros y Hy. apply H. now right.
Qed.

Lemma filter_iota_below m n :
  (m <= n)%nat -> filter (fun x => x <? Z.of_nat m) (iota n) = iota m.
Proof.
  intros Hmn. replace n with (m + (n - m))%nat by lia. rewrite iota_app, filter_app.
  assert (E1 : filter (fun x => x <? Z.of_nat m) (iota m) = iota m).
  { apply forallb_filter_id. apply forallb_forall. intros x Hx.
    apply iota_In in Hx. apply Z.ltb_lt. lia. }
  assert (E2 : filter (fun x => x <? Z.of_nat m)
                 (map (fun x => Z.of_nat m + x) (iota (n - m))) = []).
  { apply filter_none. intros y Hy. apply in_map_iff in Hy.
    destruct Hy as (x & <- & Hx). apply iota_In in Hx. apply Z.ltb_ge. lia. }
  now rewrite E1, E2, app_nil_r.
Qed.

(** The columns are read in an order that is a permutation of
    [0 .. _message_length - 1], as soon as the width covers them all. *)
Lemma sources_permutation r w :
  0 <= _message_length r <= 2 ^ Z.of_nat w ->
  Permutation (sources r w) (iota (Z.to_nat (_message_length r))).
Proof.
  intros Hml. unfold sources.
  rewrite <- (filter_iota_below (Z.to_nat (_message_length r)) (2 ^ w)).
  - rewrite Z2Nat.id by lia. apply Permutation_filter, bit_reverse_permutation.
  - apply Nat2Z.inj_le. rewrite pow2_nat, Z2Nat.id; lia.
Qed.

Lemma sources_length r w :
  0 <= _message_length r <= 2 ^ Z.of_nat w ->
  Z.of_nat (List.length (sources r w)) = _message_length r.
Proof.
  intros Hml. rewrite (Permutation_length (sources_permutation r w Hml)), iota_length.
  lia.
Qed.

Lemma sources_in_range r w x :
  In x (sources r w) -> 0 <= x < _message_length r.
Proof.
  unfold sources. rewrite filter_In, in_map_iff.
  intros [(j & <- & _) Hlt]. apply Z.ltb_lt in Hlt.
  pose proof (spec_bit_reverse_range w j). lia.
Qed.

(** The width the source computes and the one of the specification give
    the same reading order. *)
Lemma sources_width r w :
  1 <= _message_length r < 2 ^ 31 -> width_fits r w ->
  0 <= w <= 31
  /\ index_max w = 2 ^ w
  /\ _message_length r <= 2 ^ w
  /\ _message_length r <= 2 ^ spec_width r
  /\ 0 <= spec_width r
  /\ sources r (Z.to_nat w) = spec_sources r.
Proof.
  intros Hml Hw. unfold width_fits in Hw. set (ml := _message_length r) in *.
  assert (Hlog : 0 <= Z.log2 ml < 31).
  { split; [apply Z.log2_nonneg|]. apply Z.log2_lt_pow2; lia. }
  assert (Hspec : 2 ^ Z.log2 ml <= ml < 2 ^ Z.succ (Z.log2 ml))
    by (apply Z.log2_spec; lia).
  assert (Hup : ml <= 2 ^ Z.log2_up ml).
  { destruct (Z.eq_dec ml 1) as [E|N]; [rewrite E; cbn; lia|].
    apply Z.log2_up_spec. lia. }
  pose proof (Z.le_log2_log2_up ml) as Hlo.
  pose proof (Z.le_log2_up_succ_log2 ml) as Hhi.
  assert (Hrange : 0 <= w <= 31).
  { destruct Hw as [->|[Hw1 Hpow]]; [lia|]. split; [lia|].
    destruct (Z.le_gt_cases w 31) as [|Hbig]; [assumption|].
    pose proof (Z.pow_le_mono_r 2 31 w ltac:(lia) ltac:(lia)). lia. }
  assert (Hmax : index_max w = 2 ^ w).
  { unfold index_max. rewrite Z.shiftl_mul_pow2, Z.mul_1_l by lia.
    apply u32_small. split; [apply Z.pow_nonneg; lia|].
    apply Z.pow_lt_mono_r; lia. }
  unfold spec_sources, spec_width. fold ml.
  repeat apply conj; try lia.
  - destruct Hw as [->|[_ Hpow]]; [unfold Z.succ in Hspec|]; lia.
  - destruct Hw as [->|[Hw1 Hpow]].
    + destruct (Z.eq_dec (Z.log2_up ml) (Z.log2 ml + 1)) as [E|N].
      * now rewrite E.
      * assert (E : Z.log2_up ml = Z.log2 ml) by lia. rewrite E.
        replace (Z.to_nat (Z.log2 ml + 1)) with (S (Z.to_nat (Z.log2 ml))) by lia.
        apply sources_succ. rewrite Z2Nat.id by lia. fold ml. rewrite <- E. exact Hup.
    + rewrite <- Hpow, Z.log2_up_pow2 by lia. reflexivity.
Qed.

Lemma index_size_fits r :
  1 <= _message_length r < 2 ^ 31 -> width_fits r (index_size r).
Proof.
  intros Hml. left. unfold index_size. apply u32_small.
  assert (Z.log2 (_message_length r) < 31) by (apply Z.log2_lt_pow2; lia).
  pose proof (Z.log2_nonneg (_message_length r)). lia.
Qed.

End Sources.

(* ====================================================================== *)
(** * The reliability matrix: deinterleaving *)

Section Deinterleave.

Import F32 RelMat.

Lemma fold_left_map_eq {A B C} (f : A -> B -> A) (g : C -> B) l a :
  fold_left f (map g l) a = fold_left (fun a c => f a (g c)) l a.
Proof. revert a. induction l as [|c l IH]; intros a; [reflexivity | apply IH]. Qed.

Lemma run_filter r snapshot l st :
  run r snapshot l st = run r snapshot (filter (fun x => x <? _message_length r) l) st.
Proof.
  revert st. induction l as [|x l IH]; intros [mat dst]; [reflexivity|].
  unfold run in *. cbn [fold_left filter].
  destruct (x <? _message_length r) eqn:E.
  - cbn [fold_left]. apply IH.
  - unfold visit at 2. rewrite E. apply IH.
Qed.

(** The loop of the specification visits the reversed raw indices. *)
Lemma spec_loop_run r snapshot st :
  0 <= spec_width r ->
  for_range 0 (2 ^ spec_width r) (spec_deinterleave_step r snapshot) st
  = run r snapshot (sources r (Z.to_nat (spec_width r))) st.
Proof.
  intros Hw. unfold for_range, sources. rewrite <- run_filter.
  rewrite for_loop_fold. unfold run, iota. rewrite !fold_left_map_eq.
  replace (Z.to_nat (2 ^ spec_width r - 0)) with (2 ^ Z.to_nat (spec_width r))%nat.
  - reflexivity.
  - apply Nat2Z.inj. rewrite pow2_nat, !Z2Nat.id; lia.
Qed.

(** One iteration of the loop of the source is a visit of the reversed
    raw index. *)
Lemma deinterleave_step_visit r w tmp mat old i :
  wf r -> 1 <= _message_length r < 2 ^ 31 -> width_fits r w ->
  0 <= i < index_max w -> 0 <= old < _message_length r ->
  deinterleave_step r w tmp (mat, old, i)
  = (visit r tmp (spec_bit_reverse (Z.to_nat w) i) (mat, old), i + 1).
Proof.
  intros Hwf Hml Hw Hi Hold.
  destruct (sources_width r w Hml Hw) as (Hsz & Hmax & _).
  destruct (wf_unpack r Hwf) as (_ & _ & Hnb & _ & Hbuf & _).
  assert (Hmax31 : index_max w <= 2 ^ 31)
    by (rewrite Hmax; apply Z.pow_le_mono_r; lia).
  unfold deinterleave_step.
  destruct (reversed_index_spec w i Hsz ltac:(lia)) as [Erev _].
  rewrite Erev. set (src := spec_bit_reverse (Z.to_nat w) i).
  pose proof (spec_bit_reverse_range (Z.to_nat w) i) as Hsrc.
  fold src in Hsrc.
  rewrite (u32_small (i + 1)) by lia.
  unfold visit, spec_copy_column.
  destruct (Z.ltb_spec src (_message_length r)) as [Hin|Hout]; [|reflexivity].
  rewrite (u32_small (old * _nb_symbols r)) by nia.
  rewrite (u32_small (src * _nb_symbols r)) by nia.
  rewrite (u32_small (old + 1)) by lia. reflexivity.
Qed.

(** The loop of the source, from any state it can be in: it visits the
    reversed raw indices that remain, and it ends because its condition
    fails, not for lack of iterations. *)
Lemma code_loop_run r w tmp :
  wf r -> 1 <= _message_length r < 2 ^ 31 -> width_fits r w ->
  forall fuel mat old i,
    0 <= i -> i + Z.of_nat fuel = index_max w -> 0 <= old ->
    old + Z.of_nat (List.length
            (filter (fun x => x <? _message_length r)
               (map (spec_bit_reverse (Z.to_nat w))
                  (map Z.of_nat (seq (Z.to_nat i) fuel)))))
      <= _message_length r ->
    let final :=
      while_loop fuel (deinterleave_cond r w) (deinterleave_step r w tmp)
        (mat, old, i) in
    fst (fst final)
    = fst (run r tmp
             (map (spec_bit_reverse (Z.to_nat w))
                (map Z.of_nat (seq (Z.to_nat i) fuel)))
             (mat, old))
    /\ deinterleave_cond r w final = false.
Proof.
  intros Hwf Hml Hw.
  induction fuel as [|f IH]; intros mat old i Hi Hfuel Hold Hcount final; subst final.
  - cbn [while_loop seq map run fold_left fst deinterleave_cond].
    split; [reflexivity|].
    destruct (Z.ltb_spec i (index_max w)); [lia | reflexivity].
  - cbn [while_loop deinterleave_cond].
    destruct (Z.ltb_spec i (index_max w)) as [Hlt|]; [|lia]. cbn [andb].
    destruct (Z.ltb_spec old (_message_length r)) as [Hroom|Hfull].
    + (* a destination is left *)
      rewrite deinterleave_step_visit by (auto; lia).
      cbn [seq map] in *. rewrite Z2Nat.id in * by lia.
      unfold run. cbn [fold_left]. fold (run r tmp).
      replace (S (Z.to_nat i)) with (Z.to_nat (i + 1)) in * by lia.
      cbn [filter] in Hcount. unfold visit in *.
      destruct (spec_bit_reverse (Z.to_nat w) i <? _message_length r).
      * cbn [List.length] in Hcount. apply IH; lia.
      * apply IH; lia.
    + (* every destination is filled: the loop stops here *)
      cbn [fst]. split.
      * rewrite run_filter.
        destruct (filter (fun x => x <? _message_length r)
                    (map (spec_bit_reverse (Z.to_nat w))
                       (map Z.of_nat (seq (Z.to_nat i) (S f))))) as [|x l];
          [reflexivity | cbn [List.length] in Hcount; lia].
      * destruct (Z.ltb_spec i (index_max w)), (Z.ltb_spec old (_message_length r));
          cbn; auto; lia.
Qed.

Lemma wf_with_matrix r mat :
  wf r -> List.length mat = List.length (_matrix r) -> wf (with_matrix r mat).
Proof.
  intros Hwf Hl. unfold wf, wfb in *.
  cbn [with_matrix _nb_symbols_log2 _nb_symbols _message_length
       _message_symbol_count _matrix].
  now rewrite Hl.
Qed.

(** Copying a column of the snapshot onto a column of the matrix. *)
Lemma copy_column_cells r snapshot mat dst src :
  wf r -> List.length mat = List.length (_matrix r) ->
  0 <= dst < _message_length r -> 0 <= src < _message_length r ->
  List.length (spec_copy_column r mat snapshot dst src) = List.length mat
  /\ forall ir jc, in_range r ir jc ->
       get zero (spec_copy_column r mat snapshot dst src) (index r jc ir) =
       if jc =? dst then get zero snapshot (index r src ir)
       else get zero mat (index r jc ir).
Proof.
  intros Hwf Hl Hdst Hsrc.
  pose proof (wf_with_matrix r mat Hwf Hl) as Hwf'.
  destruct (memcpy_column (with_matrix r mat) snapshot (src * _nb_symbols r) dst Hwf' Hdst)
    as [Hlen Hcells].
  cbn [with_matrix _nb_symbols _matrix] in Hlen, Hcells.
  rewrite (column_base r dst Hwf Hdst) in Hlen, Hcells.
  split; [exact Hlen|].
  intros ir jc Hin. specialize (Hcells ir jc Hin).
  rewrite index_with_matrix in Hcells. unfold spec_copy_column. rewrite Hcells.
  destruct (jc =? dst); [|reflexivity].
  f_equal. symmetry. apply index_eq; [exact Hwf|].
  destruct Hin as [Hir _]. split; lia.
Qed.

Lemma run_cons r snapshot x l st :
  run r snapshot (x :: l) st = run r snapshot l (visit r snapshot x st).
Proof. reflexivity. Qed.

(** Visiting a list of columns fills the destinations in order. *)
Lemma run_cells r snapshot :
  wf r ->
  forall l mat dst,
    (forall x, In x l -> 0 <= x < _message_length r) ->
    List.length mat = List.length (_matrix r) ->
    0 <= dst -> dst + Z.of_nat (List.length l) <= _message_length r ->
    List.length (fst (run r snapshot l (mat, dst))) = List.length mat
    /\ forall ir jc, in_range r ir jc ->
         get zero (fst (run r snapshot l (mat, dst))) (index r jc ir) =
         if (dst <=? jc) && (jc <? dst + Z.of_nat (List.length l))
         then get zero snapshot (index r (nth (Z.to_nat (jc - dst)) l 0) ir)
         else get zero mat (index r jc ir).
Proof.
  intros Hwf. induction l as [|x l IH]; intros mat dst Hall Hl Hdst Hroom.
  - cbn [run fold_left fst List.length]. split; [reflexivity|].
    intros ir jc _. destruct (Z.leb_spec dst jc), (Z.ltb_spec jc (dst + Z.of_nat 0));
      cbn; auto; lia.
  - cbn [List.length] in Hroom. rewrite run_cons.
    assert (Hx : 0 <= x < _message_length r) by (apply Hall; now left).
    assert (Hvisit : visit r snapshot x (mat, dst)
                     = (spec_copy_column r mat snapshot dst x, dst + 1)).
    { unfold visit. destruct (Z.ltb_spec x (_message_length r)); [reflexivity | lia]. }
    rewrite Hvisit.
    destruct (copy_column_cells r snapshot mat dst x Hwf Hl ltac:(lia) Hx) as [Hl1 Hc1].
    destruct (IH (spec_copy_column r mat snapshot dst x) (dst + 1)) as [Hl2 Hc2];
      try lia.
    { intros y Hy. apply Hall. now right. }
    split; [now rewrite Hl2|].
    intros ir jc Hin. rewrite Hc2, Hc1 by exact Hin. cbn [List.length].
    destruct (Z.eqb_spec jc dst) as [->|Hne].
    + destruct (Z.leb_spec (dst + 1) dst), (Z.leb_spec dst dst),
        (Z.ltb_spec dst (dst + Z.of_nat (S (List.length l)))); cbn; try lia.
      now rewrite Z.sub_diag.
    + destruct (Z.leb_spec (dst + 1) jc), (Z.leb_spec dst jc),
        (Z.ltb_spec jc (dst + 1 + Z.of_nat (List.length l))),
        (Z.ltb_spec jc (dst + Z.of_nat (S (List.length l)))); cbn; try lia; auto.
      replace (Z.to_nat (jc - dst)) with (S (Z.to_nat (jc - (dst + 1)))) by lia.
      reflexivity.
Qed.

(** What the source computes, in terms of the reading order. *)
Lemma deinterleave_at_run r w :
  wf r -> 1 <= _message_length r < 2 ^ 31 -> width_fits r w ->
  deinterleave_at w r
  = with_matrix r (fst (run r (_matrix r) (spec_sources r) (_matrix r, 0)))
  /\ deinterleave_cond r w (deinterleave_loop r w (tmp_matrix r)) = false.
Proof.
  intros Hwf Hml Hw.
  destruct (sources_width r w Hml Hw) as (Hsz & Hmax & Hcover & _ & _ & Hsrc).
  unfold deinterleave_at.
  change (tmp_matrix r) with (_matrix (copy r)).
  unfold deinterleave_loop.
  assert (Hfuel : Z.to_nat (index_max w) = (2 ^ Z.to_nat w)%nat).
  { apply Nat2Z.inj. rewrite pow2_nat, Hmax, !Z2Nat.id; lia. }
  destruct (code_loop_run r w (_matrix (copy r)) Hwf Hml Hw (Z.to_nat (index_max w))
              (_matrix r) 0 0) as [Hmat Hstop]; try lia.
  { change (Z.to_nat 0) with O. rewrite Hfuel.
    fold (iota (2 ^ Z.to_nat w)).
    fold (sources r (Z.to_nat w)).
    rewrite sources_length; [lia|]. rewrite Z2Nat.id; lia. }
  split; [|exact Hstop].
  f_equal. rewrite Hmat. change (Z.to_nat 0) with O. rewrite Hfuel.
  fold (iota (2 ^ Z.to_nat w)).
  rewrite run_filter. fold (sources r (Z.to_nat w)).
  now rewrite Hsrc, copy_matrix.
Qed.

Lemma deinterleave_run r :
  wf r -> 1 <= _message_length r < 2 ^ 31 ->
  deinterleave r
  = with_matrix r (fst (run r (_matrix r) (spec_sources r) (_matrix r, 0)))
  /\ deinterleave_cond r (index_size r)
       (deinterleave_loop r (index_size r) (tmp_matrix r)) = false.
Proof.
  intros Hwf Hml. apply deinterleave_at_run; auto. now apply index_size_fits.
Qed.

(** The result is the same whichever of the two widths was computed. *)
Lemma deinterleave_width_robust r w :
  wf r -> 1 <= _message_length r < 2 ^ 31 -> width_fits r w ->
  deinterleave_at w r = deinterleave r.
Proof.
  intros Hwf Hml Hw.
  rewrite (proj1 (deinterleave_at_run r w Hwf Hml Hw)).
  now rewrite (proj1 (deinterleave_run r Hwf Hml)).
Qed.

Lemma spec_deinterleave_run r :
  1 <= _message_length r < 2 ^ 31 ->
  spec_deinterleave r
  = with_matrix r (fst (run r (_matrix r) (spec_sources r) (_matrix r, 0))).
Proof.
  intros Hml.
  destruct (sources_width r _ Hml (index_size_fits r Hml)) as (_ & _ & _ & _ & Hw & _).
  unfold spec_deinterleave. now rewrite spec_loop_run.
Qed.

Lemma spec_sources_facts r :
  1 <= _message_length r < 2 ^ 31 ->
  Permutation (spec_sources r) (iota (Z.to_nat (_message_length r)))
  /\ Z.of_nat (List.length (spec_sources r)) = _message_length r
  /\ forall x, In x (spec_sources r) -> 0 <= x < _message_length r.
Proof.
  intros Hml.
  destruct (sources_width r _ Hml (index_size_fits r Hml)) as (_ & _ & _ & Hcover & Hw & _).
  assert (H : 0 <= _message_length r <= 2 ^ Z.of_nat (Z.to_nat (spec_width r)))
    by (rewrite Z2Nat.id; lia).
  unfold spec_sources. split; [now apply sources_permutation|].
  split; [now apply sources_length | apply sources_in_range].
Qed.

(** Destination column [jc] receives the column read in position [jc]. *)
Lemma deinterleave_cell r ir jc :
  wf r -> 1 <= _message_length r < 2 ^ 31 -> in_range r ir jc ->
  cell (deinterleave r) ir jc = cell r ir (nth (Z.to_nat jc) (spec_sources r) 0).
Proof.
  intros Hwf Hml Hin.
  destruct (spec_sources_facts r Hml) as (_ & Hlen & Hall).
  rewrite (proj1 (deinterleave_run r Hwf Hml)).
  destruct (run_cells r (_matrix r) Hwf (spec_sources r) (_matrix r) 0 Hall eq_refl)
    as [_ Hcells]; try lia.
  unfold cell at 1. cbn [with_matrix _matrix]. rewrite index_with_matrix.
  rewrite Hcells by exact Hin. destruct Hin as [_ Hjc].
  destruct (Z.leb_spec 0 jc), (Z.ltb_spec jc (0 + Z.of_nat (List.length (spec_sources r))));
    cbn; try lia.
  now rewrite Z.sub_0_r.
Qed.

Lemma map_nth_all {A} (d : A) l :
  map (fun j => nth j l d) (seq 0 (List.length l)) = l.
Proof.
  induction l as [|x l IH]; [reflexivity|].
  cbn [List.length seq map nth]. f_equal.
  rewrite <- seq_shift, map_map. exact IH.
Qed.

Lemma deinterleave_columns r :
  wf r -> 1 <= _message_length r < 2 ^ 31 ->
  columns (deinterleave r) = map (column r) (spec_sources r).
Proof.
  intros Hwf Hml.
  destruct (spec_sources_facts r Hml) as (_ & Hlen & _).
  destruct (wf_unpack r Hwf) as (_ & _ & Hnb & _).
  rewrite <- (map_nth_all 0 (spec_sources r)) at 1. rewrite map_map.
  unfold columns.
  replace (_message_length (deinterleave r)) with (_message_length r) by reflexivity.
  replace (List.length (spec_sources r)) with (Z.to_nat (_message_length r)) by lia.
  apply map_ext_in. intros j Hj. apply in_seq in Hj.
  unfold column.
  replace (_nb_symbols (deinterleave r)) with (_nb_symbols r) by reflexivity.
  apply map_ext_in. intros i Hi. apply in_seq in Hi.
  rewrite deinterleave_cell; auto; [|split; lia].
  now rewrite Nat2Z.id.
Qed.

Lemma columns_iota r :
  columns r = map (column r) (iota (Z.to_nat (_message_length r))).
Proof. unfold columns, iota. now rewrite map_map. Qed.

End Deinterleave.

Section DeinterleaveClaims.

Import F32 RelMat.

(** Claim C6, as the code has it.  On a well-formed matrix with at
    least one column (and
    fewer than [2^31], so that [1 << index_size] is defined),
    [deinterleave] yields exactly the matrix of the procedure of the
    specification: with [w = ceil(log2(message_length))], for raw indices
    [i = 0 .. 2^w - 1] in increasing order, the column of the snapshot at
    the bit reversal of [i] within [w] bits is copied, when that is a
    column, to the next destination, destinations being filled from 0
    upwards.  The columns of the result are the columns of the argument
    read in an order that is a permutation of all column indices, hence a
    permutation of the columns; and for [message_length = 4] the result
    holds columns 0, 2, 1, 3 of the argument in that order.  Both loops
    of the source end because their conditions fail, within the iterations
    the model grants them. *)
Theorem deinterleave_bit_reversal r :
  wf r -> 1 <= _message_length r < 2 ^ 31 ->
  deinterleave r = spec_deinterleave r
  /\ columns (deinterleave r) = map (column r) (spec_sources r)
  /\ Permutation (spec_sources r) (iota (Z.to_nat (_message_length r)))
  /\ Permutation (columns (deinterleave r)) (columns r)
  /\ (_message_length r = 4 ->
      columns (deinterleave r) = [column r 0; column r 2; column r 1; column r 3])
  /\ deinterleave_cond r (index_size r)
       (deinterleave_loop r (index_size r) (tmp_matrix r)) = false
  /\ (forall i, 0 <= i < index_max (index_size r) ->
        reverse_cond (reverse_loop (index_size r) i) = false).
Proof.
  intros Hwf Hml.
  pose proof (deinterleave_columns r Hwf Hml) as Hcols.
  destruct (spec_sources_facts r Hml) as (Hperm & _ & _).
  destruct (sources_width r _ Hml (index_size_fits r Hml)) as (Hsz & Hmax & _).
  repeat apply conj.
  - rewrite (proj1 (deinterleave_run r Hwf Hml)). symmetry.
    now apply spec_deinterleave_run.
  - exact Hcols.
  - exact Hperm.
  - rewrite Hcols, columns_iota. now apply Permutation_map.
  - intros H4. rewrite Hcols.
    unfold spec_sources, spec_width, sources. rewrite H4. reflexivity.
  - exact (proj2 (deinterleave_run r Hwf Hml)).
  - intros i Hi. apply reversed_index_spec; [exact Hsz | lia].
Qed.

Lemma deinterleave_bit_reversal_witness :
  let r := mk 1 2 4 0 (map of_Z [0; 10; 2; 12; 1; 11; 3; 13]) in
  wf r
  /\ columns (deinterleave r) = [column r 0; column r 2; column r 1; column r 3]
  /\ _matrix (deinterleave r) = map of_Z [0; 10; 1; 11; 2; 12; 3; 13].
Proof.
  intros r.
  assert (Hwf : wf r) by reflexivity.
  assert (Hml : 1 <= _message_length r < 2 ^ 31)
    by (cbn; split; [discriminate | reflexivity]).
  destruct (deinterleave_bit_reversal r Hwf Hml) as (_ & _ & _ & _ & H4 & _).
  split; [exact Hwf|]. split; [exact (H4 eq_refl) | reflexivity].
Defined.

End DeinterleaveClaims.

(* ====================================================================== *)
(** * The encoder: parity of a register *)

Section Parity.

Import Encoder.

Variables (reg_bits : Z).

Lemma count_bits_0 count : count_bits count 0 = 0.
Proof.
  unfold count_bits. rewrite filter_none; [reflexivity|].
  intros j _. apply Z.testbit_0_l.
Qed.

Lemma count_bits_succ count x :
  count_bits (S count) x = x mod 2 + count_bits count (x / 2).
Proof.
  unfold count_bits. cbn [seq filter]. rewrite <- seq_shift.
  assert (E : filter (fun j => Z.testbit x (Z.of_nat j)) (map S (seq 0 count))
              = map S (filter (fun j => Z.testbit (x / 2) (Z.of_nat j)) (seq 0 count))).
  { induction (seq 0 count) as [|j l IH]; [reflexivity|].
    cbn [map filter]. rewrite Z.div2_bits by lia.
    replace (Z.succ (Z.of_nat j)) with (Z.of_nat (S j)) by lia.
    destruct (Z.testbit x (Z.of_nat (S j))); cbn [map]; now rewrite IH. }
  rewrite E. change (Z.of_nat 0) with 0.
  rewrite <- Z.bit0_mod.
  destruct (Z.testbit x 0); cbn [List.length Z.b2z]; rewrite length_map; lia.
Qed.

Lemma u32_parity x : u32 x mod 2 = x mod 2.
Proof.
  unfold u32, wrap. rewrite (Z.mod_eq x (2 ^ 32)) by lia.
  replace (x - 2 ^ 32 * (x / 2 ^ 32)) with (x + (- (2 ^ 31 * (x / 2 ^ 32))) * 2) by lia.
  apply Z.mod_add. lia.
Qed.

(** The counting loop, from any state it can be in. *)
Lemma xorbits_loop_invariant :
  forall fuel w_reg nb_ones,
    0 <= w_reg < 2 ^ Z.of_nat fuel ->
    exists nb_ones',
      while_loop fuel xorbits_cond xorbits_body (w_reg, nb_ones) = (0, nb_ones')
      /\ nb_ones' mod 2 = (nb_ones + count_bits fuel w_reg) mod 2.
Proof.
  induction fuel as [|f IH]; intros w nb Hw.
  - assert (w = 0) by (cbn in Hw; lia). subst w. exists nb. cbn [while_loop].
    rewrite count_bits_0, Z.add_0_r. auto.
  - cbn [while_loop xorbits_cond xorbits_body].
    destruct (Z.eqb_spec w 0) as [->|Hnz]; cbn [negb].
    + exists nb. rewrite count_bits_0, Z.add_0_r. auto.
    + rewrite Nat2Z.inj_succ, Z.pow_succ_r in Hw by lia.
      destruct (IH (w / 2) (u32 (nb + w mod 2))) as (nb' & E & Hpar).
      { split; [apply Z.div_pos; lia | apply Z.div_lt_upper_bound; lia]. }
      exists nb'. split; [exact E|]. rewrite Hpar, count_bits_succ.
      rewrite <- Zplus_mod_idemp_l, u32_parity, Zplus_mod_idemp_l.
      f_equal. lia.
Qed.

(** [xorbits] is the parity of the population count, and its loop ends
    with the working copy at zero. *)
Lemma xorbits_parity x :
  0 <= reg_bits -> 0 <= x < 2 ^ reg_bits ->
  xorbits reg_bits x = parity reg_bits x
  /\ xorbits_cond (xorbits_loop reg_bits x) = false.
Proof.
  intros Hrb Hx. unfold xorbits, xorbits_loop.
  destruct (xorbits_loop_invariant (Z.to_nat reg_bits) x 0) as (nb' & E & Hpar).
  { now rewrite Z2Nat.id by lia. }
  rewrite E. cbn [fst snd]. split; [|reflexivity].
  rewrite Hpar, Z.add_0_l. unfold parity, popcount. fold (count_bits (Z.to_nat reg_bits) x).
  now rewrite Zodd_mod.
Qed.

Lemma land_range a b : 0 <= reg_bits -> 0 <= a < 2 ^ reg_bits -> 0 <= Z.land a b < 2 ^ reg_bits.
Proof.
  intros Hrb Ha.
  assert (E : Z.land a b = Z.land a b mod 2 ^ reg_bits).
  { rewrite <- (Z.mod_small a (2 ^ reg_bits)) at 1 by lia.
    rewrite <- !Z.land_ones by lia.
    rewrite <- !Z.land_assoc. f_equal. apply Z.land_comm. }
  rewrite E. apply Z.mod_pos_bound. lia.
Qed.

End Parity.

(* ====================================================================== *)
(** * The encoder: registers and output *)

Section EncoderFacts.

Import Encoder.

Variables (reg_bits sym_bits : Z).

Lemma encoder_wf_unpack e :
  wf reg_bits sym_bits e ->
  0 < reg_bits /\ 0 <= k e /\ size (registers e) = k e
  /\ (forall i, 0 <= i < k e -> 0 <= get 0 (registers e) i < 2 ^ reg_bits)
  /\ 0 <= n e <= sym_bits.
Proof.
  unfold wf, wfb. rewrite !andb_true_iff.
  intros [[[[[H0 H1] H2] H3] H4] H5].
  apply Z.ltb_lt in H0. apply Z.leb_le in H1, H4, H5. apply Z.eqb_eq in H2.
  repeat split; try lia.
  - rewrite forallb_forall in H3.
    assert (Hin : In (get 0 (registers e) i) (registers e)).
    { unfold get. apply nth_In. unfold size in H2. lia. }
    apply H3 in Hin. apply andb_true_iff in Hin. destruct Hin as [Hlo _].
    now apply Z.leb_le.
  - rewrite forallb_forall in H3.
    assert (Hin : In (get 0 (registers e) i) (registers e)).
    { unfold get. apply nth_In. unfold size in H2. lia. }
    apply H3 in Hin. apply andb_true_iff in Hin. destruct Hin as [_ Hhi].
    now apply Z.ltb_lt.
Qed.

Lemma load_bit_step no_step ki regs w_in :
  0 <= ki < size regs ->
  let '(regs', w_in') := load_bit reg_bits no_step ki (regs, w_in) in
  List.length regs' = List.length regs
  /\ w_in' = Z.shiftr w_in 1
  /\ get 0 regs' ki = clocked reg_bits no_step (get 0 regs ki) w_in
  /\ forall i, 0 <= i -> i <> ki -> get 0 regs' i = get 0 regs i.
Proof.
  intros Hki. unfold size in Hki. unfold load_bit, clocked.
  destruct no_step.
  - repeat split.
    + now rewrite !length_set.
    + rewrite !get_set_same; rewrite ?length_set; try lia; reflexivity.
    + intros i Hi Hne. now rewrite !get_set_other by auto.
  - repeat split.
    + now rewrite !length_set.
    + rewrite !get_set_same; rewrite ?length_set; try lia; reflexivity.
    + intros i Hi Hne. now rewrite !get_set_other by auto.
Qed.

(** The first loop of [encode] clocks bit [i] of the input into register
    [i], for each of the [k] registers. *)
Lemma load_registers_spec e x no_step :
  0 <= k e -> size (registers e) = k e ->
  List.length (load_registers reg_bits e x no_step) = List.length (registers e)
  /\ forall i, 0 <= i < k e ->
       get 0 (load_registers reg_bits e x no_step) i
       = clocked reg_bits no_step (get 0 (registers e) i) (Z.shiftr x i).
Proof.
  intros Hk Hsize. unfold load_registers.
  assert (H :
    (fun ki st =>
       List.length (fst st) = List.length (registers e)
       /\ snd st = Z.shiftr x ki
       /\ forall i, 0 <= i ->
            get 0 (fst st) i =
            if i <? ki then clocked reg_bits no_step (get 0 (registers e) i) (Z.shiftr x i)
            else get 0 (registers e) i)
    (k e) (for_range 0 (k e) (load_bit reg_bits no_step) (registers e, x))).
  { apply for_range_ind; [exact Hk | |].
    - cbn [fst snd]. split; [reflexivity|]. split; [reflexivity|].
      intros i Hi. destruct (Z.ltb_spec i 0); [lia | reflexivity].
    - intros ki [regs w] Hki (Hl & Hw & Hg). cbn [fst snd] in Hl, Hw, Hg.
      pose proof (load_bit_step no_step ki regs w) as Hstep.
      destruct (load_bit reg_bits no_step ki (regs, w)) as [regs' w'].
      destruct Hstep as (Hl' & Hw' & Hnew & Hother).
      { unfold size in *. lia. }
      cbn [fst snd]. split; [congruence|]. split.
      + rewrite Hw', Hw. rewrite Z.shiftr_shiftr by lia. reflexivity.
      + intros i Hi. destruct (Z.eq_dec i ki) as [->|Hne].
        * rewrite Hnew, Hg, Hw by lia.
          destruct (Z.ltb_spec ki ki), (Z.ltb_spec ki (ki + 1)); try lia; reflexivity.
        * rewrite Hother, Hg by auto.
          destruct (Z.ltb_spec i ki), (Z.ltb_spec i (ki + 1)); try lia; reflexivity. }
  destruct H as (Hl & _ & Hg). split; [exact Hl|].
  intros i Hi. rewrite Hg by lia.
  destruct (Z.ltb_spec i (k e)); [reflexivity | lia].
Qed.

Lemma shiftr_bit x i : 0 <= i -> Z.land (Z.shiftr x i) 1 = Z.b2z (Z.testbit x i).
Proof.
  intros Hi. rewrite land_1, <- Z.bit0_mod, Z.shiftr_spec by lia. reflexivity.
Qed.

Lemma clocked_step reg x i :
  0 <= i -> clocked reg_bits false reg (Z.shiftr x i) = shifted_in reg_bits reg x i.
Proof.
  intros Hi. unfold clocked, shifted_in, wrap.
  rewrite shiftr_bit, Z.shiftl_mul_pow2 by lia. change (2 ^ 1) with 2.
  rewrite Zplus_mod_idemp_l. f_equal. lia.
Qed.

(** Re-inserting the bit that was inserted last gives the register back. *)
Lemma clocked_replay reg x i :
  0 < reg_bits -> 0 <= i ->
  clocked reg_bits true (shifted_in reg_bits reg x i) (Z.shiftr x i)
  = shifted_in reg_bits reg x i.
Proof.
  intros Hrb Hi. unfold clocked. rewrite shiftr_bit by lia.
  set (b := Z.b2z (Z.testbit x i)).
  set (v := shifted_in reg_bits reg x i).
  assert (Hb : 0 <= b <= 1) by (subst b; destruct (Z.testbit x i); cbn; lia).
  assert (Hp : 0 < 2 ^ reg_bits) by (apply Z.pow_pos_nonneg; lia).
  assert (Hv : 0 <= v < 2 ^ reg_bits) by (apply Z.mod_pos_bound; lia).
  assert (Hlow : v mod 2 = b).
  { subst v. unfold shifted_in, wrap. fold b.
    rewrite Z.mod_mod_divide.
    - replace (2 * reg + b) with (b + reg * 2) by lia.
      rewrite Z.mod_add by lia. apply Z.mod_small. lia.
    - exists (2 ^ (reg_bits - 1)).
      replace reg_bits with (Z.succ (reg_bits - 1)) at 1 by lia.
      rewrite Z.pow_succ_r by lia. lia. }
  rewrite Z.shiftr_div_pow2, Z.shiftl_mul_pow2 by lia. change (2 ^ 1) with 2.
  unfold wrap. rewrite Zplus_mod_idemp_l.
  replace (v / 2 * 2 + b) with v.
  - apply Z.mod_small. exact Hv.
  - rewrite <- Hlow. pose proof (Z.div_mod v 2 ltac:(lia)). lia.
Qed.

End EncoderFacts.

Section EncoderOutput.

Import Encoder.

Variables (reg_bits sym_bits : Z).

Lemma lxor_b2z a b : Z.lxor (Z.b2z a) (Z.b2z b) = Z.b2z (xorb a b).
Proof. destruct a, b; reflexivity. Qed.

Lemma xor_fold (f g : nat -> bool) l :
  (forall j, In j l -> f j = g j) ->
  forall a,
    fold_left (fun sb j => Z.lxor sb (if f j then 1 else 0)) l (Z.b2z a)
    = Z.b2z (fold_left (fun a j => xorb a (g j)) l a).
Proof.
  induction l as [|j l IH]; intros H a; [reflexivity|].
  cbn [fold_left]. rewrite <- (H j) by (now left).
  change (if f j then 1 else 0) with (Z.b2z (f j)). rewrite lxor_b2z.
  apply IH. intros i Hi. apply H. now right.
Qed.

(** The inner loop of the output computation yields the XOR, over the
    registers, of the parity of (register AND tap). *)
Lemma symbol_bit_spec e regs ni :
  0 <= reg_bits ->
  (forall i, 0 <= i < k e -> 0 <= get 0 regs i < 2 ^ reg_bits) ->
  symbol_bit reg_bits e regs ni = Z.b2z (output_bit reg_bits e regs ni).
Proof.
  intros Hrb Hregs. unfold symbol_bit, output_bit, for_range.
  rewrite for_loop_fold, fold_left_map_eq. rewrite Z.sub_0_r.
  refine (xor_fold
    (fun j => xorbits reg_bits
                (Z.land (get 0 regs (0 + Z.of_nat j))
                   (get 0 (get [] (genpoly_representations e) (0 + Z.of_nat j)) ni)))
    (fun j => parity reg_bits
                (Z.land (get 0 regs (Z.of_nat j))
                   (get 0 (get [] (genpoly_representations e) (Z.of_nat j)) ni)))
    (seq 0 (Z.to_nat (k e))) _ false).
  intros j Hj. apply in_seq in Hj. rewrite Z.add_0_l.
  apply xorbits_parity; [exact Hrb|].
  apply land_range; [exact Hrb|]. apply Hregs. lia.
Qed.

Lemma testbit_add_high out b n j :
  0 <= n -> 0 <= out < 2 ^ n ->
  Z.testbit (out + Z.b2z b * 2 ^ n) j =
  if j <? n then Z.testbit out j else if j =? n then b else false.
Proof.
  intros Hn Hout.
  assert (Hp : 0 < 2 ^ n) by (apply Z.pow_pos_nonneg; lia).
  destruct (Z.ltb_spec j n) as [Hlt|Hge].
  - rewrite <- (Z.mod_pow2_bits_low (out + Z.b2z b * 2 ^ n) n j) by lia.
    rewrite Z.mod_add by lia. now rewrite Z.mod_small by lia.
  - replace j with ((j - n) + n) at 1 by lia.
    rewrite <- Z.div_pow2_bits by lia.
    rewrite Z.div_add, Z.div_small, Z.add_0_l by lia.
    destruct (Z.eqb_spec j n) as [->|Hne].
    + rewrite Z.sub_diag. apply Z.b2z_bit0.
    + destruct (j - n) as [|p|p] eqn:E; try lia.
      destruct b; [destruct p; reflexivity | reflexivity].
Qed.

(** The output symbol carries output bit [j] at position [j], for
    [j < n], and nothing above. *)
Lemma output_symbol_spec e regs :
  0 <= reg_bits -> 0 <= n e <= sym_bits ->
  (forall i, 0 <= i < k e -> 0 <= get 0 regs i < 2 ^ reg_bits) ->
  0 <= output_symbol reg_bits sym_bits e regs < 2 ^ n e
  /\ forall j, Z.testbit (output_symbol reg_bits sym_bits e regs) j
              = (0 <=? j) && (j <? n e) && output_bit reg_bits e regs j.
Proof.
  intros Hrb Hn Hregs. unfold output_symbol.
  apply (for_range_ind
    (fun ni out => 0 <= out < 2 ^ ni
       /\ forall j, Z.testbit out j = (0 <=? j) && (j <? ni) && output_bit reg_bits e regs j)).
  - lia.
  - split; [cbn; lia|]. intros j. rewrite Z.testbit_0_l.
    destruct (Z.leb_spec 0 j), (Z.ltb_spec j 0); cbn; auto; lia.
  - intros ni out Hni [Hout Hbits].
    rewrite symbol_bit_spec by assumption.
    rewrite Z.shiftl_mul_pow2 by lia.
    set (b := output_bit reg_bits e regs ni).
    assert (Hb : 0 <= Z.b2z b <= 1) by (destruct b; cbn; lia).
    assert (Hp : 0 < 2 ^ ni) by (apply Z.pow_pos_nonneg; lia).
    assert (Hnext : 2 ^ (ni + 1) = 2 * 2 ^ ni) by (rewrite Z.pow_add_r by lia; lia).
    assert (Hfit : 2 ^ (ni + 1) <= 2 ^ sym_bits) by (apply Z.pow_le_mono_r; lia).
    rewrite wrap_small by nia.
    split; [nia|].
    intros j. rewrite testbit_add_high by lia. rewrite Hbits.
    destruct (Z.leb_spec 0 j), (Z.ltb_spec j ni), (Z.ltb_spec j (ni + 1)),
      (Z.eqb_spec j ni); cbn; try lia; auto.
    subst j. reflexivity.
Qed.

End EncoderOutput.

(* ====================================================================== *)
(** * The encoder: claims on [encode] *)

Section EncodeClaims.

Import Encoder.

Lemma encode_registers_range reg_bits e x i :
  0 < reg_bits ->
  0 <= shifted_in reg_bits (get 0 (registers e) i) x i < 2 ^ reg_bits.
Proof.
  intros Hrb. unfold shifted_in, wrap. apply Z.mod_pos_bound.
  apply Z.pow_pos_nonneg; lia.
Qed.

Lemma encode_step_registers reg_bits sym_bits e x :
  wf reg_bits sym_bits e ->
  size (load_registers reg_bits e x false) = k e
  /\ (forall i, 0 <= i < k e ->
        get 0 (load_registers reg_bits e x false) i
        = shifted_in reg_bits (get 0 (registers e) i) x i)
  /\ wf reg_bits sym_bits (with_registers e (load_registers reg_bits e x false)).
Proof.
  intros Hwf. destruct (encoder_wf_unpack _ _ e Hwf) as (Hrb & Hk & Hsize & Hrange & Hn).
  destruct (load_registers_spec reg_bits e x false Hk Hsize) as [Hl Hg].
  assert (Hsize' : size (load_registers reg_bits e x false) = k e)
    by (unfold size in *; lia).
  assert (Hg' : forall i, 0 <= i < k e ->
            get 0 (load_registers reg_bits e x false) i
            = shifted_in reg_bits (get 0 (registers e) i) x i).
  { intros i Hi. rewrite Hg by exact Hi. apply clocked_step. lia. }
  split; [exact Hsize'|]. split; [exact Hg'|].
  unfold wf, wfb. cbn [with_registers k n registers].
  rewrite !andb_true_iff. repeat split;
    try (first [apply Z.ltb_lt | apply Z.leb_le | apply Z.eqb_eq]; lia).
  apply forallb_forall. intros v Hv.
  destruct (In_nth _ _ 0 Hv) as (j & Hj & <-).
  assert (Hv' : nth j (load_registers reg_bits e x false) 0
                = shifted_in reg_bits (get 0 (registers e) (Z.of_nat j)) x (Z.of_nat j)).
  { rewrite <- Hg' by (unfold size in *; lia). unfold get. now rewrite Nat2Z.id. }
  rewrite Hv'.
  pose proof (encode_registers_range reg_bits e x (Z.of_nat j) Hrb) as Hr.
  apply andb_true_iff. split; [apply Z.leb_le | apply Z.ltb_lt]; lia.
Qed.

(** Claim C2.  For a well-formed encoder and any input symbol, [encode]
    (with [no_step] false) replaces each register [i < k] by its value
    shifted left by one, with bit [i] of the input symbol inserted, reduced
    to the register width; the output symbol then has, at each position
    [j < n], the XOR over the [k] registers of the parity (population
    count modulo 2) of (register AND tap-vector[i][j]), and no bit set at
    position [n] or above; the bit-counting loop of [xorbits] ends with
    its working copy at zero.  With k = 1, n = 2, constraint length 3 and tap
    vectors (0b111, 0b101), encoding the bits 1, 0, 1, 1 from the cleared
    state gives the symbols 3, 1, 0, 2. *)
Theorem encode_shift_and_parity reg_bits sym_bits e x :
  wf reg_bits sym_bits e ->
  (let '(ok, out, e') := encode reg_bits sym_bits e x false in
   same_code e e'
   /\ wf reg_bits sym_bits e'
   /\ size (registers e') = k e
   /\ (forall i, 0 <= i < k e ->
         get 0 (registers e') i = shifted_in reg_bits (get 0 (registers e) i) x i)
   /\ (forall j, 0 <= j < n e ->
         Z.testbit out j = output_bit reg_bits e (registers e') j)
   /\ (forall j, n e <= j -> Z.testbit out j = false)
   /\ 0 <= out < 2 ^ n e
   /\ (forall i j, 0 <= i < k e ->
         xorbits_cond
           (xorbits_loop reg_bits
              (Z.land (get 0 (registers e') i)
                 (get 0 (get [] (genpoly_representations e) i) j))) = false))
  /\ (exists golden,
        construct 8 8 1 [3] [[7; 5]] = Ok golden
        /\ k golden = 1 /\ n golden = 2
        /\ fst (encode_all 8 8 (clear 1 golden)
                  [(1, false); (0, false); (1, false); (1, false)])
           = [3; 1; 0; 2]).
Proof.
  intros Hwf. split.
  - destruct (encoder_wf_unpack _ _ e Hwf) as (Hrb & Hk & Hsize & Hrange & Hn).
    destruct (encode_step_registers reg_bits sym_bits e x Hwf) as (Hs & Hg & Hwf').
    unfold encode. cbn [with_registers registers].
    assert (Hregs : forall i, 0 <= i < k e ->
              0 <= get 0 (load_registers reg_bits e x false) i < 2 ^ reg_bits).
    { intros i Hi. rewrite Hg by exact Hi. now apply encode_registers_range. }
    destruct (output_symbol_spec reg_bits sym_bits e (load_registers reg_bits e x false))
      as [Hout Hbits]; try lia; auto.
    repeat apply conj; auto; try reflexivity; try lia.
    + intros j Hj. rewrite Hbits.
      destruct (Z.leb_spec 0 j), (Z.ltb_spec j (n e)); cbn; auto; lia.
    + intros j Hj. rewrite Hbits.
      destruct (Z.leb_spec 0 j), (Z.ltb_spec j (n e)); cbn; auto; lia.
    + intros i j Hi. apply xorbits_parity; [lia|].
      apply land_range; [lia | now apply Hregs].
  - eexists. repeat split.
Qed.

Lemma encode_shift_and_parity_witness :
  let e := mk 1 2 3 [3] [[7; 5]] [5] in
  wf 8 8 e
  /\ (forall i, 0 <= i < 1 ->
        get 0 (registers (snd (encode 8 8 e 1 false))) i
        = shifted_in 8 (get 0 (registers e) i) 1 i)
  /\ encode 8 8 e 1 false = (true, 2, mk 1 2 3 [3] [[7; 5]] [11]).
Proof.
  intros e.
  assert (Hwf : wf 8 8 e) by reflexivity.
  pose proof (proj1 (encode_shift_and_parity 8 8 e 1 Hwf)) as H.
  split; [exact Hwf|]. split; [|reflexivity].
  change (encode 8 8 e 1 false) with (true, 2, mk 1 2 3 [3] [[7; 5]] [11]) in *.
  cbv beta iota in H. destruct H as (_ & _ & _ & Hregs & _). exact Hregs.
Defined.

(** Claim C8.  For a well-formed encoder and any input symbol [x],
    [encode x] with [no_step] set, issued right after [encode x] without
    it, returns the same output symbol and leaves the encoder as the first
    call left it -- whatever the registers held before, in particular when
    the first call shifted a set most significant bit out. *)
Theorem encode_replay reg_bits sym_bits e x :
  wf reg_bits sym_bits e ->
  let '(_, out1, e1) := encode reg_bits sym_bits e x false in
  let '(_, out2, e2) := encode reg_bits sym_bits e1 x true in
  out2 = out1 /\ e2 = e1 /\ registers e2 = registers e1.
Proof.
  intros Hwf. destruct (encoder_wf_unpack _ _ e Hwf) as (Hrb & Hk & Hsize & Hrange & Hn).
  destruct (encode_step_registers reg_bits sym_bits e x Hwf) as (Hs & Hg & Hwf').
  unfold encode.
  set (r1 := load_registers reg_bits e x false) in *.
  set (e1 := with_registers e r1) in *.
  assert (Hreplay : load_registers reg_bits e1 x true = r1).
  { destruct (load_registers_spec reg_bits e1 x true) as [Hl Hg1]; [exact Hk | exact Hs |].
    cbn [e1 with_registers registers k] in Hl, Hg1.
    apply (get_ext 0); [exact Hl|].
    intros i Hi. rewrite Hl in Hi. unfold size in Hs.
    rewrite Hg1 by lia. rewrite Hg by lia.
    apply clocked_replay; lia. }
  rewrite Hreplay. repeat split.
Qed.

Lemma encode_replay_witness :
  let e := mk 1 2 3 [3] [[7; 5]] [200] in
  wf 8 8 e
  /\ (let '(_, out1, e1) := encode 8 8 e 1 false in
      let '(_, out2, e2) := encode 8 8 e1 1 true in
      out2 = out1 /\ e2 = e1 /\ registers e2 = registers e1)
  /\ encode 8 8 e 1 false = (true, 3, mk 1 2 3 [3] [[7; 5]] [145])
  /\ encode 8 8 (mk 1 2 3 [3] [[7; 5]] [145]) 1 true
     = (true, 3, mk 1 2 3 [3] [[7; 5]] [145]).
Proof.
  intros e.
  assert (Hwf : wf 8 8 e) by reflexivity.
  split; [exact Hwf|].
  split; [exact (encode_replay 8 8 e 1 Hwf)|].
  split; reflexivity.
Defined.

End EncodeClaims.

(* ====================================================================== *)
(** * The encoder: snapshots of the registers *)

Section StateFork.

Import Encoder.

Variables (reg_bits sym_bits : Z).

Lemma with_registers_twice e r1 r2 :
  with_registers (with_registers e r1) r2 = with_registers e r2.
Proof. reflexivity. Qed.

Lemma with_registers_same e : with_registers e (registers e) = e.
Proof. destruct e; reflexivity. Qed.

(** A sequence of [encode] calls changes the registers only. *)
Lemma encode_all_config inputs :
  forall e,
    snd (encode_all reg_bits sym_bits e inputs)
    = with_registers e (registers (snd (encode_all reg_bits sym_bits e inputs))).
Proof.
  induction inputs as [|[x no_step] rest IH]; intros e.
  - cbn [encode_all snd]. symmetry. apply with_registers_same.
  - cbn [encode_all]. unfold encode.
    specialize (IH (with_registers e (load_registers reg_bits e x no_step))).
    destruct (encode_all reg_bits sym_bits
                (with_registers e (load_registers reg_bits e x no_step)) rest)
      as [outs e2].
    cbn [snd] in *. rewrite IH at 1. apply with_registers_twice.
Qed.

(** The outcome of [encode] depends on the code and on the registers,
    not on [m] nor on the constraint lengths. *)
Lemma encode_deterministic e e' x no_step :
  same_code e e' -> registers e = registers e' ->
  fst (encode reg_bits sym_bits e x no_step) = fst (encode reg_bits sym_bits e' x no_step)
  /\ registers (snd (encode reg_bits sym_bits e x no_step))
     = registers (snd (encode reg_bits sym_bits e' x no_step)).
Proof.
  intros (Hk & Hn & Hg) Hr. destruct e, e'. cbn in Hk, Hn, Hg, Hr. subst.
  split; reflexivity.
Qed.

(** Claim C7.  For any encoder, any register contents and any sequence of
    [encode] calls (each with its own [no_step] flag): taking the register
    array with [get_registers], running the sequence, putting the array
    back with [set_registers] and running the same sequence again gives
    the same output symbols; putting the array back restores the encoder
    exactly; [get_registers] after [set_registers] returns the array that
    was set; and two encoders of the same code with the same register
    contents return the same output and end with the same registers on
    every input. *)
Theorem state_fork e inputs :
  (let snapshot := get_registers e in
   let '(outs1, e1) := encode_all reg_bits sym_bits e inputs in
   let e2 := set_registers e1 snapshot in
   e2 = e /\ fst (encode_all reg_bits sym_bits e2 inputs) = outs1)
  /\ (forall regs, get_registers (set_registers e regs) = regs)
  /\ set_registers e (get_registers e) = e
  /\ (forall e' x no_step,
        same_code e e' -> registers e = registers e' ->
        fst (encode reg_bits sym_bits e x no_step)
        = fst (encode reg_bits sym_bits e' x no_step)
        /\ registers (snd (encode reg_bits sym_bits e x no_step))
           = registers (snd (encode reg_bits sym_bits e' x no_step))).
Proof.
  repeat apply conj.
  - cbv zeta. pose proof (encode_all_config inputs e) as Hcfg.
    destruct (encode_all reg_bits sym_bits e inputs) as [outs1 e1] eqn:E.
    cbn [snd] in Hcfg.
    assert (Hback : set_registers e1 (get_registers e) = e).
    { unfold set_registers, get_registers. rewrite Hcfg, with_registers_twice.
      apply with_registers_same. }
    split; [exact Hback|]. rewrite Hback, E. reflexivity.
  - reflexivity.
  - apply with_registers_same.
  - intros e' x no_step. apply encode_deterministic.
Qed.

End StateFork.

Section StateForkWitness.

Import Encoder.

Lemma state_fork_witness :
  let e := mk 1 2 3 [3] [[7; 5]] [2] in
  let e' := mk 1 2 9 [9] [[7; 5]] [2] in
  let inputs := [(1, false); (0, false); (1, true); (1, false)] in
  same_code e e' /\ registers e = registers e'
  /\ fst (encode 8 8 e 1 false) = fst (encode 8 8 e' 1 false)
  /\ fst (encode_all 8 8
            (set_registers (snd (encode_all 8 8 e inputs)) (get_registers e)) inputs)
     = fst (encode_all 8 8 e inputs).
Proof.
  intros e e' inputs.
  assert (Hcode : same_code e e') by (repeat split).
  assert (Hregs : registers e = registers e') by reflexivity.
  destruct (state_fork 8 8 e inputs) as (Hfork & _ & _ & Hdet).
  split; [exact Hcode|]. split; [exact Hregs|]. split.
  - exact (proj1 (Hdet e' 1 false Hcode Hregs)).
  - destruct (encode_all 8 8 e inputs) as [outs1 e1]. cbn [fst snd].
    exact (proj2 Hfork).
Defined.

End StateForkWitness.

(* ====================================================================== *)
(** * The encoder: construction *)

Section Construction.

Import Encoder.

Variables (reg_bits sym_bits N_k : Z).

Lemma firstn_succ_get {A} (d : A) (l : list A) i :
  (i < List.length l)%nat -> firstn (S i) l = firstn i l ++ [nth i l d].
Proof.
  revert i. induction l as [|x l IH]; intros i Hi; [cbn in Hi; lia|].
  destruct i as [|i]; [reflexivity|].
  cbn [firstn nth app]. f_equal. apply IH. cbn in Hi. lia.
Qed.

Lemma fold_min_snoc l init x :
  fold_left Z.min (l ++ [x]) init = Z.min (fold_left Z.min l init) x.
Proof. now rewrite fold_left_app. Qed.

(** The loop of the constructor: it throws exactly when one of the
    constraint lengths read so far exceeds the register width, and else
    holds the smallest tap-vector length read so far. *)
Lemma scan_constraints_spec _constraints _genpoly min0 :
  size _genpoly = size _constraints ->
  sizes_fit _genpoly ->
  match for_range 0 (size _constraints) (scan_constraint reg_bits _constraints _genpoly)
          (Ok (min0, 0)) with
  | Throw _ => exists c, In c _constraints /\ reg_bits < c
  | Ok (min_nb_outputs, _) =>
      (forall c, In c _constraints -> c <= reg_bits)
      /\ min_nb_outputs = fold_left Z.min (map size _genpoly) min0
  end.
Proof.
  intros Hsize Hfit.
  assert (H :
    (fun ci st =>
       match st with
       | Throw _ => exists c, In c _constraints /\ reg_bits < c
       | Ok (min_nb_outputs, _) =>
           (forall j, 0 <= j < ci -> get 0 _constraints j <= reg_bits)
           /\ min_nb_outputs
              = fold_left Z.min (map size (firstn (Z.to_nat ci) _genpoly)) min0
       end)
    (size _constraints)
    (for_range 0 (size _constraints) (scan_constraint reg_bits _constraints _genpoly)
       (Ok (min0, 0)))).
  { apply for_range_ind.
    - unfold size. lia.
    - split; [intros j Hj; lia | reflexivity].
    - intros ci st Hci Hst. unfold scan_constraint.
      destruct st as [[mn mx]|msg]; cbn [bind]; [|exact Hst].
      destruct Hst as [Hle Hmin].
      destruct (Z.gtb_spec (get 0 _constraints ci) reg_bits) as [Hbig|Hok]; cbn [negb].
      + exists (get 0 _constraints ci). split; [|lia].
        unfold get. apply nth_In. unfold size in Hci. lia.
      + split.
        * intros j Hj. destruct (Z.eq_dec j ci) as [->|]; [lia | apply Hle; lia].
        * replace (Z.to_nat (ci + 1)) with (S (Z.to_nat ci)) by lia.
          rewrite (firstn_succ_get [] _genpoly) by (unfold size in *; lia).
          rewrite map_app. cbn [map]. rewrite fold_min_snoc, <- Hmin.
          fold (get [] _genpoly ci).
          assert (Hget : 0 <= size (get [] _genpoly ci) < 2 ^ 32).
          { split; [unfold size; lia|].
            unfold sizes_fit in Hfit. rewrite Forall_forall in Hfit. apply Hfit.
            unfold get. apply nth_In. unfold size in *. lia. }
          rewrite u32_small by exact Hget.
          destruct (Z.ltb_spec (size (get [] _genpoly ci)) mn); lia. }
  destruct (for_range 0 (size _constraints) (scan_constraint reg_bits _constraints _genpoly)
              (Ok (min0, 0))) as [[mn mx]|msg]; [|exact H].
  destruct H as [Hle Hmin]. split.
  - intros c Hc. destruct (In_nth _ _ 0 Hc) as (j & Hj & <-).
    specialize (Hle (Z.of_nat j)). unfold get in Hle. rewrite Nat2Z.id in Hle.
    apply Hle. unfold size. lia.
  - rewrite Hmin.
    replace (Z.to_nat (size _constraints)) with (List.length _genpoly)
      by (unfold size in *; lia).
    now rewrite firstn_all.
Qed.

Lemma min_tap_length_fold _genpoly :
  0 < size _genpoly ->
  fold_left Z.min (map size _genpoly) (size (get [] _genpoly 0))
  = min_tap_length _genpoly.
Proof.
  intros Hne. destruct _genpoly as [|v vs]; [cbn in Hne; lia|].
  cbn [map fold_left min_tap_length]. unfold get. cbn [Z.to_nat nth].
  now rewrite Z.min_id.
Qed.

(** When the constructor throws, and when it does not. *)
Lemma construct_outcome _constraints _genpoly :
  0 < N_k -> sizes_fit _genpoly ->
  match construct reg_bits sym_bits N_k _constraints _genpoly with
  | Throw _ => rejected reg_bits sym_bits N_k _constraints _genpoly
  | Ok e =>
      ~ rejected reg_bits sym_bits N_k _constraints _genpoly
      /\ k e = N_k /\ n e = min_tap_length _genpoly
      /\ registers e = clear_registers N_k
  end.
Proof.
  intros Hk Hfit. unfold construct, rejected.
  destruct (Z.eqb_spec (size _constraints) N_k) as [Hcs|Hcs]; [|now left].
  destruct (Z.gtb_spec N_k sym_bits) as [Hwide|Hwide]; cbn [negb].
  { (* more input bits than the symbol has: n is too small or too large *)
    destruct (Z.le_gt_cases (min_tap_length _genpoly) N_k); [|right; right; right; right; lia].
    right; right; right; left. assumption. }
  destruct (Z.eqb_spec (size _genpoly) N_k) as [Hgp|Hgp]; [|now right; right; left].
  assert (Hfirst : 0 <= size (get [] _genpoly 0) < 2 ^ 32).
  { split; [unfold size; lia|].
    unfold sizes_fit in Hfit. rewrite Forall_forall in Hfit. apply Hfit.
    unfold get. apply nth_In. unfold size in *. cbn. lia. }
  rewrite (u32_small (size (get [] _genpoly 0))) by exact Hfirst.
  pose proof (scan_constraints_spec _constraints _genpoly (size (get [] _genpoly 0))
                ltac:(lia) Hfit) as Hscan.
  destruct (for_range 0 (size _constraints)
              (scan_constraint reg_bits _constraints _genpoly)
              (Ok (size (get [] _genpoly 0), 0))) as [[mn mx]|msg]; cbn [bind].
  - destruct Hscan as [Hle Hmin].
    rewrite min_tap_length_fold in Hmin by lia. subst mn.
    destruct (Z.leb_spec (min_tap_length _genpoly) N_k) as [Hsmall|Hlarge]; cbn [negb].
    { right; right; right; left. assumption. }
    destruct (Z.gtb_spec (min_tap_length _genpoly) sym_bits) as [Hover|Hfits]; cbn [negb].
    { right; right; right; right. lia. }
    split; [|repeat split].
    intros [H|[(c & Hc & Hbig)|[H|[H|H]]]]; try lia.
    specialize (Hle c Hc). lia.
  - right; left. exact Hscan.
Qed.

End Construction.

Section ConstructionClaims.

Import Encoder.



End ConstructionClaims.

(* ====================================================================== *)
(** * The representation invariants are those of constructed objects *)

Section MatrixInvariant.

Import F32 RelMat.

Lemma wf_pack r :
  0 <= _nb_symbols_log2 r < 32 ->
  _nb_symbols r = 2 ^ _nb_symbols_log2 r ->
  0 <= _message_length r ->
  _nb_symbols r * _message_length r < 2 ^ 32 ->
  0 <= _message_symbol_count r <= _message_length r ->
  Z.of_nat (List.length (_matrix r)) = _nb_symbols r * _message_length r ->
  wf r.
Proof.
  intros H1 H2 H3 H4 H5 H6. unfold wf, wfb. rewrite !andb_true_iff.
  repeat split; first [apply Z.leb_le | apply Z.ltb_lt | apply Z.eqb_eq]; lia.
Qed.

Lemma fill_length {A} (v : A) sz (a : list A) :
  List.length (for_range 0 sz (fun i mat => set mat i v) a) = List.length a.
Proof.
  destruct (Z.le_gt_cases 0 sz) as [Hsz|Hsz].
  - apply (for_range_ind (fun _ mat => List.length mat = List.length a)); auto.
    intros j t _ Ht. now rewrite length_set.
  - rewrite for_range_empty by lia. reflexivity.
Qed.

(** The constructor yields a well-formed matrix whenever the element
    count fits [unsigned int]. *)
Lemma create_wf nb_symbols_log2 message_length :
  0 <= nb_symbols_log2 < 32 -> 0 <= message_length ->
  2 ^ nb_symbols_log2 * message_length < 2 ^ 32 ->
  wf (create nb_symbols_log2 message_length).
Proof.
  intros Hlg Hml Hsz.
  assert (Hp : 0 < 2 ^ nb_symbols_log2) by (apply Z.pow_pos_nonneg; lia).
  assert (Hnb : u32 (Z.shiftl 1 nb_symbols_log2) = 2 ^ nb_symbols_log2).
  { rewrite Z.shiftl_mul_pow2, Z.mul_1_l by lia. apply u32_small.
    split; [lia|]. apply Z.pow_lt_mono_r; lia. }
  apply wf_pack; unfold create;
    cbn [_nb_symbols_log2 _nb_symbols _message_length _message_symbol_count _matrix];
    rewrite ?Hnb; try lia.
  rewrite fill_length, repeat_length, u32_small by nia. nia.
Qed.

Lemma column_written_wf r r' c vals :
  wf r -> column_written r r' c vals ->
  0 <= _message_symbol_count r' <= _message_length r ->
  wf r'.
Proof.
  intros Hwf (H1 & H2 & H3 & H4 & _) Hcount.
  destruct (wf_unpack r Hwf) as (Hlg & Hnb & _ & Hml & Hsz & _ & Hlen).
  apply wf_pack; rewrite ?H1, ?H2, ?H3, ?H4; auto.
Qed.

Lemma enter_symbol_data_wf r data : wf r -> wf (enter_symbol_data r data).
Proof.
  intros Hwf. destruct (wf_unpack r Hwf) as (_ & _ & _ & _ & _ & Hcount & _).
  destruct (Z.lt_ge_cases (_message_symbol_count r) (_message_length r)) as [Hlt|Hge].
  - destruct (enter_symbol_data_written r data Hwf Hlt) as [Hw Hc].
    apply (column_written_wf r _ _ _ Hwf Hw). lia.
  - unfold enter_symbol_data.
    destruct (Z.ltb_spec (_message_symbol_count r) (_message_length r)); [lia | exact Hwf].
Qed.

Lemma enter_erasure_wf r : wf r -> wf (enter_erasure r).
Proof.
  intros Hwf. destruct (wf_unpack r Hwf) as (_ & _ & _ & _ & _ & Hcount & _).
  destruct (Z.lt_ge_cases (_message_symbol_count r) (_message_length r)) as [Hlt|Hge].
  - destruct (enter_erasure_written r Hwf Hlt) as [Hw Hc].
    apply (column_written_wf r _ _ _ Hwf Hw). lia.
  - unfold enter_erasure.
    destruct (Z.ltb_spec (_message_symbol_count r) (_message_length r)); [lia | exact Hwf].
Qed.

Lemma normalize_wf r : wf r -> wf (normalize r).
Proof.
  intros Hwf. destruct (wf_unpack r Hwf) as (_ & _ & Hnb & Hml & Hsz & _).
  destruct (Z.eq_dec (_message_length r) (2 ^ 32 - 1)) as [Hmax|Hmax].
  - now rewrite normalize_at_max_length.
  - assert (Hlt : _message_length r < 2 ^ 32 - 1) by nia.
    destruct (normalize_cells r Hwf Hlt) as [Hl _].
    apply wf_with_matrix; assumption.
Qed.

Lemma deinterleave_wf r :
  wf r -> 1 <= _message_length r < 2 ^ 31 -> wf (deinterleave r).
Proof.
  intros Hwf Hml. rewrite (proj1 (deinterleave_run r Hwf Hml)).
  destruct (spec_sources_facts r Hml) as (_ & Hlen & Hall).
  destruct (run_cells r (_matrix r) Hwf (spec_sources r) (_matrix r) 0 Hall eq_refl)
    as [Hl _]; try lia.
  now apply wf_with_matrix.
Qed.

End MatrixInvariant.

Section EncoderInvariant.

Import Encoder.

Lemma clear_registers_range reg_bits N_k :
  0 < reg_bits ->
  forallb (fun x => (0 <=? x) && (x <? 2 ^ reg_bits)) (clear_registers N_k) = true.
Proof.
  intros Hrb. apply forallb_forall. intros x Hx.
  apply repeat_spec in Hx. subst x.
  assert (0 < 2 ^ reg_bits) by (apply Z.pow_pos_nonneg; lia).
  apply andb_true_iff. split; [apply Z.leb_le | apply Z.ltb_lt]; lia.
Qed.

(** An encoder the constructor returns is well formed. *)
Lemma construct_wf reg_bits sym_bits N_k _constraints _genpoly e :
  0 < reg_bits -> 0 < N_k -> sizes_fit _genpoly ->
  construct reg_bits sym_bits N_k _constraints _genpoly = Ok e ->
  wf reg_bits sym_bits e.
Proof.
  intros Hrb Hk Hfit E.
  pose proof (construct_outcome reg_bits sym_bits N_k _constraints _genpoly Hk Hfit) as H.
  rewrite E in H. destruct H as (Hnot & Hke & Hne & Hregs).
  unfold rejected in Hnot.
  unfold wf, wfb. rewrite Hregs, Hke, Hne, clear_registers_range by exact Hrb.
  rewrite !andb_true_iff. repeat split;
    first [apply Z.ltb_lt | apply Z.leb_le | apply Z.eqb_eq]; try lia.
  unfold size, clear_registers. rewrite repeat_length. lia.
Qed.

(** [clear] keeps an encoder well formed. *)
Lemma clear_wf reg_bits sym_bits e :
  wf reg_bits sym_bits e -> wf reg_bits sym_bits (clear (k e) e).
Proof.
  intros Hwf. destruct (encoder_wf_unpack _ _ e Hwf) as (Hrb & Hk & _ & _ & Hn).
  unfold wf, wfb, clear. cbn [with_registers k n registers].
  rewrite clear_registers_range by exact Hrb.
  rewrite !andb_true_iff. repeat split;
    first [apply Z.ltb_lt | apply Z.leb_le | apply Z.eqb_eq]; try lia.
  unfold size, clear_registers. rewrite repeat_length. lia.
Qed.

End EncoderInvariant.

(* ====================================================================== *)
(** * Beyond the claims: the encoder *)

Section EncoderInvariantMore.

Import Encoder EncoderExt.

Variables (reg_bits sym_bits : Z).

Lemma clocked_range no_step reg w_in :
  0 < reg_bits -> 0 <= clocked reg_bits no_step reg w_in < 2 ^ reg_bits.
Proof.
  intros Hrb. unfold clocked, wrap. apply Z.mod_pos_bound.
  apply Z.pow_pos_nonneg; lia.
Qed.

Lemma wf_with_registers e regs :
  wf reg_bits sym_bits e -> size regs = k e ->
  (forall i, 0 <= i < k e -> 0 <= get 0 regs i < 2 ^ reg_bits) ->
  wf reg_bits sym_bits (with_registers e regs).
Proof.
  intros Hwf Hsize Hrange.
  destruct (encoder_wf_unpack _ _ e Hwf) as (Hrb & Hk & _ & _ & Hn).
  unfold wf, wfb. cbn [with_registers k n registers].
  rewrite !andb_true_iff. repeat split;
    try (first [apply Z.ltb_lt | apply Z.leb_le | apply Z.eqb_eq]; lia).
  apply forallb_forall. intros v Hv.
  destruct (In_nth _ _ 0 Hv) as (j & Hj & <-).
  specialize (Hrange (Z.of_nat j)). unfold get in Hrange. rewrite Nat2Z.id in Hrange.
  unfold size in Hsize.
  apply andb_true_iff. split; [apply Z.leb_le | apply Z.ltb_lt]; lia.
Qed.

Lemma in_width_get regs i :
  in_width reg_bits regs -> 0 <= i < size regs ->
  0 <= get 0 regs i < 2 ^ reg_bits.
Proof.
  intros Hw Hi. unfold in_width in Hw. rewrite Forall_forall in Hw.
  apply Hw. unfold get. apply nth_In. unfold size in Hi. lia.
Qed.

Lemma encode_any_wf e x no_step :
  wf reg_bits sym_bits e ->
  wf reg_bits sym_bits (snd (encode reg_bits sym_bits e x no_step))
  /\ size (registers (snd (encode reg_bits sym_bits e x no_step))) = k e.
Proof.
  intros Hwf. destruct (encoder_wf_unpack _ _ e Hwf) as (Hrb & Hk & Hsize & _ & _).
  destruct (load_registers_spec reg_bits e x no_step Hk Hsize) as [Hl Hg].
  assert (Hs : size (load_registers reg_bits e x no_step) = k e)
    by (unfold size in *; lia).
  unfold encode. cbn [snd with_registers registers]. split; [|exact Hs].
  apply wf_with_registers; auto.
  intros i Hi. rewrite Hg by exact Hi. now apply clocked_range.
Qed.

Lemma encode_all_wf inputs :
  forall e, wf reg_bits sym_bits e ->
    wf reg_bits sym_bits (snd (encode_all reg_bits sym_bits e inputs)).
Proof.
  induction inputs as [|[x no_step] rest IH]; intros e Hwf; [exact Hwf|].
  cbn [encode_all].
  pose proof (proj1 (encode_any_wf e x no_step Hwf)) as H1.
  destruct (encode reg_bits sym_bits e x no_step) as [[ok out] e1]. cbn [snd] in H1.
  specialize (IH e1 H1).
  destruct (encode_all reg_bits sym_bits e1 rest) as [outs e2]. exact IH.
Qed.

(** Property X1.
    The representation invariant of the encoder is kept by every
    operation: [encode] (with or without [no_step]), a sequence of
    [encode] calls, [clear], and [set_registers] with an array of [k]
    registers of the register width. *)
Theorem encoder_keeps_invariant e :
  wf reg_bits sym_bits e ->
  (forall x no_step, wf reg_bits sym_bits (snd (encode reg_bits sym_bits e x no_step)))
  /\ (forall inputs, wf reg_bits sym_bits (snd (encode_all reg_bits sym_bits e inputs)))
  /\ wf reg_bits sym_bits (clear (k e) e)
  /\ (forall regs, size regs = k e -> in_width reg_bits regs ->
        wf reg_bits sym_bits (set_registers e regs)).
Proof.
  intros Hwf. repeat apply conj.
  - intros x no_step. now apply encode_any_wf.
  - intros inputs. now apply encode_all_wf.
  - now apply clear_wf.
  - intros regs Hsize Hw. unfold set_registers. apply wf_with_registers; auto.
    intros i Hi. apply in_width_get; [exact Hw | lia].
Qed.

End EncoderInvariantMore.

Section EncoderInvariantWitness.

Import Encoder EncoderExt.

Lemma encoder_keeps_invariant_witness :
  let e := mk 1 2 3 [3] [[7; 5]] [200] in
  wf 8 8 e
  /\ wf 8 8 (snd (encode 8 8 e 1 true))
  /\ wf 8 8 (set_registers e [255]).
Proof.
  intros e.
  assert (Hwf : wf 8 8 e) by reflexivity.
  destruct (encoder_keeps_invariant 8 8 e Hwf) as (Henc & _ & _ & Hset).
  split; [exact Hwf|]. split; [apply Henc|].
  apply Hset; [reflexivity|].
  repeat constructor; cbn; discriminate.
Defined.

End EncoderInvariantWitness.

Section ConstructionMore.

Import Encoder EncoderExt.

Variables (reg_bits sym_bits N_k : Z).

Lemma fold_max_snoc l init x :
  fold_left Z.max (l ++ [x]) init = Z.max (fold_left Z.max l init) x.
Proof. now rewrite fold_left_app. Qed.

Lemma fold_max_bounds l :
  forall init, init <= fold_left Z.max l init
               /\ forall c, In c l -> c <= fold_left Z.max l init.
Proof.
  induction l as [|x l IH]; intros init; cbn [fold_left].
  - split; [lia | intros c []].
  - destruct (IH (Z.max init x)) as [H1 H2]. split; [lia|].
    intros c [<-|Hc]; [lia | now apply H2].
Qed.

(** The second accumulator of the constructor's loop is the largest
    constraint length read so far. *)
Lemma scan_constraints_max _constraints _genpoly min0 :
  match for_range 0 (size _constraints) (scan_constraint reg_bits _constraints _genpoly)
          (Ok (min0, 0)) with
  | Throw _ => True
  | Ok (_, m) => m = max_constraint _constraints
  end.
Proof.
  assert (H :
    (fun ci st =>
       match st with
       | Throw _ => True
       | Ok (_, m) => m = fold_left Z.max (firstn (Z.to_nat ci) _constraints) 0
       end)
    (size _constraints)
    (for_range 0 (size _constraints) (scan_constraint reg_bits _constraints _genpoly)
       (Ok (min0, 0)))).
  { apply for_range_ind.
    - unfold size. lia.
    - reflexivity.
    - intros ci st Hci Hst. unfold scan_constraint.
      destruct st as [[mn mx]|msg]; cbn [bind]; [|exact I].
      destruct (get 0 _constraints ci >? reg_bits); cbn [negb]; [exact I|].
      replace (Z.to_nat (ci + 1)) with (S (Z.to_nat ci)) by lia.
      rewrite (firstn_succ_get 0 _constraints) by (unfold size in *; lia).
      rewrite fold_max_snoc, <- Hst. fold (get 0 _constraints ci).
      destruct (Z.gtb_spec (get 0 _constraints ci) mx); lia. }
  destruct (for_range 0 (size _constraints) (scan_constraint reg_bits _constraints _genpoly)
              (Ok (min0, 0))) as [[mn mx]|msg]; [|exact I].
  rewrite H. unfold size, max_constraint. now rewrite Nat2Z.id, firstn_all.
Qed.

(** Property X2.
    What a successful construction establishes: [k] is the template
    parameter, [n] the shortest tap-vector length, [m] the largest
    constraint length; the vectors are stored as given and the registers
    are cleared; and [k < n <= symbol width], every constraint length is at
    most [m] and at most the register width. *)
Theorem construct_fields _constraints _genpoly e :
  0 < N_k -> sizes_fit _genpoly ->
  construct reg_bits sym_bits N_k _constraints _genpoly = Ok e ->
  get_k e = N_k
  /\ get_n e = min_tap_length _genpoly
  /\ get_m e = max_constraint _constraints
  /\ constraints e = _constraints
  /\ genpoly_representations e = _genpoly
  /\ get_registers e = repeat 0 (Z.to_nat N_k)
  /\ N_k < get_n e <= sym_bits
  /\ size _constraints = N_k /\ size _genpoly = N_k
  /\ (forall v, In v _genpoly -> get_n e <= size v)
  /\ (forall c, In c _constraints -> c <= get_m e /\ c <= reg_bits).
Proof.
  intros Hk Hfit E.
  pose proof (construct_outcome reg_bits sym_bits N_k _constraints _genpoly Hk Hfit) as H.
  rewrite E in H. destruct H as (Hnot & Hke & Hne & Hregs).
  unfold rejected in Hnot.
  assert (Hcs : size _constraints = N_k) by lia.
  assert (Hgp : size _genpoly = N_k) by lia.
  assert (Hfields : m e = max_constraint _constraints
                    /\ constraints e = _constraints
                    /\ genpoly_representations e = _genpoly).
  { unfold construct in E.
    destruct (size _constraints =? N_k); [|discriminate].
    destruct (negb (N_k >? sym_bits)); [|discriminate].
    destruct (size _genpoly =? N_k); [|discriminate].
    pose proof (scan_constraints_max _constraints _genpoly
                  (u32 (size (get [] _genpoly 0)))) as Hm.
    destruct (for_range 0 (size _constraints)
                (scan_constraint reg_bits _constraints _genpoly)
                (Ok (u32 (size (get [] _genpoly 0)), 0))) as [[mn mx]|msg];
      cbn [bind] in E; [|discriminate].
    destruct (negb (mn <=? N_k)); [|discriminate].
    destruct (negb (mn >? sym_bits)); [|discriminate].
    injection E as <-. cbn [m constraints genpoly_representations]. auto. }
  destruct Hfields as (Hm & Hc & Hg).
  unfold get_k, get_n, get_m, get_registers.
  repeat apply conj; auto; try lia.
  - intros v Hv. rewrite Hne.
    destruct _genpoly as [|v0 vs]; [destruct Hv|].
    cbn [min_tap_length].
    assert (Hmin : forall l init,
              fold_left Z.min l init <= init
              /\ forall c, In c l -> fold_left Z.min l init <= c).
    { induction l as [|y l IH]; intros init; cbn [fold_left].
      - split; [lia | intros c []].
      - destruct (IH (Z.min init y)) as [H1 H2]. split; [lia|].
        intros c [<-|Hc']; [lia | now apply H2]. }
    destruct (Hmin (map size vs) (size v0)) as [H1 H2].
    destruct Hv as [<-|Hv]; [exact H1|]. apply H2. now apply in_map.
  - intros c Hin. split.
    + rewrite Hm. apply fold_max_bounds. assumption.
    + destruct (Z.le_gt_cases c reg_bits) as [|Hbig]; [assumption|].
      exfalso. apply Hnot. right; left. exists c. split; [assumption | lia].
Qed.

End ConstructionMore.

Section ConstructionMoreWitness.

Import Encoder EncoderExt.

Lemma construct_fields_witness :
  exists e,
    construct 8 8 2 [3; 4] [[7; 5; 6]; [1; 2; 3; 4]] = Ok e
    /\ get_k e = 2 /\ get_n e = 3 /\ get_m e = 4.
Proof.
  eexists. split; [reflexivity|].
  assert (Hk : 0 < 2) by reflexivity.
  assert (Hfit : sizes_fit [[7; 5; 6]; [1; 2; 3; 4]])
    by (repeat constructor).
  destruct (construct_fields 8 8 2 [3; 4] [[7; 5; 6]; [1; 2; 3; 4]] _ Hk Hfit eq_refl)
    as (H1 & H2 & H3 & _).
  repeat split; assumption.
Defined.

End ConstructionMoreWitness.

Section EncodeMore.

Import Encoder EncoderExt.

Variables (reg_bits sym_bits : Z).

Lemma for_range_fixed {S} (body : Z -> S -> S) lo hi s :
  (forall j, body j s = s) -> for_range lo hi body s = s.
Proof.
  intros H. unfold for_range. generalize (Z.to_nat (hi - lo)) as count.
  intros count. revert lo. induction count as [|c IH]; intros lo; [reflexivity|].
  cbn [for_loop]. rewrite H. apply IH.
Qed.

Lemma get_repeat_zero count i : get 0 (repeat 0 count) i = 0.
Proof. unfold get. apply nth_repeat. Qed.

Lemma wrap_zero w : wrap w 0 = 0.
Proof. unfold wrap. apply Zmod_0_l. Qed.

Lemma xorbits_zero : xorbits reg_bits 0 = false.
Proof.
  unfold xorbits, xorbits_loop. destruct (Z.to_nat reg_bits); reflexivity.
Qed.

Lemma output_symbol_zero e count :
  output_symbol reg_bits sym_bits e (repeat 0 count) = 0.
Proof.
  unfold output_symbol. apply for_range_fixed. intros ni.
  assert (Hbit : symbol_bit reg_bits e (repeat 0 count) ni = 0).
  { unfold symbol_bit. apply for_range_fixed. intros ki.
    now rewrite get_repeat_zero, Z.land_0_l, xorbits_zero. }
  now rewrite Hbit, Z.shiftl_0_l, wrap_zero.
Qed.

Lemma clocked_zero no_step x i :
  0 <= i -> Z.testbit x i = false ->
  clocked reg_bits no_step 0 (Z.shiftr x i) = 0.
Proof.
  intros Hi Hbit. unfold clocked. rewrite shiftr_bit, Hbit by exact Hi.
  destruct no_step; cbn [Z.b2z]; rewrite ?Z.shiftr_0_l, Z.shiftl_0_l;
    rewrite (wrap_zero reg_bits); exact (wrap_zero reg_bits).
Qed.

Lemma load_registers_zero e x no_step :
  low_bits_clear (k e) x ->
  load_registers reg_bits (clear (k e) e) x no_step = clear_registers (k e).
Proof.
  intros Hx. destruct (Z.lt_ge_cases (k e) 0) as [Hneg|Hk].
  - unfold load_registers. cbn [clear with_registers k registers].
    now rewrite for_range_empty by lia.
  - destruct (load_registers_spec reg_bits (clear (k e) e) x no_step) as [Hl Hg].
    + exact Hk.
    + cbn [clear with_registers k registers]. unfold size, clear_registers.
      rewrite repeat_length. lia.
    + cbn [clear with_registers k registers] in Hl, Hg.
      apply (get_ext 0); [exact Hl|].
      intros i Hi. rewrite Hl in Hi. unfold clear_registers in Hi.
      rewrite repeat_length in Hi.
      rewrite Hg by lia. unfold clear_registers. rewrite !get_repeat_zero.
      apply clocked_zero; [lia | apply Hx; lia].
Qed.

Lemma encode_zero e x no_step :
  low_bits_clear (k e) x ->
  encode reg_bits sym_bits (clear (k e) e) x no_step = (true, 0, clear (k e) e).
Proof.
  intros Hx. unfold encode. rewrite load_registers_zero by exact Hx.
  unfold clear_registers at 1. rewrite output_symbol_zero. reflexivity.
Qed.

(** Property X3.
    From the cleared state, input symbols whose [k] low bits are zero
    produce the output symbol 0 and leave the registers cleared, for any
    tap vectors, any [no_step] flags and any number of calls. *)
Theorem encode_zero_from_cleared e inputs :
  (forall x no_step, In (x, no_step) inputs -> low_bits_clear (k e) x) ->
  encode_all reg_bits sym_bits (clear (k e) e) inputs
  = (repeat 0 (List.length inputs), clear (k e) e).
Proof.
  induction inputs as [|[x no_step] rest IH]; intros Hall; [reflexivity|].
  cbn [encode_all]. rewrite encode_zero by (apply (Hall x no_step); now left).
  rewrite IH by (intros y ns Hy; apply (Hall y ns); now right).
  reflexivity.
Qed.

(** Re-inserting another bit in place of the one inserted last. *)
Lemma clocked_replace reg x y i :
  0 < reg_bits -> 0 <= i ->
  clocked reg_bits true (shifted_in reg_bits reg x i) (Z.shiftr y i)
  = shifted_in reg_bits reg y i.
Proof.
  intros Hrb Hi. unfold clocked. rewrite shiftr_bit by lia.
  set (bx := Z.b2z (Z.testbit x i)). set (by_ := Z.b2z (Z.testbit y i)).
  set (v := shifted_in reg_bits reg x i).
  assert (Hbx : 0 <= bx <= 1) by (subst bx; destruct (Z.testbit x i); cbn; lia).
  assert (Hp : 0 < 2 ^ reg_bits) by (apply Z.pow_pos_nonneg; lia).
  assert (Hlow : v mod 2 = bx).
  { subst v. unfold shifted_in, wrap. fold bx.
    rewrite Z.mod_mod_divide.
    - replace (2 * reg + bx) with (bx + reg * 2) by lia.
      rewrite Z.mod_add by lia. apply Z.mod_small. lia.
    - exists (2 ^ (reg_bits - 1)).
      replace reg_bits with (Z.succ (reg_bits - 1)) at 1 by lia.
      rewrite Z.pow_succ_r by lia. lia. }
  rewrite Z.shiftr_div_pow2, Z.shiftl_mul_pow2 by lia. change (2 ^ 1) with 2.
  unfold wrap. rewrite Zplus_mod_idemp_l.
  replace (v / 2 * 2) with (v - bx)
    by (rewrite <- Hlow; pose proof (Z.div_mod v 2 ltac:(lia)); lia).
  subst v. unfold shifted_in, wrap. fold bx. fold by_.
  replace ((2 * reg + bx) mod 2 ^ reg_bits - bx + by_)
    with ((2 * reg + bx) mod 2 ^ reg_bits + (by_ - bx)) by lia.
  rewrite Zplus_mod_idemp_l. f_equal. lia.
Qed.

(** Property X4.
    [encode y] with [no_step] set, issued right after a plain [encode x],
    is the plain [encode y] on the encoder as it was before [encode x]:
    the tentative input [x] is replaced by [y], in the output symbol
    returned and in the registers left behind. *)
Theorem encode_no_step_replaces e x y :
  wf reg_bits sym_bits e ->
  encode reg_bits sym_bits (snd (encode reg_bits sym_bits e x false)) y true
  = encode reg_bits sym_bits e y false.
Proof.
  intros Hwf. destruct (encoder_wf_unpack _ _ e Hwf) as (Hrb & Hk & Hsize & _ & _).
  destruct (encode_step_registers reg_bits sym_bits e x Hwf) as (Hsx & Hgx & _).
  destruct (encode_step_registers reg_bits sym_bits e y Hwf) as (Hsy & Hgy & _).
  unfold encode. cbn [snd].
  set (rx := load_registers reg_bits e x false) in *.
  assert (Hregs : load_registers reg_bits (with_registers e rx) y true
                  = load_registers reg_bits e y false).
  { destruct (load_registers_spec reg_bits (with_registers e rx) y true) as [Hl Hg];
      [exact Hk | exact Hsx |].
    cbn [with_registers registers k] in Hl, Hg.
    apply (get_ext 0); [unfold size in *; lia|].
    intros i Hi. rewrite Hl in Hi. unfold size in Hsx.
    rewrite Hg, Hgx, Hgy by lia. apply clocked_replace; lia. }
  rewrite Hregs. reflexivity.
Qed.

End EncodeMore.

Section EncodeMoreWitness.

Import Encoder EncoderExt.

Lemma encode_zero_from_cleared_witness :
  let e := mk 1 2 3 [3] [[7; 5]] [200] in
  encode_all 8 8 (clear 1 e) [(0, false); (6, true); (2, false)]
  = ([0; 0; 0], clear 1 e).
Proof.
  intros e. apply (encode_zero_from_cleared 8 8 e).
  intros x no_step Hin i Hi. assert (i = 0) by (cbn in Hi; lia). subst i.
  destruct Hin as [H|[H|[H|[]]]]; injection H as <- _; reflexivity.
Defined.

Lemma encode_no_step_replaces_witness :
  let e := mk 1 2 3 [3] [[7; 5]] [200] in
  wf 8 8 e
  /\ encode 8 8 (snd (encode 8 8 e 1 false)) 0 true = encode 8 8 e 0 false
  /\ encode 8 8 e 0 false = (true, 0, mk 1 2 3 [3] [[7; 5]] [144]).
Proof.
  intros e.
  assert (Hwf : wf 8 8 e) by reflexivity.
  split; [exact Hwf|]. split; [|reflexivity].
  exact (encode_no_step_replaces 8 8 e 1 0 Hwf).
Defined.

End EncodeMoreWitness.

(* ====================================================================== *)
(** * The reliability matrix: equality from the cells, and the invariant *)

Section MatrixExtensionality.

Import F32 RelMat RelMatExt.

(** Two buffers of a matrix that agree on every cell are equal. *)
Lemma matrix_ext r (mat1 mat2 : list float) :
  wf r ->
  List.length mat1 = List.length (_matrix r) ->
  List.length mat2 = List.length (_matrix r) ->
  (forall ir ic, in_range r ir ic ->
     get zero mat1 (index r ic ir) = get zero mat2 (index r ic ir)) ->
  mat1 = mat2.
Proof.
  intros Hwf H1 H2 H.
  destruct (wf_unpack r Hwf) as (_ & _ & Hnb & Hml & Hsz & _ & Hlen).
  apply (get_ext zero); [congruence|].
  intros i Hi. rewrite H1, Hlen in Hi.
  assert (Hin : in_range r (i mod _nb_symbols r) (i / _nb_symbols r)).
  { split; [apply Z.mod_pos_bound; lia|].
    split; [apply Z.div_pos; lia | apply Z.div_lt_upper_bound; lia]. }
  specialize (H _ _ Hin). destruct (index_eq r _ _ Hwf Hin) as [E _].
  rewrite E in H.
  replace (i / _nb_symbols r * _nb_symbols r + i mod _nb_symbols r) with i in H;
    [exact H|].
  rewrite (Z.mul_comm (i / _nb_symbols r)). apply Z.div_mod. lia.
Qed.

Lemma cells_ext r r' :
  wf r -> wf r' -> same_shape r r' ->
  _message_symbol_count r' = _message_symbol_count r ->
  (forall ir ic, in_range r ir ic -> cell r' ir ic = cell r ir ic) ->
  r' = r.
Proof.
  intros Hwf Hwf' (Hlg & Hnb & Hml) Hcnt Hcells.
  destruct (wf_unpack r Hwf) as (_ & _ & _ & _ & _ & _ & Hlen).
  destruct (wf_unpack r' Hwf') as (_ & _ & _ & _ & _ & _ & Hlen').
  assert (Hm : _matrix r' = _matrix r).
  { apply (matrix_ext r); auto.
    - rewrite Hnb, Hml in Hlen'. lia.
    - intros ir ic Hin. specialize (Hcells ir ic Hin).
      unfold cell, index in Hcells. rewrite Hnb in Hcells. exact Hcells. }
  destruct r, r'; cbn in *; congruence.
Qed.

Lemma column_written_unique r r1 r2 c vals :
  wf r -> wf r1 -> wf r2 ->
  column_written r r1 c vals -> column_written r r2 c vals ->
  _message_symbol_count r1 = _message_symbol_count r2 ->
  r1 = r2.
Proof.
  intros Hwf Hwf1 Hwf2 (A1 & A2 & A3 & _ & A5 & A6) (B1 & B2 & B3 & _ & B5 & B6) Hcnt.
  apply cells_ext; auto.
  - repeat split; congruence.
  - intros ir ic [Hr Hc]. rewrite B2 in Hr. rewrite B3 in Hc.
    destruct (Z.eq_dec ic c) as [->|Hne].
    + now rewrite A5, B5.
    + rewrite A6, B6; auto; split; auto.
Qed.

Lemma enter_symbol_data_at_wf r idx data : wf r -> wf (enter_symbol_data_at r idx data).
Proof.
  intros Hwf. destruct (wf_unpack r Hwf) as (_ & _ & _ & _ & _ & Hcount & _).
  unfold enter_symbol_data_at.
  destruct (Z.ltb_spec idx (_message_length r)) as [Hlt|Hge]; [|exact Hwf].
  destruct (Z.lt_ge_cases idx 0) as [Hneg|Hpos].
  - apply wf_with_matrix; [exact Hwf|].
    unfold memcpy. apply (for_range_ind (fun _ mat => List.length mat = List.length (_matrix r))).
    + destruct (wf_unpack r Hwf) as (_ & _ & Hnb & _). lia.
    + reflexivity.
    + intros j t _ Ht. now rewrite length_set.
  - destruct (memcpy_column r data 0 idx Hwf ltac:(lia)) as [Hl _].
    now apply wf_with_matrix.
Qed.

Lemma enter_erasure_at_wf r idx : wf r -> wf (enter_erasure_at r idx).
Proof.
  intros Hwf. unfold enter_erasure_at.
  destruct (Z.ltb_spec idx (_message_length r)) as [Hlt|Hge]; [|exact Hwf].
  apply wf_with_matrix; [exact Hwf|].
  apply (for_range_ind (fun _ mat => List.length mat = List.length (_matrix r))).
  - destruct (wf_unpack r Hwf) as (_ & _ & Hnb & _). lia.
  - reflexivity.
  - intros j t _ Ht. now rewrite length_set.
Qed.

Lemma set_repeat {A} (v : A) n i : set (repeat v n) i v = repeat v n.
Proof.
  pose proof (set_get_id v (repeat v n) i) as H. unfold get in H.
  now rewrite nth_repeat in H.
Qed.

Lemma get_repeat {A} (v : A) n i : get v (repeat v n) i = v.
Proof. unfold get. apply nth_repeat. Qed.

Lemma create_matrix nb_symbols_log2 message_length :
  _matrix (create nb_symbols_log2 message_length)
  = repeat zero
      (Z.to_nat (u32 (u32 (Z.shiftl 1 nb_symbols_log2) * message_length))).
Proof.
  unfold create; cbn [_matrix].
  set (sz := u32 (u32 (Z.shiftl 1 nb_symbols_log2) * message_length)).
  destruct (Z.le_gt_cases 0 sz) as [Hsz|Hsz].
  - apply (for_range_ind (fun _ mat => mat = repeat zero (Z.to_nat sz))); auto.
    intros j t _ ->. apply set_repeat.
  - now rewrite for_range_empty by lia.
Qed.

End MatrixExtensionality.

Section MatrixInvariantClaims.

Import F32 RelMat RelMatExt.

(** Property X5.
    The operations that fill a matrix keep the representation invariant
    and the dimensions: the copy constructor and both forms of
    [enter_symbol_data] and of [enter_erasure], whether or not they
    write. *)
Theorem ingestion_keeps_invariant r :
  wf r ->
  (wf (copy r) /\ same_shape r (copy r))
  /\ (forall data, _nb_symbols r <= Z.of_nat (List.length data) ->
        wf (enter_symbol_data r data) /\ same_shape r (enter_symbol_data r data))
  /\ (wf (enter_erasure r) /\ same_shape r (enter_erasure r))
  /\ (forall idx data, 0 <= idx -> _nb_symbols r <= Z.of_nat (List.length data) ->
        wf (enter_symbol_data_at r idx data)
        /\ same_shape r (enter_symbol_data_at r idx data))
  /\ (forall idx, 0 <= idx ->
        wf (enter_erasure_at r idx) /\ same_shape r (enter_erasure_at r idx)).
Proof.
  intros Hwf.
  assert (Hshape : forall cnt mat,
            same_shape r (mk (_nb_symbols_log2 r) (_nb_symbols r) (_message_length r)
                             cnt mat)) by (intros; repeat split).
  split; [split; [now apply copy_wf | apply Hshape]|].
  split.
  { intros data _. split; [now apply enter_symbol_data_wf|].
    unfold enter_symbol_data. destruct (_ <? _); [apply Hshape | repeat split]. }
  split.
  { split; [now apply enter_erasure_wf|].
    unfold enter_erasure. destruct (_ <? _); [apply Hshape | repeat split]. }
  split.
  { intros idx data _ _. split; [now apply enter_symbol_data_at_wf|].
    unfold enter_symbol_data_at. destruct (_ <? _); [apply Hshape | repeat split]. }
  intros idx _. split; [now apply enter_erasure_at_wf|].
  unfold enter_erasure_at. destruct (_ <? _); [apply Hshape | repeat split].
Qed.

Lemma ingestion_keeps_invariant_witness :
  let r := mk 1 2 2 1 [of_Z 1; of_Z 2; of_Z 3; of_Z 4] in
  wf r /\ wf (enter_erasure r) /\ wf (enter_erasure_at r 1)
  /\ wf (enter_symbol_data_at r 5 [of_Z 7; of_Z 8]).
Proof.
  intros r.
  assert (Hwf : wf r) by reflexivity.
  destruct (ingestion_keeps_invariant r Hwf) as (_ & _ & He & Hd & Hi).
  split; [exact Hwf|]. split; [exact (proj1 He)|].
  split; [apply Hi; lia|]. apply Hd; [lia | cbn; lia].
Defined.

(** Property X6.
    [normalize], and [deinterleave] on a matrix with at least one column
    and fewer than [2^31], keep the representation invariant, the
    dimensions and the cursor, also when applied one after the other in
    either order. *)
Theorem transforms_keep_invariant r :
  wf r ->
  (wf (normalize r) /\ same_shape r (normalize r)
   /\ _message_symbol_count (normalize r) = _message_symbol_count r)
  /\ (1 <= _message_length r < 2 ^ 31 ->
      wf (deinterleave r) /\ same_shape r (deinterleave r)
      /\ _message_symbol_count (deinterleave r) = _message_symbol_count r
      /\ wf (normalize (deinterleave r)) /\ wf (deinterleave (normalize r))).
Proof.
  intros Hwf.
  assert (Hshape : forall cnt mat,
            same_shape r (mk (_nb_symbols_log2 r) (_nb_symbols r) (_message_length r)
                             cnt mat)) by (intros; repeat split).
  pose proof (normalize_wf r Hwf) as Hn.
  split; [split; [exact Hn | split; [apply Hshape | reflexivity]]|].
  intros Hml. pose proof (deinterleave_wf r Hwf Hml) as Hd.
  split; [exact Hd|]. split; [apply Hshape|]. split; [reflexivity|].
  split; [now apply normalize_wf | now apply deinterleave_wf].
Qed.

Lemma transforms_keep_invariant_witness :
  let r := mk 1 2 2 1 [of_Z 1; of_Z 2; of_Z 3; of_Z 4] in
  wf r /\ wf (normalize r) /\ wf (deinterleave (normalize r)).
Proof.
  intros r.
  assert (Hwf : wf r) by reflexivity.
  destruct (transforms_keep_invariant r Hwf) as ((Hn & _) & Hd).
  split; [exact Hwf|]. split; [exact Hn|].
  apply Hd. unfold r; cbn [_message_length]; lia.
Defined.

(** Property X7.
    The constructor, given a symbol width below 32 bits and an element
    count that fits [unsigned int], yields a well-formed matrix of
    [2^nb_symbols_log2] rows by [message_length] columns whose buffer
    holds that many zeros and whose cursor is 0: every cell reads 0.0. *)
Theorem create_zero_matrix nb_symbols_log2 message_length :
  0 <= nb_symbols_log2 < 32 -> 0 <= message_length ->
  2 ^ nb_symbols_log2 * message_length < 2 ^ 32 ->
  let r := create nb_symbols_log2 message_length in
  wf r
  /\ _nb_symbols_log2 r = nb_symbols_log2
  /\ _nb_symbols r = 2 ^ nb_symbols_log2
  /\ _message_length r = message_length
  /\ _message_symbol_count r = 0
  /\ _matrix r = repeat zero (Z.to_nat (2 ^ nb_symbols_log2 * message_length))
  /\ (forall ir ic, cell r ir ic = zero)
  /\ find_max r = (zero, if message_length =? 0 then 0 else 2 ^ nb_symbols_log2 - 1,
                   if message_length =? 0 then 0 else message_length - 1).
Proof.
  intros Hlg Hml Hsz r.
  assert (Hp : 0 < 2 ^ nb_symbols_log2) by (apply Z.pow_pos_nonneg; lia).
  assert (Hnb : u32 (Z.shiftl 1 nb_symbols_log2) = 2 ^ nb_symbols_log2).
  { rewrite Z.shiftl_mul_pow2, Z.mul_1_l by lia. apply u32_small.
    split; [lia|]. apply Z.pow_lt_mono_r; lia. }
  assert (Hwf : wf r) by now apply create_wf.
  assert (Hm : _matrix r = repeat zero (Z.to_nat (2 ^ nb_symbols_log2 * message_length))).
  { subst r. rewrite create_matrix, Hnb, u32_small by nia. reflexivity. }
  assert (Hcell : forall ir ic, cell r ir ic = zero).
  { intros ir ic. unfold cell. rewrite Hm. apply get_repeat. }
  assert (Hnbr : _nb_symbols r = 2 ^ nb_symbols_log2) by exact Hnb.
  repeat apply conj; auto.
  assert (Hnn : nonneg r).
  { unfold nonneg. rewrite Hm. apply forallb_forall. intros x Hx.
    apply repeat_spec in Hx. now subst x. }
  pose proof (find_max_final_inv r Hwf Hnn) as Hinv.
  change (_message_length r) with message_length in Hinv.
  destruct (find_max r) as [[v row] col].
  destruct Hinv as (_ & _ & [(H0 & _ & Hst)|(Hrc & _ & Hval & Hlater)]).
  - rewrite H0, Hst. reflexivity.
  - destruct Hrc as [Hr Hc]. change (_message_length r) with message_length in Hc.
    rewrite Hnbr in Hr.
    destruct (Z.eqb_spec message_length 0) as [E|E]; [lia|].
    rewrite Hval, Hcell.
    assert (Hin : in_range r (2 ^ nb_symbols_log2 - 1) (message_length - 1)).
    { split; [rewrite Hnbr; lia|]. change (_message_length r) with message_length. lia. }
    destruct (Z.eq_dec col (message_length - 1)) as [Ec|Nc];
      [destruct (Z.eq_dec row (2 ^ nb_symbols_log2 - 1)) as [Er|Nr]|].
    + now subst.
    + assert (Hs : scanned_after (message_length - 1) (2 ^ nb_symbols_log2 - 1) col row)
        by (unfold scanned_after; lia).
      assert (Hs0 : scanned_after message_length 0 (message_length - 1)
                      (2 ^ nb_symbols_log2 - 1)) by (unfold scanned_after; lia).
      pose proof (Hlater _ _ Hin Hs0 Hs) as Hlt.
      rewrite Hval, !Hcell in Hlt. discriminate.
    + assert (Hs : scanned_after (message_length - 1) (2 ^ nb_symbols_log2 - 1) col row)
        by (unfold scanned_after; lia).
      assert (Hs0 : scanned_after message_length 0 (message_length - 1)
                      (2 ^ nb_symbols_log2 - 1)) by (unfold scanned_after; lia).
      pose proof (Hlater _ _ Hin Hs0 Hs) as Hlt.
      rewrite Hval, !Hcell in Hlt. discriminate.
Qed.

Lemma create_zero_matrix_witness :
  wf (create 3 5) /\ _matrix (create 3 5) = repeat zero 40
  /\ find_max (create 3 5) = (zero, 7, 4).
Proof.
  destruct (create_zero_matrix 3 5) as (Hwf & _ & _ & _ & _ & Hm & _ & Hmax); try lia.
  split; [exact Hwf|]. split; [exact Hm | exact Hmax].
Defined.

(** Property X8.
    An erasure is the entry of a column of zeros: both forms of
    [enter_erasure] give the very object that the matching form of
    [enter_symbol_data] gives when handed [_nb_symbols] zeros. *)
Theorem erasure_is_zero_column r :
  wf r ->
  enter_erasure r = enter_symbol_data r (zeros r)
  /\ forall idx, 0 <= idx -> enter_erasure_at r idx = enter_symbol_data_at r idx (zeros r).
Proof.
  intros Hwf.
  assert (Hz : forall ir, get zero (zeros r) ir = zero)
    by (intros ir; apply get_repeat).
  split.
  - destruct (Z.lt_ge_cases (_message_symbol_count r) (_message_length r)) as [Hlt|Hge].
    + destruct (enter_erasure_written r Hwf Hlt) as [H1 C1].
      destruct (enter_symbol_data_written r (zeros r) Hwf Hlt) as [H2 C2].
      apply (column_written_unique r _ _ (_message_symbol_count r) (fun _ => zero)); auto.
      * now apply enter_erasure_wf.
      * now apply enter_symbol_data_wf.
      * destruct H2 as (A1 & A2 & A3 & A4 & A5 & A6). repeat split; auto.
        intros ir Hr. rewrite A5 by exact Hr. apply Hz.
      * congruence.
    + unfold enter_erasure, enter_symbol_data.
      now destruct (Z.ltb_spec (_message_symbol_count r) (_message_length r)); [lia|].
  - intros idx Hidx.
    destruct (Z.lt_ge_cases idx (_message_length r)) as [Hlt|Hge].
    + destruct (enter_erasure_at_written r idx Hwf ltac:(lia)) as [H1 C1].
      destruct (enter_symbol_data_at_written r idx (zeros r) Hwf ltac:(lia)) as [H2 C2].
      apply (column_written_unique r _ _ idx (fun _ => zero)); auto.
      * now apply enter_erasure_at_wf.
      * now apply enter_symbol_data_at_wf.
      * destruct H2 as (A1 & A2 & A3 & A4 & A5 & A6). repeat split; auto.
        intros ir Hr. rewrite A5 by exact Hr. apply Hz.
      * congruence.
    + unfold enter_erasure_at, enter_symbol_data_at.
      now destruct (Z.ltb_spec idx (_message_length r)); [lia|].
Qed.

Lemma erasure_is_zero_column_witness :
  let r := mk 1 2 2 1 [of_Z 1; of_Z 2; of_Z 3; of_Z 4] in
  wf r
  /\ enter_erasure r = enter_symbol_data r [zero; zero]
  /\ enter_erasure_at r 0 = enter_symbol_data_at r 0 [zero; zero].
Proof.
  intros r.
  assert (Hwf : wf r) by reflexivity.
  destruct (erasure_is_zero_column r Hwf) as [H1 H2].
  split; [exact Hwf|]. split; [exact H1|]. apply H2. lia.
Defined.

(** Property X9.
    Entering columns one after the other at the cursor: the cursor
    advances by the number of columns entered, stopping at
    [_message_length]; the [j]-th column entered lands in column
    [cursor + j] as long as that is a column; the columns beyond the end
    are dropped, and every column outside the entered stretch is as
    before. *)
Theorem fill_columns cols : forall r,
  wf r ->
  Forall (fun col => _nb_symbols r <= Z.of_nat (List.length col)) cols ->
  wf (fill r cols)
  /\ same_shape r (fill r cols)
  /\ _message_symbol_count (fill r cols)
     = Z.min (_message_length r) (_message_symbol_count r + Z.of_nat (List.length cols))
  /\ (forall j ir, (j < List.length cols)%nat ->
        _message_symbol_count r + Z.of_nat j < _message_length r ->
        0 <= ir < _nb_symbols r ->
        cell (fill r cols) ir (_message_symbol_count r + Z.of_nat j)
        = get zero (nth j cols []) ir)
  /\ (forall ir jc, in_range r ir jc ->
        jc < _message_symbol_count r
        \/ _message_symbol_count r + Z.of_nat (List.length cols) <= jc ->
        cell (fill r cols) ir jc = cell r ir jc).
Proof.
  induction cols as [|col rest IH]; intros r Hwf Hall.
  - destruct (wf_unpack r Hwf) as (_ & _ & _ & _ & _ & Hcnt & _).
    cbn [fill fold_left List.length]. repeat apply conj; auto; try reflexivity.
    + lia.
    + intros j ir Hj. lia.
  - destruct (wf_unpack r Hwf) as (_ & _ & _ & _ & _ & Hcnt & _).
    change (fill r (col :: rest)) with (fill (enter_symbol_data r col) rest).
    destruct (Z.lt_ge_cases (_message_symbol_count r) (_message_length r)) as [Hlt|Hge].
    + destruct (enter_symbol_data_written r col Hwf Hlt)
        as [(A1 & A2 & A3 & A4 & A5 & A6) Hc].
      set (r1 := enter_symbol_data r col) in *.
      assert (Hwf1 : wf r1) by now apply enter_symbol_data_wf.
      assert (Hall1 : Forall (fun c => _nb_symbols r1 <= Z.of_nat (List.length c)) rest).
      { rewrite A2. now inversion Hall. }
      destruct (IH r1 Hwf1 Hall1) as (B1 & (S1 & S2 & S3) & B3 & B4 & B5).
      split; [exact B1|]. split; [repeat split; congruence|].
      split; [rewrite B3, A3, Hc; cbn [List.length]; lia|]. split.
      * intros j ir Hj Hjc Hir. destruct j as [|j].
        -- rewrite Z.add_0_r. rewrite B5.
           ++ now apply A5.
           ++ split; [rewrite A2; exact Hir | rewrite A3; lia].
           ++ left. rewrite Hc. lia.
        -- cbn [nth]. cbn [List.length] in Hj.
           replace (_message_symbol_count r + Z.of_nat (S j))
             with (_message_symbol_count r1 + Z.of_nat j) by (rewrite Hc; lia).
           apply B4; [lia | rewrite Hc, A3; lia | rewrite A2; exact Hir].
      * intros ir jc Hin Hout. cbn [List.length] in Hout.
        destruct Hin as [Hir Hjc].
        rewrite B5.
        -- apply A6; [split; assumption | lia].
        -- split; [rewrite A2; exact Hir | rewrite A3; exact Hjc].
        -- rewrite Hc. lia.
    + assert (E : enter_symbol_data r col = r).
      { unfold enter_symbol_data.
        now destruct (Z.ltb_spec (_message_symbol_count r) (_message_length r)); [lia|]. }
      rewrite E.
      assert (Hall1 : Forall (fun c => _nb_symbols r <= Z.of_nat (List.length c)) rest)
        by now inversion Hall.
      destruct (IH r Hwf Hall1) as (B1 & B2 & B3 & B4 & B5).
      split; [exact B1|]. split; [exact B2|].
      split; [rewrite B3; cbn [List.length]; lia|]. split.
      * intros j ir Hj Hjc Hir. lia.
      * intros ir jc Hin Hout. destruct Hin as [Hir Hjc].
        apply B5; [split; assumption | lia].
Qed.

Lemma fill_columns_witness :
  let r := create 1 2 in
  let cols := [[of_Z 1; of_Z 2]; [of_Z 3; of_Z 4]; [of_Z 5; of_Z 6]] in
  wf r
  /\ _message_symbol_count (fill r cols) = 2
  /\ cell (fill r cols) 1 1 = of_Z 4.
Proof.
  intros r cols.
  assert (Hwf : wf r) by reflexivity.
  assert (Hall : Forall (fun col => _nb_symbols r <= Z.of_nat (List.length col)) cols).
  { repeat constructor; cbn; discriminate. }
  destruct (fill_columns cols r Hwf Hall) as (_ & _ & Hc & Hcell & _).
  split; [exact Hwf|]. split; [exact Hc|].
  apply (Hcell 1%nat 1); cbn; lia.
Defined.

End MatrixInvariantClaims.

(* ====================================================================== *)
(** * The reliability matrix: the searches on arbitrary contents *)

Section SearchAnyContents.

Import F32 RelMat RelMatExt.

Lemma ltb_not_nan x y : ltb x y = true -> is_nan x = false /\ is_nan y = false.
Proof.
  unfold ltb, SFltb. destruct x, y; cbn; try discriminate; auto.
Qed.

Lemma nan_not_leb x y : is_nan y = true -> leb x y = false.
Proof.
  intros Hy. destruct (leb x y) eqn:E; [|reflexivity].
  apply leb_not_nan in E. destruct E. congruence.
Qed.

Lemma find_max_cell_inv_any r ic ir st :
  wf r -> in_range r ir ic ->
  find_max_inv_any r ic ir st ->
  find_max_inv_any r ic (ir + 1) (find_max_cell r ic ir st).
Proof.
  intros Hwf Hin Hinv. destruct st as [[v row] col].
  destruct Hinv as (Hv & Hle & Hpos).
  destruct (leb_not_nan _ _ Hv) as [_ Hvn].
  unfold find_max_cell. fold (cell r ir ic). unfold geb.
  destruct (leb v (cell r ir ic)) eqn:E.
  - (* the running maximum moves to this cell *)
    destruct (leb_not_nan _ _ E) as [_ Hxn].
    split; [now apply leb_trans with v|]. split.
    + intros jr jc Hj Hs.
      destruct (Z.eq_dec jc ic) as [->|Hc]; [destruct (Z.eq_dec jr ir) as [->|Hr]|].
      * right. now apply leb_refl.
      * destruct (Hle jr ic Hj) as [Hn|Hl];
          [unfold scanned_after in *; lia | now left |].
        right. now apply leb_trans with v.
      * destruct (Hle jr jc Hj) as [Hn|Hl];
          [unfold scanned_after in *; lia | now left |].
        right. now apply leb_trans with v.
    + right. split; [exact Hin|]. split; [unfold scanned_after; lia|].
      split; [reflexivity|].
      intros jr jc _ H1 H2. unfold scanned_after in *. lia.
  - (* the cell does not compare >= to the running maximum *)
    split; [exact Hv|]. split.
    + intros jr jc Hj Hs.
      destruct (Z.eq_dec jc ic) as [->|Hc]; [destruct (Z.eq_dec jr ir) as [->|Hr]|].
      * destruct (is_nan (cell r ir ic)) eqn:Hxn; [now left|].
        right. apply ltb_leb. now apply not_leb_ltb.
      * apply Hle; [exact Hj|]. unfold scanned_after in *. lia.
      * apply Hle; [exact Hj|]. unfold scanned_after in *. lia.
    + destruct Hpos as [(Hnone & Hst)|(Hrc & Hbefore & Hval & Hlater)].
      * left. split; [|exact Hst]. injection Hst as -> _ _.
        intros jr jc Hj Hs.
        destruct (Z.eq_dec jc ic) as [->|Hc]; [destruct (Z.eq_dec jr ir) as [->|Hr]|].
        -- exact E.
        -- apply Hnone; [exact Hj|]. unfold scanned_after in *. lia.
        -- apply Hnone; [exact Hj|]. unfold scanned_after in *. lia.
      * right. split; [exact Hrc|]. split; [unfold scanned_after in *; lia|].
        split; [exact Hval|].
        intros jr jc Hj H1 H2.
        destruct (Z.eq_dec jc ic) as [->|Hc]; [destruct (Z.eq_dec jr ir) as [->|Hr]|].
        -- exact E.
        -- apply Hlater; auto. unfold scanned_after in *. lia.
        -- apply Hlater; auto. unfold scanned_after in *. lia.
Qed.

Lemma find_max_col_inv_any r ic st :
  wf r -> 0 <= ic < _message_length r ->
  find_max_inv_any r ic 0 st ->
  find_max_inv_any r (ic + 1) 0 (for_range 0 (_nb_symbols r) (find_max_cell r ic) st).
Proof.
  intros Hwf Hic Hinv.
  destruct (wf_unpack r Hwf) as (_ & _ & Hnb & _).
  assert (H : find_max_inv_any r ic (_nb_symbols r)
                (for_range 0 (_nb_symbols r) (find_max_cell r ic) st)).
  { apply for_range_ind; [lia | exact Hinv |].
    intros j t Hj Ht. apply find_max_cell_inv_any; auto. split; lia. }
  destruct (for_range 0 (_nb_symbols r) (find_max_cell r ic) st) as [[v row] col].
  destruct H as (Hv & Hle & Hpos).
  split; [exact Hv|]. split.
  - intros jr jc Hj Hs. apply Hle; [exact Hj|].
    destruct Hj as [Hjr Hjc]. unfold scanned_after in *. lia.
  - destruct Hpos as [(Hnone & Hst)|(Hrc & Hbefore & Hval & Hlater)].
    + left. split; [|exact Hst]. intros jr jc Hj Hs. apply Hnone; [exact Hj|].
      destruct Hj as [Hjr Hjc]. unfold scanned_after in *. lia.
    + right. split; [exact Hrc|]. destruct Hrc as [Hr Hc].
      split; [unfold scanned_after in *; lia|]. split; [exact Hval|].
      intros jr jc Hj H1 H2. apply Hlater; auto.
      destruct Hj as [Hjr Hjc]. unfold scanned_after in *. lia.
Qed.

Lemma find_max_final_inv_any r :
  wf r -> find_max_inv_any r (_message_length r) 0 (find_max r).
Proof.
  intros Hwf. destruct (wf_unpack r Hwf) as (_ & _ & _ & Hml & _).
  unfold find_max. apply for_range_ind; [exact Hml | |].
  - split; [reflexivity|]. split.
    + intros jr jc [Hjr Hjc] Hs. unfold scanned_after in Hs. lia.
    + left. split; [|reflexivity].
      intros jr jc [Hjr Hjc] Hs. unfold scanned_after in Hs. lia.
  - intros ic st Hic Hst. now apply find_max_col_inv_any.
Qed.

(** What [find_max] yields on any well-formed matrix. *)
Lemma find_max_outcome r :
  wf r ->
  ((forall ir ic, in_range r ir ic -> leb zero (cell r ir ic) = false)
   /\ find_max r = (zero, 0, 0))
  \/ ((exists ir ic, in_range r ir ic /\ leb zero (cell r ir ic) = true)
      /\ is_last_max_any r (find_max r)).
Proof.
  intros Hwf. pose proof (find_max_final_inv_any r Hwf) as Hinv.
  destruct (find_max r) as [[v row] col].
  destruct Hinv as (Hv & Hle & [(Hnone & Hst)|(Hrc & Hbefore & Hval & Hlater)]).
  - left. split; [|exact Hst]. intros ir ic Hin. apply Hnone; [exact Hin|].
    destruct Hin as [_ Hc]. unfold scanned_after. lia.
  - right. split.
    + exists row, col. split; [exact Hrc | now rewrite <- Hval].
    + split; [exact Hrc|]. split; [exact Hval|]. split; [exact Hv|]. split.
      * intros ir ic Hin. apply Hle; [exact Hin|].
        destruct Hin as [_ Hc]. unfold scanned_after. lia.
      * intros ir ic Hin Hs. apply Hlater; auto.
        destruct Hin as [_ Hc]. unfold scanned_after. lia.
Qed.

Lemma find_max_in_col_cell_inv_any r ic bound ir st :
  wf r -> in_range r ir ic ->
  find_max_in_col_inv_any r ic bound ir st ->
  find_max_in_col_inv_any r ic bound (ir + 1) (find_max_in_col_cell r ic bound ir st).
Proof.
  intros Hwf Hin Hinv. destruct st as [v row].
  destruct Hinv as (Hv & Hpos).
  destruct (leb_not_nan _ _ Hv) as [_ Hvn].
  destruct Hin as [Hir Hic].
  unfold find_max_in_col_cell. fold (cell r ir ic). unfold geb.
  destruct (ltb (cell r ir ic) bound) eqn:B; [|rewrite andb_false_r].
  - destruct (ltb_not_nan _ _ B) as [Hxn _].
    destruct (leb v (cell r ir ic)) eqn:E; cbn [andb].
    + (* a new largest cell below the bound *)
      split; [now apply leb_trans with v|]. right.
      split; [lia|]. split; [reflexivity|]. split; [exact B|]. split.
      * intros jr Hj Hb. destruct (Z.eq_dec jr ir) as [->|Hne]; [now apply leb_refl|].
        destruct Hpos as [(Hnone & Hst)|(_ & _ & _ & Hle & _)].
        -- injection Hst as -> _.
           specialize (Hnone jr ltac:(lia)). rewrite Hb, andb_true_r in Hnone.
           destruct (ltb_not_nan _ _ Hb) as [Hjn _].
           apply leb_trans with zero; [|exact E].
           apply ltb_leb. now apply not_leb_ltb.
        -- apply leb_trans with v; [|exact E]. apply Hle; [lia | exact Hb].
      * intros jr Hj. lia.
    + (* strictly below the running maximum *)
      pose proof (not_leb_ltb _ _ Hvn Hxn E) as Hlt.
      split; [exact Hv|].
      destruct Hpos as [(Hnone & Hst)|(Hrow & Hval & Hvb & Hle & Hlater)].
      * left. split; [|exact Hst]. injection Hst as -> _.
        intros jr Hj. destruct (Z.eq_dec jr ir) as [->|Hne];
          [now rewrite E | apply Hnone; lia].
      * right. split; [lia|]. split; [exact Hval|]. split; [exact Hvb|]. split.
        -- intros jr Hj Hb. destruct (Z.eq_dec jr ir) as [->|Hne]; [now apply ltb_leb|].
           apply Hle; [lia | exact Hb].
        -- intros jr Hj Hb. destruct (Z.eq_dec jr ir) as [->|Hne]; [exact Hlt|].
           apply Hlater; [lia | exact Hb].
  - (* not below the bound: skipped *)
    split; [exact Hv|].
    destruct Hpos as [(Hnone & Hst)|(Hrow & Hval & Hvb & Hle & Hlater)].
    + left. split; [|exact Hst]. intros jr Hj.
      destruct (Z.eq_dec jr ir) as [->|Hne];
        [rewrite B; apply andb_false_r | apply Hnone; lia].
    + right. split; [lia|]. split; [exact Hval|]. split; [exact Hvb|]. split.
      * intros jr Hj Hb. destruct (Z.eq_dec jr ir) as [->|Hne]; [congruence|].
        apply Hle; [lia | exact Hb].
      * intros jr Hj Hb. destruct (Z.eq_dec jr ir) as [->|Hne]; [congruence|].
        apply Hlater; [lia | exact Hb].
Qed.

Lemma find_max_in_col_outcome r ic bound :
  wf r -> 0 <= ic < _message_length r ->
  (none_eligible r ic bound /\ find_max_in_col r ic bound = (zero, 0))
  \/ ((exists ir, 0 <= ir < _nb_symbols r
         /\ leb zero (cell r ir ic) && ltb (cell r ir ic) bound = true)
      /\ is_last_max_below_any r ic bound (find_max_in_col r ic bound)).
Proof.
  intros Hwf Hic. destruct (wf_unpack r Hwf) as (_ & _ & Hnb & _).
  assert (Hinv : find_max_in_col_inv_any r ic bound (_nb_symbols r)
                   (find_max_in_col r ic bound)).
  { unfold find_max_in_col. apply for_range_ind; [lia | |].
    - split; [reflexivity|]. left. split; [|reflexivity]. intros jr Hj. lia.
    - intros ir st Hir Hst. apply find_max_in_col_cell_inv_any; auto. split; lia. }
  destruct (find_max_in_col r ic bound) as [v row].
  destruct Hinv as (Hv & [(Hnone & Hst)|(Hrow & Hval & Hvb & Hle & Hlater)]).
  - left. split; [exact Hnone | exact Hst].
  - right. split.
    + exists row. split; [lia|]. now rewrite <- Hval, Hv, Hvb.
    + repeat split; auto; lia.
Qed.

End SearchAnyContents.

Section SearchAnyContentsClaims.

Import F32 RelMat RelMatExt.

(** Property X10.
    [find_max] on a well-formed matrix holding anything, NaNs and
    negative values included.  The value returned is a number not below
    zero and bounds every cell that is a number.  When some cell compares
    [>= 0.0], the result is such a cell, at a position inside the matrix,
    and no cell scanned after it compares [>=] to it.  When no cell
    compares [>= 0.0] (each is negative or a NaN, or there is no column)
    the result is value 0.0 at row 0, col 0, although that cell does not
    hold the value.  The two cases exclude each other. *)
Theorem find_max_any_contents r :
  wf r ->
  leb zero (fst (fst (find_max r))) = true
  /\ bounds_numbers r (fst (fst (find_max r)))
  /\ ((exists ir ic, in_range r ir ic /\ leb zero (cell r ir ic) = true) ->
      is_last_max_any r (find_max r))
  /\ ((forall ir ic, in_range r ir ic -> leb zero (cell r ir ic) = false) ->
      find_max r = (zero, 0, 0)).
Proof.
  intros Hwf. pose proof (find_max_final_inv_any r Hwf) as Hinv.
  destruct (find_max_outcome r Hwf) as [(Hnone & Hst)|(Hsome & Hlast)].
  - rewrite Hst in *. cbn [fst]. split; [reflexivity|]. split.
    + destruct Hinv as (_ & Hle & _). intros ir ic Hin. apply Hle; [exact Hin|].
      destruct Hin as [_ Hc]. unfold scanned_after. lia.
    + split; [|reflexivity]. intros (ir & ic & Hin & Hpos).
      rewrite Hnone in Hpos by exact Hin. discriminate.
  - destruct (find_max r) as [[v row] col]. cbn [fst].
    destruct Hlast as (Hrc & Hval & Hv & Hb & Hlater).
    split; [exact Hv|]. split; [exact Hb|]. split.
    + intros _. repeat split; auto; apply Hrc.
    + intros Hnone. destruct Hsome as (ir & ic & Hin & Hpos).
      rewrite Hnone in Hpos by exact Hin. discriminate.
Qed.

Lemma find_max_any_contents_witness :
  let r := mk 1 2 2 0 [S754_nan; of_Z (-1); of_Z 2; S754_nan] in
  let s := mk 1 2 1 0 [S754_nan; of_Z (-1)] in
  wf r /\ find_max r = (of_Z 2, 0, 1) /\ is_last_max_any r (find_max r)
  /\ wf s /\ find_max s = (zero, 0, 0).
Proof.
  intros r s.
  assert (Hwf : wf r) by reflexivity.
  assert (Hws : wf s) by reflexivity.
  destruct (find_max_any_contents r Hwf) as (_ & _ & Hsome & _).
  destruct (find_max_any_contents s Hws) as (_ & _ & _ & Hnone).
  split; [exact Hwf|]. split; [reflexivity|]. split.
  - apply Hsome. exists 0, 1.
    split; [unfold in_range, r; cbn [_nb_symbols _message_length]; lia | reflexivity].
  - split; [exact Hws|]. apply Hnone.
    intros ir ic [Hr Hc]. unfold s in Hr, Hc. cbn [_nb_symbols _message_length] in Hr, Hc.
    assert (ic = 0) as -> by lia.
    assert (ir = 0 \/ ir = 1) as [-> | ->] by lia; reflexivity.
Defined.

(** Property X11.
    [find_max_in_col] on a well-formed matrix holding anything, for any
    bound and any column of the matrix.  When some cell of the column is a
    number at least zero and below the bound, the result is the last
    largest such cell: its row is a row of the matrix, no cell below the
    bound exceeds it, and the cells below the bound in the rows after it
    are strictly smaller.  Otherwise (for instance when the bound is a NaN
    or is not above zero) the result is value 0.0 and row 0. *)
Theorem find_max_in_col_any_contents r ic bound :
  wf r -> 0 <= ic < _message_length r ->
  leb zero (fst (find_max_in_col r ic bound)) = true
  /\ 0 <= snd (find_max_in_col r ic bound) < _nb_symbols r
  /\ ((exists ir, 0 <= ir < _nb_symbols r
         /\ leb zero (cell r ir ic) && ltb (cell r ir ic) bound = true) ->
      is_last_max_below_any r ic bound (find_max_in_col r ic bound))
  /\ (none_eligible r ic bound -> find_max_in_col r ic bound = (zero, 0))
  /\ (is_nan bound = true \/ leb bound zero = true -> none_eligible r ic bound).
Proof.
  intros Hwf Hic. destruct (wf_unpack r Hwf) as (_ & _ & Hnb & _).
  assert (Hedge : is_nan bound = true \/ leb bound zero = true ->
                  none_eligible r ic bound).
  { intros Hb ir Hir. destruct (leb zero (cell r ir ic)) eqn:E1; [|reflexivity].
    destruct (ltb (cell r ir ic) bound) eqn:E2; [|reflexivity].
    destruct (ltb_not_nan _ _ E2) as [_ Hbn].
    destruct Hb as [Hb|Hb]; [congruence|].
    pose proof (leb_trans _ _ _ Hb E1) as Hle.
    apply leb_not_ltb in Hle. congruence. }
  destruct (find_max_in_col_outcome r ic bound Hwf Hic) as [(Hnone & Hst)|(Hsome & Hlast)].
  - rewrite Hst. cbn [fst snd]. split; [reflexivity|]. split; [lia|].
    split; [|split; [reflexivity | exact Hedge]].
    intros (ir & Hir & He). rewrite Hnone in He by exact Hir. discriminate.
  - destruct (find_max_in_col r ic bound) as [v row]. cbn [fst snd].
    destruct Hlast as (Hrow & Hval & Hv & Hvb & Hle & Hlater).
    split; [exact Hv|]. split; [exact Hrow|]. split.
    + intros _. repeat split; auto; lia.
    + split; [|exact Hedge]. intros Hnone. destruct Hsome as (ir & Hir & He).
      rewrite Hnone in He by exact Hir. discriminate.
Qed.

Lemma find_max_in_col_any_contents_witness :
  let r := mk 1 2 2 0 [S754_nan; of_Z (-1); of_Z 2; of_Z 1] in
  wf r
  /\ find_max_in_col r 1 (of_Z 2) = (of_Z 1, 1)
  /\ is_last_max_below_any r 1 (of_Z 2) (find_max_in_col r 1 (of_Z 2))
  /\ find_max_in_col r 0 S754_nan = (zero, 0).
Proof.
  intros r.
  assert (Hwf : wf r) by reflexivity.
  destruct (find_max_in_col_any_contents r 1 (of_Z 2) Hwf) as (_ & _ & Hsome & _);
    [unfold r; cbn [_message_length]; lia|].
  destruct (find_max_in_col_any_contents r 0 S754_nan Hwf) as (_ & _ & _ & Hnone & Hedge);
    [unfold r; cbn [_message_length]; lia|].
  split; [exact Hwf|]. split; [reflexivity|]. split.
  - apply Hsome. exists 1. split; [unfold r; cbn [_nb_symbols]; lia | reflexivity].
  - apply Hnone, Hedge. now left.
Defined.

(** Property X12.
    The two searches agree: the value and row that [find_max] reports,
    when some cell compares [>= 0.0], are what [find_max_in_col] reports
    for the column [find_max] reports, under any bound the value is
    below. *)
Theorem find_max_in_col_agrees r bound :
  wf r ->
  (exists ir ic, in_range r ir ic /\ leb zero (cell r ir ic) = true) ->
  ltb (fst (fst (find_max r))) bound = true ->
  find_max_in_col r (snd (find_max r)) bound
  = (fst (fst (find_max r)), snd (fst (find_max r))).
Proof.
  intros Hwf Hsome Hb.
  destruct (find_max_outcome r Hwf) as [(Hnone & _)|(_ & Hlast)].
  { destruct Hsome as (ir & ic & Hin & Hpos).
    rewrite Hnone in Hpos by exact Hin. discriminate. }
  destruct (find_max r) as [[v row] col]. cbn [fst snd] in *.
  destruct Hlast as ([Hrow Hcol] & Hval & Hv & Hbound & Hlater).
  destruct (find_max_in_col_outcome r col bound Hwf Hcol) as [(Hnone & _)|(_ & Hc)].
  { specialize (Hnone row Hrow). rewrite <- Hval, Hv, Hb in Hnone. discriminate. }
  destruct (find_max_in_col r col bound) as [v' row'].
  destruct Hc as (Hrow' & Hval' & Hv' & Hvb' & Hle' & Hlater').
  assert (H1 : leb v v' = true) by (rewrite Hval at 1; apply Hle'; [exact Hrow | now rewrite <- Hval]).
  assert (H2 : leb v' v = true).
  { destruct (Hbound row' col) as [Hn|Hl]; [split; assumption | |].
    - rewrite <- Hval' in Hn. apply leb_not_nan in Hv'. destruct Hv'. congruence.
    - now rewrite Hval'. }
  assert (row' = row).
  { destruct (Z.lt_trichotomy row' row) as [Hlt|[Heq|Hgt]]; [|exact Heq|].
    - pose proof (Hlater' row ltac:(lia)) as H. rewrite <- Hval in H.
      specialize (H Hb). apply leb_not_ltb in H2. congruence.
    - pose proof (Hlater row' col ltac:(split; assumption)) as H.
      rewrite <- Hval' in H. unfold geb in H.
      rewrite H1 in H. discriminate H. unfold scanned_after. lia. }
  subst row'. congruence.
Qed.

Lemma find_max_in_col_agrees_witness :
  let r := mk 1 2 2 0 [of_Z 1; of_Z 3; of_Z 3; of_Z 2] in
  wf r /\ find_max r = (of_Z 3, 0, 1)
  /\ find_max_in_col r 1 (of_Z 4) = (of_Z 3, 0).
Proof.
  intros r.
  assert (Hwf : wf r) by reflexivity.
  split; [exact Hwf|]. split; [reflexivity|].
  apply (find_max_in_col_agrees r (of_Z 4) Hwf).
  - exists 0, 0.
    split; [unfold in_range, r; cbn [_nb_symbols _message_length]; lia | reflexivity].
  - reflexivity.
Defined.

End SearchAnyContentsClaims.

(* ====================================================================== *)
(** * The reliability matrix: [normalize] and [deinterleave] together *)

Section Composition.

Import F32 RelMat RelMatExt.

Lemma spec_bit_reverse_bits w :
  forall i j, 0 <= j < Z.of_nat w ->
    Z.testbit (spec_bit_reverse w i) j = Z.testbit i (Z.of_nat w - 1 - j).
Proof.
  induction w as [|w IH]; intros i j Hj; [lia|].
  cbn [spec_bit_reverse]. rewrite Z.add_comm, <- Z.bit0_mod.
  rewrite testbit_add_high by (try lia; apply spec_bit_reverse_range).
  destruct (Z.ltb_spec j (Z.of_nat w)) as [Hlt|Hge].
  - rewrite IH by lia. rewrite Z.div2_bits by lia. f_equal. lia.
  - destruct (Z.eqb_spec j (Z.of_nat w)) as [->|Hne]; [|lia]. f_equal. lia.
Qed.

Lemma bits_above x w n : 0 <= x < 2 ^ w -> 0 <= w <= n -> Z.testbit x n = false.
Proof.
  intros Hx Hn. rewrite <- (Z.mod_small x (2 ^ w)) by lia.
  apply Z.mod_pow2_bits_high. lia.
Qed.

(** Reversing the bits twice gives the index back. *)
Lemma spec_bit_reverse_involutive w i :
  0 <= i < 2 ^ Z.of_nat w -> spec_bit_reverse w (spec_bit_reverse w i) = i.
Proof.
  intros Hi. apply Z.bits_inj'. intros n Hn.
  destruct (Z.lt_ge_cases n (Z.of_nat w)) as [Hlt|Hge].
  - rewrite !spec_bit_reverse_bits by lia. f_equal. lia.
  - rewrite (bits_above _ (Z.of_nat w) n) by (try lia; apply spec_bit_reverse_range).
    symmetry. apply (bits_above _ (Z.of_nat w)); lia.
Qed.

Lemma filter_all {A} (p : A -> bool) l :
  (forall x, In x l -> p x = true) -> filter p l = l.
Proof.
  induction l as [|x l IH]; intros H; [reflexivity|].
  cbn [filter]. rewrite (H x) by now left.
  f_equal. apply IH. intros y Hy. apply H. now right.
Qed.

(** With a number of columns that is a power of two every reversed index
    is a column: the reading order is the bit reversal itself. *)
Lemma spec_sources_power_of_two r w j :
  power_of_two (_message_length r) w -> 0 <= j < _message_length r ->
  nth (Z.to_nat j) (spec_sources r) 0 = spec_bit_reverse (Z.to_nat w) j
  /\ 0 <= spec_bit_reverse (Z.to_nat w) j < _message_length r.
Proof.
  intros [Hw Hml] Hj.
  pose proof (spec_bit_reverse_range (Z.to_nat w) j) as Hrange.
  rewrite Z2Nat.id in Hrange by lia.
  split; [|lia].
  unfold spec_sources, sources, spec_width. rewrite Hml, Z.log2_up_pow2 by lia.
  rewrite filter_all.
  - rewrite <- (spec_bit_reverse_0 (Z.to_nat w)) at 1.
    rewrite map_nth, iota_nth; [f_equal; lia|].
    apply Nat2Z.inj_lt. rewrite pow2_nat, !Z2Nat.id by lia. lia.
  - intros x Hx. apply in_map_iff in Hx. destruct Hx as (i & <- & _).
    pose proof (spec_bit_reverse_range (Z.to_nat w) i) as Hr.
    rewrite Z2Nat.id in Hr by lia. apply Z.ltb_lt. lia.
Qed.

Lemma spec_sources_shape r r' :
  _message_length r' = _message_length r -> spec_sources r' = spec_sources r.
Proof. intros H. unfold spec_sources, sources, spec_width. now rewrite H. Qed.

Lemma nth_source_in_range r j :
  1 <= _message_length r < 2 ^ 31 -> 0 <= j < _message_length r ->
  0 <= nth (Z.to_nat j) (spec_sources r) 0 < _message_length r.
Proof.
  intros Hml Hj. destruct (spec_sources_facts r Hml) as (_ & Hlen & Hall).
  apply Hall, nth_In. lia.
Qed.

Lemma deinterleave_column r jc :
  wf r -> 1 <= _message_length r < 2 ^ 31 -> 0 <= jc < _message_length r ->
  column (deinterleave r) jc = column r (nth (Z.to_nat jc) (spec_sources r) 0).
Proof.
  intros Hwf Hml Hjc. unfold column.
  replace (_nb_symbols (deinterleave r)) with (_nb_symbols r) by reflexivity.
  apply map_ext_in. intros i Hi. apply in_seq in Hi.
  apply deinterleave_cell; auto. split; [lia | exact Hjc].
Qed.

Lemma add_nan_l x y : is_nan x = true -> is_nan (add x y) = true.
Proof. destruct x; try discriminate. reflexivity. Qed.

Lemma add_nan_r x y : is_nan y = true -> is_nan (add x y) = true.
Proof. destruct y; try discriminate. destruct x; reflexivity. Qed.

Lemma div_nan_r x y : is_nan y = true -> is_nan (div x y) = true.
Proof. destruct y; try discriminate. destruct x; reflexivity. Qed.

Lemma fold_add_nan l :
  forall acc, is_nan acc = true \/ (exists x, In x l /\ is_nan x = true) ->
    is_nan (fold_left add l acc) = true.
Proof.
  induction l as [|y l IH]; intros acc H; cbn [fold_left].
  - destruct H as [H|(x & [] & _)]. exact H.
  - apply IH. destruct H as [H|(x & [<-|Hin] & Hx)].
    + left. now apply add_nan_l.
    + left. now apply add_nan_r.
    + right. now exists x.
Qed.

Lemma cell_in_column r ir ic :
  0 <= ir < _nb_symbols r -> In (cell r ir ic) (column r ic).
Proof.
  intros Hir. unfold column. apply in_map_iff. exists (Z.to_nat ir).
  split; [now rewrite Z2Nat.id by lia | apply in_seq; lia].
Qed.

End Composition.

Section CompositionClaims.

Import F32 RelMat RelMatExt.

(** Property X13.
    On a matrix whose number of columns is a power of two (below
    [2^31]), [deinterleave] moves to each column the column at the
    bit-reversed index, and applying it twice gives the matrix back. *)
Theorem deinterleave_involution r w :
  wf r -> power_of_two (_message_length r) w -> _message_length r < 2 ^ 31 ->
  (forall ir ic, in_range r ir ic ->
     cell (deinterleave r) ir ic = cell r ir (spec_bit_reverse (Z.to_nat w) ic))
  /\ deinterleave (deinterleave r) = r.
Proof.
  intros Hwf Hpow Hlt.
  assert (Hml : 1 <= _message_length r < 2 ^ 31).
  { destruct Hpow as [Hw Hp]. split; [|exact Hlt].
    pose proof (Z.pow_pos_nonneg 2 w ltac:(lia) Hw). lia. }
  assert (Hcell : forall ir ic, in_range r ir ic ->
            cell (deinterleave r) ir ic = cell r ir (spec_bit_reverse (Z.to_nat w) ic)).
  { intros ir ic Hin. rewrite deinterleave_cell by auto.
    destruct Hin as [_ Hic].
    now rewrite (proj1 (spec_sources_power_of_two r w ic Hpow Hic)). }
  split; [exact Hcell|].
  pose proof (deinterleave_wf r Hwf Hml) as Hwfd.
  assert (Hmld : _message_length (deinterleave r) = _message_length r) by reflexivity.
  assert (Hpowd : power_of_two (_message_length (deinterleave r)) w)
    by (rewrite Hmld; exact Hpow).
  apply cells_ext; auto.
  - apply deinterleave_wf; [exact Hwfd | rewrite Hmld; exact Hml].
  - repeat split.
  - intros ir ic Hin.
    assert (Hin' : in_range (deinterleave r) ir ic) by exact Hin.
    rewrite deinterleave_cell; [|exact Hwfd | rewrite Hmld; exact Hml | exact Hin'].
    destruct Hin as [Hir Hic].
    rewrite (proj1 (spec_sources_power_of_two _ w ic Hpowd Hic)).
    destruct (spec_sources_power_of_two r w ic Hpow Hic) as [_ Hrange].
    rewrite Hcell by (split; assumption).
    rewrite spec_bit_reverse_involutive; [reflexivity|].
    destruct Hpow as [Hw Hp]. rewrite Z2Nat.id by lia. lia.
Qed.

Lemma deinterleave_involution_witness :
  let r := mk 0 1 4 0 [of_Z 1; of_Z 2; of_Z 3; of_Z 4] in
  wf r
  /\ _matrix (deinterleave r) = [of_Z 1; of_Z 3; of_Z 2; of_Z 4]
  /\ deinterleave (deinterleave r) = r.
Proof.
  intros r.
  assert (Hwf : wf r) by reflexivity.
  split; [exact Hwf|]. split; [reflexivity|].
  refine (proj2 (deinterleave_involution r 2 Hwf _ _)).
  - split; [lia | reflexivity].
  - reflexivity.
Defined.

(** Property X14.
    [normalize] and [deinterleave] commute: on a well-formed matrix with
    at least one column and fewer than [2^31], normalizing the
    de-interleaved matrix and de-interleaving the normalized one give the
    same object. *)
Theorem normalize_deinterleave_commute r :
  wf r -> 1 <= _message_length r < 2 ^ 31 ->
  normalize (deinterleave r) = deinterleave (normalize r).
Proof.
  intros Hwf Hml.
  set (d := deinterleave r). set (nr := normalize r).
  assert (Hwfd : wf d) by now apply deinterleave_wf.
  assert (Hwfn : wf nr) by now apply normalize_wf.
  assert (Hmld : _message_length d = _message_length r) by reflexivity.
  assert (Hmln : _message_length nr = _message_length r) by reflexivity.
  assert (Hmax : _message_length r < 2 ^ 32 - 1) by lia.
  assert (Hsrc : spec_sources nr = spec_sources r) by now apply spec_sources_shape.
  apply (cells_ext (deinterleave nr) (normalize d)).
  - apply deinterleave_wf; [exact Hwfn | rewrite Hmln; exact Hml].
  - now apply normalize_wf.
  - repeat split.
  - reflexivity.
  - intros ir ic Hin.
    assert (Hinr : in_range r ir ic) by exact Hin.
    destruct Hinr as [Hir Hic].
    pose proof (nth_source_in_range r ic Hml Hic) as Hs.
    rewrite (proj2 (normalize_cells d Hwfd ltac:(rewrite Hmld; exact Hmax))) by exact Hin.
    rewrite deinterleave_cell;
      [|exact Hwfn | rewrite Hmln; exact Hml | exact Hin].
    rewrite Hsrc.
    rewrite (proj2 (normalize_cells r Hwf Hmax)) by (split; assumption).
    unfold normalized_cell, col_sum. subst d.
    rewrite deinterleave_column by auto.
    rewrite deinterleave_cell by (auto; split; assumption).
    reflexivity.
Qed.

Lemma normalize_deinterleave_commute_witness :
  let r := mk 0 1 4 0 [of_Z 1; of_Z 2; of_Z 3; of_Z 4] in
  wf r /\ normalize (deinterleave r) = deinterleave (normalize r).
Proof.
  intros r.
  assert (Hwf : wf r) by reflexivity.
  split; [exact Hwf|].
  apply (normalize_deinterleave_commute r Hwf).
  unfold r; cbn [_message_length]; lia.
Defined.

(** Property X15.
    A NaN anywhere in a column makes [normalize] turn every cell of that
    column into a NaN: the column sum is then a NaN, which compares
    different from 0.0, and each cell is divided by it. *)
Theorem normalize_nan_column r ir ic :
  wf r -> _message_length r < 2 ^ 32 - 1 ->
  in_range r ir ic -> is_nan (cell r ir ic) = true ->
  is_nan (col_sum r ic) = true
  /\ forall jr, 0 <= jr < _nb_symbols r -> is_nan (cell (normalize r) jr ic) = true.
Proof.
  intros Hwf Hmax [Hir Hic] Hnan.
  assert (Hsum : is_nan (col_sum r ic) = true).
  { unfold col_sum. apply fold_add_nan. right.
    exists (cell r ir ic). split; [now apply cell_in_column | exact Hnan]. }
  split; [exact Hsum|].
  intros jr Hjr.
  rewrite (proj2 (normalize_cells r Hwf Hmax)) by (split; assumption).
  unfold normalized_cell.
  destruct (col_sum r ic); try discriminate.
  cbn. now apply div_nan_r.
Qed.

Lemma normalize_nan_column_witness :
  let r := mk 1 2 2 0 [of_Z 1; of_Z 2; S754_nan; of_Z 4] in
  wf r
  /\ is_nan (cell (normalize r) 1 1) = true
  /\ _matrix (normalize r)
     = [div (of_Z 1) (of_Z 3); div (of_Z 2) (of_Z 3); S754_nan; S754_nan].
Proof.
  intros r.
  assert (Hwf : wf r) by reflexivity.
  split; [exact Hwf|]. split; [|reflexivity].
  refine (proj2 (normalize_nan_column r 0 1 Hwf _ _ _) 1 _).
  - unfold r; cbn [_message_length]; lia.
  - unfold in_range, r; cbn [_nb_symbols _message_length]; lia.
  - reflexivity.
  - unfold r; cbn [_nb_symbols]; lia.
Defined.

End CompositionClaims.

(* ====================================================================== *)
(** * The encoder: register contents as a history of the input, and
      linearity *)

Section EncoderHistory.

Import Encoder EncoderExt.

Variables (reg_bits sym_bits : Z).

Lemma shifted_in_bits reg x i j :
  0 < reg_bits -> 0 <= j ->
  Z.testbit (shifted_in reg_bits reg x i) j
  = (j <? reg_bits) && (if j =? 0 then Z.testbit x i else Z.testbit reg (j - 1)).
Proof.
  intros Hrb Hj. unfold shifted_in, wrap.
  destruct (Z.ltb_spec j reg_bits) as [Hlt|Hge]; cbn [andb].
  - rewrite Z.mod_pow2_bits_low by lia.
    destruct (Z.eqb_spec j 0) as [->|Hne]; [apply Z.testbit_0_r|].
    replace j with (Z.succ (j - 1)) at 1 by lia.
    apply Z.testbit_succ_r. lia.
  - apply Z.mod_pow2_bits_high. lia.
Qed.

Lemma encode_all_cons e x no_step rest :
  snd (encode_all reg_bits sym_bits e ((x, no_step) :: rest))
  = snd (encode_all reg_bits sym_bits (snd (encode reg_bits sym_bits e x no_step)) rest)
  /\ fst (encode_all reg_bits sym_bits e ((x, no_step) :: rest))
     = snd (fst (encode reg_bits sym_bits e x no_step))
       :: fst (encode_all reg_bits sym_bits (snd (encode reg_bits sym_bits e x no_step)) rest).
Proof.
  cbn [encode_all].
  destruct (encode reg_bits sym_bits e x no_step) as [[ok out] e1]. cbn [fst snd].
  destruct (encode_all reg_bits sym_bits e1 rest) as [outs e2]. split; reflexivity.
Qed.

Lemma encode_plain_register e x i :
  wf reg_bits sym_bits e -> 0 <= i < k e ->
  get 0 (registers (snd (encode reg_bits sym_bits e x false))) i
  = shifted_in reg_bits (get 0 (registers e) i) x i.
Proof.
  intros Hwf Hi. unfold encode. cbn [snd with_registers registers].
  now apply (encode_step_registers reg_bits sym_bits e x Hwf).
Qed.

Lemma encode_all_size inputs e :
  wf reg_bits sym_bits e ->
  size (registers (snd (encode_all reg_bits sym_bits e inputs))) = k e.
Proof.
  intros Hwf. pose proof (encode_all_wf reg_bits sym_bits inputs e Hwf) as H.
  destruct (encoder_wf_unpack _ _ _ H) as (_ & _ & Hs & _).
  rewrite Hs. now rewrite (encode_all_config reg_bits sym_bits inputs e).
Qed.

(** The registers after a run of plain [encode] calls, bit by bit. *)
Lemma encode_all_bits inputs :
  forall e, wf reg_bits sym_bits e ->
    forall i j, 0 <= i < k e -> 0 <= j ->
      Z.testbit (get 0 (registers (snd (encode_all reg_bits sym_bits e (steps inputs)))) i) j
      = (j <? reg_bits) && history_bit inputs (get 0 (registers e) i) i j.
Proof.
  induction inputs as [|x rest IH]; intros e Hwf i j Hi Hj.
  - cbn [steps map encode_all snd]. unfold history_bit, size. cbn [List.length].
    change (Z.of_nat 0) with 0. destruct (Z.ltb_spec j 0); [lia|]. rewrite Z.sub_0_r.
    destruct (encoder_wf_unpack _ _ e Hwf) as (Hrb & _ & _ & Hrange & _).
    destruct (Z.ltb_spec j reg_bits); [reflexivity|]. cbn [andb].
    apply (bits_above _ reg_bits); [apply Hrange; lia | lia].
  - change (steps (x :: rest)) with ((x, false) :: steps rest).
    rewrite (proj1 (encode_all_cons e x false (steps rest))).
    destruct (encoder_wf_unpack _ _ e Hwf) as (Hrb & _).
    pose proof (proj1 (encode_any_wf reg_bits sym_bits e x false Hwf)) as Hwf1.
    rewrite IH by auto.
    rewrite encode_plain_register by auto.
    unfold history_bit, size. cbn [List.length]. rewrite Nat2Z.inj_succ.
    set (L := Z.of_nat (List.length rest)).
    assert (HL : 0 <= L) by (subst L; lia).
    destruct (Z.ltb_spec j reg_bits); cbn [andb]; [|reflexivity].
    destruct (Z.ltb_spec j L), (Z.ltb_spec j (Z.succ L)); try lia.
    + replace (Z.to_nat (Z.succ L - 1 - j)) with (S (Z.to_nat (L - 1 - j))) by lia.
      reflexivity.
    + rewrite shifted_in_bits by lia. replace (j - L) with 0 by lia.
      replace (Z.to_nat (Z.succ L - 1 - j)) with 0%nat by lia.
      destruct (Z.ltb_spec 0 reg_bits); [reflexivity | lia].
    + rewrite shifted_in_bits by lia.
      destruct (Z.ltb_spec (j - L) reg_bits); [|lia].
      destruct (Z.eqb_spec (j - L) 0); [lia|]. cbn [andb]. f_equal. lia.
Qed.

(** Once as many symbols as a register has bits went in, the registers
    no longer depend on what they held before. *)
Lemma encode_all_flushed inputs e e' :
  wf reg_bits sym_bits e -> wf reg_bits sym_bits e' -> k e = k e' ->
  reg_bits <= size inputs ->
  registers (snd (encode_all reg_bits sym_bits e (steps inputs)))
  = registers (snd (encode_all reg_bits sym_bits e' (steps inputs))).
Proof.
  intros Hwf Hwf' Hk Hlen.
  pose proof (encode_all_size (steps inputs) e Hwf) as Hs.
  pose proof (encode_all_size (steps inputs) e' Hwf') as Hs'.
  apply (get_ext 0); [unfold size in *; lia|].
  intros i Hi. apply Z.bits_inj'. intros j Hj.
  rewrite !encode_all_bits by (auto; unfold size in *; lia).
  destruct (Z.ltb_spec j reg_bits); [|reflexivity]. cbn [andb].
  unfold history_bit. destruct (Z.ltb_spec j (size inputs)); [reflexivity | lia].
Qed.

Lemma encode_all_deterministic inputs :
  forall a b, same_code a b -> registers a = registers b ->
    fst (encode_all reg_bits sym_bits a inputs) = fst (encode_all reg_bits sym_bits b inputs).
Proof.
  induction inputs as [|[x no_step] rest IH]; intros a b Hcode Hregs; [reflexivity|].
  rewrite (proj2 (encode_all_cons a x no_step rest)).
  rewrite (proj2 (encode_all_cons b x no_step rest)).
  destruct (encode_deterministic reg_bits sym_bits a b x no_step Hcode Hregs) as [Ho Hr].
  f_equal.
  - unfold encode in *. cbn [fst snd] in *. congruence.
  - apply IH; [|exact Hr]. exact Hcode.
Qed.

Lemma lxor_all_get a b i :
  size a = size b -> get 0 (lxor_all a b) i = Z.lxor (get 0 a i) (get 0 b i).
Proof.
  intros Hs. unfold get, lxor_all.
  change (nth (Z.to_nat i) (map (fun p => Z.lxor (fst p) (snd p)) (combine a b)) 0)
    with (nth (Z.to_nat i) (map (fun p => Z.lxor (fst p) (snd p)) (combine a b))
            ((fun p => Z.lxor (fst p) (snd p)) (0, 0))).
  rewrite map_nth, combine_nth by (unfold size in Hs; lia). reflexivity.
Qed.

Lemma lxor_all_size a b : size a = size b -> size (lxor_all a b) = size a.
Proof.
  intros Hs. unfold size, lxor_all in *. rewrite length_map, length_combine. lia.
Qed.

Lemma shifted_in_lxor a b x y i :
  0 < reg_bits ->
  shifted_in reg_bits (Z.lxor a b) (Z.lxor x y) i
  = Z.lxor (shifted_in reg_bits a x i) (shifted_in reg_bits b y i).
Proof.
  intros Hrb. apply Z.bits_inj'. intros j Hj.
  rewrite Z.lxor_spec, !shifted_in_bits by lia.
  destruct (j <? reg_bits); [|reflexivity]. cbn [andb].
  destruct (j =? 0); now rewrite Z.lxor_spec.
Qed.

Lemma odd_filter_xor (f g : nat -> bool) l :
  Z.odd (Z.of_nat (List.length (filter (fun j => xorb (f j) (g j)) l)))
  = xorb (Z.odd (Z.of_nat (List.length (filter f l))))
         (Z.odd (Z.of_nat (List.length (filter g l)))).
Proof.
  induction l as [|c l IH]; [reflexivity|].
  cbn [filter].
  destruct (f c), (g c); cbn [xorb List.length];
    rewrite ?Nat2Z.inj_succ, ?Z.odd_succ, <- ?Z.negb_odd, IH;
    generalize (Z.odd (Z.of_nat (List.length (filter f l))))
               (Z.odd (Z.of_nat (List.length (filter g l))));
    intros [] []; reflexivity.
Qed.

Lemma parity_lxor u v :
  parity reg_bits (Z.lxor u v) = xorb (parity reg_bits u) (parity reg_bits v).
Proof.
  unfold parity, popcount.
  rewrite (filter_ext _ (fun j => xorb (Z.testbit u (Z.of_nat j)) (Z.testbit v (Z.of_nat j))))
    by (intros j; apply Z.lxor_spec).
  apply odd_filter_xor.
Qed.

Lemma fold_xorb_map {A} (f g h : A -> bool) l :
  (forall c, h c = xorb (f c) (g c)) ->
  forall a b,
    fold_left xorb (map h l) (xorb a b)
    = xorb (fold_left xorb (map f l) a) (fold_left xorb (map g l) b).
Proof.
  intros H. induction l as [|c l IH]; intros a b; [reflexivity|].
  cbn [map fold_left]. rewrite <- IH. f_equal. rewrite H.
  destruct a, b, (f c), (g c); reflexivity.
Qed.

Lemma output_symbol_with_registers e c regs :
  output_symbol reg_bits sym_bits (with_registers e c) regs
  = output_symbol reg_bits sym_bits e regs.
Proof. reflexivity. Qed.

Lemma land_lxor_distr a b c :
  Z.land (Z.lxor a b) c = Z.lxor (Z.land a c) (Z.land b c).
Proof.
  apply Z.bits_inj'. intros j _.
  rewrite Z.land_spec, !Z.lxor_spec, !Z.land_spec.
  destruct (Z.testbit a j), (Z.testbit b j), (Z.testbit c j); reflexivity.
Qed.

Lemma output_bit_lxor e ra rb rc j :
  (forall i, get 0 rc i = Z.lxor (get 0 ra i) (get 0 rb i)) ->
  output_bit reg_bits e rc j
  = xorb (output_bit reg_bits e ra j) (output_bit reg_bits e rb j).
Proof.
  intros H. unfold output_bit.
  change false with (xorb false false) at 1.
  apply fold_xorb_map. intros c.
  now rewrite H, land_lxor_distr, parity_lxor.
Qed.

End EncoderHistory.

Section EncoderHistoryClaims.

Import Encoder EncoderExt.

Variables (reg_bits sym_bits : Z).

(** Property X16.
    After any number of plain [encode] calls each register is a value of
    the register width in which bit [j] is bit [i] of the symbol entered
    [j] calls before the last one, for as many low bits as symbols went
    in; the bits above are the old contents moved up, those pushed past
    the register width being lost. *)
Theorem register_history e inputs i :
  wf reg_bits sym_bits e -> 0 <= i < k e ->
  0 <= get 0 (registers (snd (encode_all reg_bits sym_bits e (steps inputs)))) i
    < 2 ^ reg_bits
  /\ forall j, 0 <= j < reg_bits ->
       Z.testbit (get 0 (registers (snd (encode_all reg_bits sym_bits e (steps inputs)))) i) j
       = history_bit inputs (get 0 (registers e) i) i j.
Proof.
  intros Hwf Hi.
  pose proof (encode_all_wf reg_bits sym_bits (steps inputs) e Hwf) as Hwf'.
  destruct (encoder_wf_unpack _ _ _ Hwf') as (_ & _ & _ & Hrange & _).
  split.
  - apply Hrange. now rewrite (encode_all_config reg_bits sym_bits (steps inputs) e).
  - intros j Hj. rewrite encode_all_bits by (auto; lia).
    destruct (Z.ltb_spec j reg_bits); [reflexivity | lia].
Qed.

(** Property X17.
    The encoder has finite memory: two encoders of the same code that
    were fed the same symbols, at least as many as a register has bits,
    hold the same registers whatever they held before, and from then on
    give the same output on every sequence of calls. *)
Theorem encode_finite_memory e e' inputs :
  wf reg_bits sym_bits e -> wf reg_bits sym_bits e' -> same_code e e' ->
  reg_bits <= size inputs ->
  registers (snd (encode_all reg_bits sym_bits e (steps inputs)))
  = registers (snd (encode_all reg_bits sym_bits e' (steps inputs)))
  /\ forall more,
       fst (encode_all reg_bits sym_bits
              (snd (encode_all reg_bits sym_bits e (steps inputs))) more)
       = fst (encode_all reg_bits sym_bits
                (snd (encode_all reg_bits sym_bits e' (steps inputs))) more).
Proof.
  intros Hwf Hwf' Hcode Hlen.
  assert (Hregs := encode_all_flushed reg_bits sym_bits inputs e e' Hwf Hwf' (proj1 Hcode) Hlen).
  split; [exact Hregs|].
  intros more. apply encode_all_deterministic; [|exact Hregs].
  rewrite (encode_all_config reg_bits sym_bits (steps inputs) e).
  rewrite (encode_all_config reg_bits sym_bits (steps inputs) e').
  exact Hcode.
Qed.

(** Property X18.
    A tail of symbols whose [k] low bits are zero, as long as a register
    has bits, brings the encoder back to the cleared state. *)
Theorem encode_zero_tail_clears e inputs :
  wf reg_bits sym_bits e -> reg_bits <= size inputs ->
  (forall x, In x inputs -> low_bits_clear (k e) x) ->
  snd (encode_all reg_bits sym_bits e (steps inputs)) = clear (k e) e.
Proof.
  intros Hwf Hlen Hzero.
  rewrite (encode_all_config reg_bits sym_bits (steps inputs) e).
  unfold clear. f_equal.
  pose proof (encode_all_size reg_bits sym_bits (steps inputs) e Hwf) as Hs.
  destruct (encoder_wf_unpack _ _ e Hwf) as (_ & Hk & _).
  apply (get_ext 0).
  - unfold clear_registers. rewrite repeat_length. unfold size in Hs. lia.
  - intros i Hi. unfold clear_registers. rewrite get_repeat_zero.
    apply Z.bits_inj'. intros j Hj. rewrite Z.bits_0.
    rewrite encode_all_bits by (auto; unfold size in Hs; lia).
    destruct (Z.ltb_spec j reg_bits); [|reflexivity]. cbn [andb].
    unfold history_bit. destruct (Z.ltb_spec j (size inputs)); [|lia].
    apply Hzero; [|unfold size in Hs; lia].
    apply nth_In. unfold size in *. lia.
Qed.

(** Property X19.
    [encode] is linear over GF(2): encoding the XOR of two symbols from
    the XOR of two register arrays gives the XOR of the two output symbols
    and leaves the XOR of the two resulting register arrays. *)
Theorem encode_linear e a b x y :
  wf reg_bits sym_bits (with_registers e a) ->
  wf reg_bits sym_bits (with_registers e b) ->
  encode reg_bits sym_bits (with_registers e (lxor_all a b)) (Z.lxor x y) false
  = (true,
     Z.lxor (snd (fst (encode reg_bits sym_bits (with_registers e a) x false)))
            (snd (fst (encode reg_bits sym_bits (with_registers e b) y false))),
     with_registers e
       (lxor_all
          (registers (snd (encode reg_bits sym_bits (with_registers e a) x false)))
          (registers (snd (encode reg_bits sym_bits (with_registers e b) y false))))).
Proof.
  intros Ha Hb.
  destruct (encoder_wf_unpack _ _ _ Ha) as (Hrb & Hk & Hsa & _ & Hn).
  destruct (encoder_wf_unpack _ _ _ Hb) as (_ & _ & Hsb & _ & _).
  cbn [with_registers k n registers] in Hk, Hsa, Hsb, Hn.
  assert (Hsc : size (lxor_all a b) = k e) by (rewrite lxor_all_size; congruence).
  destruct (load_registers_spec reg_bits (with_registers e a) x false Hk Hsa) as [La Ga].
  destruct (load_registers_spec reg_bits (with_registers e b) y false Hk Hsb) as [Lb Gb].
  destruct (load_registers_spec reg_bits (with_registers e (lxor_all a b)) (Z.lxor x y)
              false Hk Hsc) as [Lc Gc].
  cbn [with_registers k registers] in La, Ga, Lb, Gb, Lc, Gc.
  set (ra := load_registers reg_bits (with_registers e a) x false) in *.
  set (rb := load_registers reg_bits (with_registers e b) y false) in *.
  set (rc := load_registers reg_bits (with_registers e (lxor_all a b)) (Z.lxor x y) false)
    in *.
  assert (Hsize : size ra = size rb) by (unfold size in *; lia).
  assert (Hregs : rc = lxor_all ra rb).
  { apply (get_ext 0).
    - pose proof (lxor_all_size ra rb Hsize). unfold size in *. lia.
    - intros i Hi. rewrite lxor_all_get by exact Hsize.
      assert (Hik : 0 <= i < k e) by (unfold size in *; lia).
      rewrite Ga, Gb, Gc by exact Hik. rewrite !clocked_step by lia.
      rewrite lxor_all_get by congruence. now apply shifted_in_lxor. }
  assert (Ra : forall i, 0 <= i < k e -> 0 <= get 0 ra i < 2 ^ reg_bits)
    by (intros i Hi; rewrite Ga by exact Hi; now apply clocked_range).
  assert (Rb : forall i, 0 <= i < k e -> 0 <= get 0 rb i < 2 ^ reg_bits)
    by (intros i Hi; rewrite Gb by exact Hi; now apply clocked_range).
  assert (Rc : forall i, 0 <= i < k e -> 0 <= get 0 rc i < 2 ^ reg_bits)
    by (intros i Hi; rewrite Gc by exact Hi; now apply clocked_range).
  assert (H0 : 0 <= reg_bits) by lia.
  unfold encode. fold ra rb rc. cbn [fst snd registers with_registers].
  rewrite !output_symbol_with_registers.
  f_equal; [f_equal|].
  - apply Z.bits_inj'. intros j Hj. rewrite Z.lxor_spec.
    rewrite (proj2 (output_symbol_spec reg_bits sym_bits e rc H0 Hn Rc)).
    rewrite (proj2 (output_symbol_spec reg_bits sym_bits e ra H0 Hn Ra)).
    rewrite (proj2 (output_symbol_spec reg_bits sym_bits e rb H0 Hn Rb)).
    destruct ((0 <=? j) && (j <? n e)); [|reflexivity]. cbn [andb].
    apply output_bit_lxor. intros i. rewrite Hregs. now apply lxor_all_get.
  - now rewrite Hregs.
Qed.

End EncoderHistoryClaims.

Section EncoderHistoryWitness.

Import Encoder EncoderExt.

Lemma register_history_witness :
  let e := mk 1 2 3 [3] [[7; 5]] [200] in
  wf 8 8 e
  /\ get 0 (registers (snd (encode_all 8 8 e (steps [1; 0; 1])))) 0 = 69
  /\ Z.testbit (get 0 (registers (snd (encode_all 8 8 e (steps [1; 0; 1])))) 0) 6
     = Z.testbit 200 3.
Proof.
  intros e.
  assert (Hwf : wf 8 8 e) by reflexivity.
  split; [exact Hwf|]. split; [reflexivity|].
  refine (proj2 (register_history 8 8 e [1; 0; 1] 0 Hwf _) 6 _).
  - unfold e; cbn [k]; lia.
  - lia.
Defined.

Lemma encode_finite_memory_witness :
  let e := mk 1 2 3 [3] [[7; 5]] [5] in
  let e' := mk 1 2 3 [3] [[7; 5]] [2] in
  wf 3 8 e /\ wf 3 8 e'
  /\ registers (snd (encode_all 3 8 e (steps [1; 1; 0])))
     = registers (snd (encode_all 3 8 e' (steps [1; 1; 0]))).
Proof.
  intros e e'.
  assert (Hwf : wf 3 8 e) by reflexivity.
  assert (Hwf' : wf 3 8 e') by reflexivity.
  split; [exact Hwf|]. split; [exact Hwf'|].
  refine (proj1 (encode_finite_memory 3 8 e e' [1; 1; 0] Hwf Hwf' _ _)).
  - repeat split.
  - cbn. lia.
Defined.

Lemma encode_zero_tail_clears_witness :
  let e := mk 1 2 3 [3] [[7; 5]] [5] in
  wf 3 8 e /\ snd (encode_all 3 8 e (steps [0; 2; 0])) = clear 1 e.
Proof.
  intros e.
  assert (Hwf : wf 3 8 e) by reflexivity.
  split; [exact Hwf|].
  apply (encode_zero_tail_clears 3 8 e [0; 2; 0] Hwf).
  - cbn. lia.
  - intros x Hx i Hi. unfold e in Hi; cbn [k] in Hi. assert (i = 0) as -> by lia.
    destruct Hx as [<-|[<-|[<-|[]]]]; reflexivity.
Defined.

Lemma encode_linear_witness :
  let e := mk 1 2 3 [3] [[7; 5]] [0] in
  wf 8 8 (with_registers e [5]) /\ wf 8 8 (with_registers e [3])
  /\ encode 8 8 (with_registers e [6]) 1 false
     = (true, Z.lxor 2 2, with_registers e [13]).
Proof.
  intros e.
  assert (Ha : wf 8 8 (with_registers e [5])) by reflexivity.
  assert (Hb : wf 8 8 (with_registers e [3])) by reflexivity.
  split; [exact Ha|]. split; [exact Hb|].
  exact (encode_linear 8 8 e [5] [3] 1 0 Ha Hb).
Defined.

End EncoderHistoryWitness.

(* ====================================================================== *)
(** * The encoder: which exception for which configuration, and
      [encode] with [no_step] *)

Section ConstructionMessages.

Import Encoder EncoderExt.

Variables (reg_bits sym_bits N_k : Z).



End ConstructionMessages.

Section ConstructionMessagesWitness.

Import Encoder EncoderExt.


End ConstructionMessagesWitness.

Section NoStep.

Import Encoder EncoderExt.

Variables (reg_bits sym_bits : Z).

(** With [no_step] a register keeps every bit but bit 0, which becomes
    the input bit. *)
Lemma clocked_no_step_bits reg x i j :
  0 < reg_bits -> 0 <= reg < 2 ^ reg_bits -> 0 <= i -> 0 <= j ->
  Z.testbit (clocked reg_bits true reg (Z.shiftr x i)) j
  = if j =? 0 then Z.testbit x i else Z.testbit reg j.
Proof.
  intros Hrb Hreg Hi Hj. unfold clocked. rewrite shiftr_bit by exact Hi.
  rewrite Z.shiftr_div_pow2, Z.shiftl_mul_pow2 by lia.
  change (2 ^ 1) with 2.
  pose proof (Z.div_mod reg 2 ltac:(lia)) as Hdm.
  pose proof (Z.mod_pos_bound reg 2 ltac:(lia)) as Hmod.
  assert (Hp : 2 ^ reg_bits = 2 * 2 ^ (reg_bits - 1)).
  { rewrite <- Z.pow_succ_r by lia. f_equal. lia. }
  assert (Hb : 0 <= Z.b2z (Z.testbit x i) <= 1) by (destruct (Z.testbit x i); cbn; lia).
  rewrite (wrap_small reg_bits (reg / 2 * 2)) by lia.
  rewrite wrap_small by lia.
  rewrite (Z.mul_comm (reg / 2) 2).
  destruct (Z.eqb_spec j 0) as [->|Hne]; [apply Z.testbit_0_r|].
  replace j with (Z.succ (j - 1)) at 1 by lia.
  rewrite Z.testbit_succ_r, Z.div2_bits by lia. f_equal. lia.
Qed.

(** Property X21.
    [encode] with [no_step]: bit 0 of register [i] is replaced by bit [i]
    of the input symbol and every other bit of the registers is kept; the
    output symbol is formed from the registers so obtained as in a plain
    call. *)
Theorem encode_no_step_bits e x :
  wf reg_bits sym_bits e ->
  let out := snd (fst (encode reg_bits sym_bits e x true)) in
  let e' := snd (encode reg_bits sym_bits e x true) in
  fst (fst (encode reg_bits sym_bits e x true)) = true
  /\ wf reg_bits sym_bits e'
  /\ same_code e e'
  /\ (forall i j, 0 <= i < k e -> 0 <= j ->
        Z.testbit (get 0 (registers e') i) j
        = if j =? 0 then Z.testbit x i else Z.testbit (get 0 (registers e) i) j)
  /\ 0 <= out < 2 ^ n e
  /\ (forall j, Z.testbit out j
                = (0 <=? j) && (j <? n e) && output_bit reg_bits e (registers e') j).
Proof.
  intros Hwf.
  destruct (encoder_wf_unpack _ _ e Hwf) as (Hrb & Hk & Hsize & Hrange & Hn).
  pose proof (encode_any_wf reg_bits sym_bits e x true Hwf) as [Hwf' _].
  destruct (load_registers_spec reg_bits e x true Hk Hsize) as [Hl Hg].
  unfold encode in *. cbn [fst snd with_registers registers] in *.
  assert (Hregs : forall i, 0 <= i < k e ->
            0 <= get 0 (load_registers reg_bits e x true) i < 2 ^ reg_bits).
  { intros i Hi. rewrite Hg by exact Hi. now apply clocked_range. }
  destruct (output_symbol_spec reg_bits sym_bits e (load_registers reg_bits e x true)
              ltac:(lia) Hn Hregs) as [Hout Hbits].
  split; [reflexivity|]. split; [exact Hwf'|]. split; [repeat split|].
  split; [|split; [exact Hout | exact Hbits]].
  intros i j Hi Hj. rewrite Hg by exact Hi.
  apply clocked_no_step_bits; auto; lia.
Qed.

End NoStep.

Section NoStepWitness.

Import Encoder EncoderExt.

Lemma encode_no_step_bits_witness :
  let e := mk 1 2 3 [3] [[7; 5]] [6] in
  wf 8 8 e
  /\ encode 8 8 e 1 true = (true, 1, with_registers e [7])
  /\ Z.testbit (get 0 (registers (snd (encode 8 8 e 1 true))) 0) 2 = Z.testbit 6 2.
Proof.
  intros e.
  assert (Hwf : wf 8 8 e) by reflexivity.
  destruct (encode_no_step_bits 8 8 e 1 Hwf) as (_ & _ & _ & Hbits & _).
  split; [exact Hwf|]. split; [reflexivity|].
  apply (Hbits 0 2); [unfold e; cbn [k]; lia | lia].
Defined.

End NoStepWitness.

Section InputWidth.

Import Encoder EncoderExt.

Variables (reg_bits sym_bits : Z).

(** Property X22.
    [encode] reads the [k] low bits of the input symbol only: the bits at
    positions [k] and above change neither the output symbol nor the
    registers, with or without [no_step]. *)
Theorem encode_ignores_high_bits e x no_step :
  wf reg_bits sym_bits e ->
  encode reg_bits sym_bits e (x mod 2 ^ k e) no_step
  = encode reg_bits sym_bits e x no_step.
Proof.
  intros Hwf. destruct (encoder_wf_unpack _ _ e Hwf) as (Hrb & Hk & Hsize & _ & _).
  destruct (load_registers_spec reg_bits e x no_step Hk Hsize) as [Hl Hg].
  destruct (load_registers_spec reg_bits e (x mod 2 ^ k e) no_step Hk Hsize) as [Hl' Hg'].
  assert (Hregs : load_registers reg_bits e (x mod 2 ^ k e) no_step
                  = load_registers reg_bits e x no_step).
  { apply (get_ext 0); [congruence|].
    intros i Hi. rewrite Hl' in Hi. unfold size in Hsize.
    rewrite Hg, Hg' by lia. unfold clocked.
    rewrite !shiftr_bit by lia. now rewrite Z.mod_pow2_bits_low by lia. }
  unfold encode. now rewrite Hregs.
Qed.

End InputWidth.

Section InputWidthWitness.

Import Encoder EncoderExt.

Lemma encode_ignores_high_bits_witness :
  let e := mk 1 2 3 [3] [[7; 5]] [2] in
  wf 8 8 e /\ encode 8 8 e 1 false = encode 8 8 e 255 false.
Proof.
  intros e.
  assert (Hwf : wf 8 8 e) by reflexivity.
  split; [exact Hwf|].
  exact (encode_ignores_high_bits 8 8 e 255 false Hwf).
Defined.

End InputWidthWitness.

(* ====================================================================== *)
(** * The reliability matrix: a copy reads as its source *)

Section CopyReads.

Import F32 RelMat RelMatExt.

(** The copy constructor yields the source with the cursor at 0. *)
Lemma copy_eq r :
  wf r ->
  copy r = mk (_nb_symbols_log2 r) (_nb_symbols r) (_message_length r) 0 (_matrix r).
Proof.
  intros Hwf. pose proof (copy_matrix r Hwf) as Hm.
  unfold copy in *. cbn [_matrix] in Hm. now rewrite Hm.
Qed.

(** Property X23.
    Nothing that reads or transforms the metrics looks at the cursor: a
    copy, whose cursor is back at 0, gives the same result as its source
    under [find_max] and [find_max_in_col], and the same buffer under
    [normalize] and [deinterleave]. *)
Theorem copy_reads_alike r :
  wf r ->
  find_max (copy r) = find_max r
  /\ (forall ic bound, find_max_in_col (copy r) ic bound = find_max_in_col r ic bound)
  /\ _matrix (normalize (copy r)) = _matrix (normalize r)
  /\ _matrix (deinterleave (copy r)) = _matrix (deinterleave r)
  /\ columns (copy r) = columns r.
Proof.
  intros Hwf. rewrite (copy_eq r Hwf). repeat split.
Qed.

Lemma copy_reads_alike_witness :
  let r := mk 1 2 2 2 [of_Z 1; of_Z 2; of_Z 3; of_Z 4] in
  wf r /\ find_max (copy r) = (of_Z 4, 1, 1)
  /\ _matrix (deinterleave (copy r)) = _matrix (deinterleave r).
Proof.
  intros r.
  assert (Hwf : wf r) by reflexivity.
  destruct (copy_reads_alike r Hwf) as (Hmax & _ & _ & Hd & _).
  split; [exact Hwf|]. split; [rewrite Hmax; reflexivity | exact Hd].
Defined.

End CopyReads.

(* ====================================================================== *)
(** * The reliability matrix: [deinterleave] from [2^31] columns on *)

Section DeinterleaveWide.

Import F32 RelMat RelMatExt.

(** From [2^31] columns on, [index_size] is 32 and [1 << index_size],
    held in an [unsigned int], is 0: the loop is not entered and the
    matrix is left as it is. *)
Lemma deinterleave_wide r :
  2 ^ 31 <= _message_length r < 2 ^ 32 -> deinterleave r = r.
Proof.
  intros Hml.
  assert (Hlog : Z.log2 (_message_length r) = 31).
  { apply Z.log2_unique; [lia|]. change (2 ^ Z.succ 31) with (2 ^ 32). exact Hml. }
  assert (Hmax : index_max (index_size r) = 0).
  { unfold index_size. rewrite Hlog. reflexivity. }
  unfold deinterleave, deinterleave_at, deinterleave_loop.
  rewrite Hmax. cbn [Z.to_nat while_loop fst]. destruct r; reflexivity.
Qed.

(** The procedure of the specification, cell by cell, for any number of
    columns. *)
Lemma spec_deinterleave_cell r ir jc :
  wf r -> 1 <= _message_length r -> in_range r ir jc ->
  cell (spec_deinterleave r) ir jc
  = cell r ir (nth (Z.to_nat jc) (spec_sources r) 0).
Proof.
  intros Hwf Hml Hin.
  assert (Hw : 0 <= spec_width r) by apply Z.log2_up_nonneg.
  assert (Hcover : _message_length r <= 2 ^ spec_width r).
  { unfold spec_width. destruct (Z.eq_dec (_message_length r) 1) as [->|Hne].
    - cbn. lia.
    - pose proof (Z.log2_up_spec (_message_length r) ltac:(lia)). lia. }
  assert (Hlen : Z.of_nat (List.length (spec_sources r)) = _message_length r).
  { unfold spec_sources. apply sources_length. rewrite Z2Nat.id; lia. }
  assert (Hall : forall x, In x (spec_sources r) -> 0 <= x < _message_length r)
    by (intros x; apply sources_in_range).
  unfold spec_deinterleave. rewrite spec_loop_run by exact Hw.
  fold (spec_sources r).
  destruct (run_cells r (_matrix r) Hwf (spec_sources r) (_matrix r) 0 Hall eq_refl)
    as [_ Hcells]; try lia.
  unfold cell at 1. cbn [with_matrix _matrix]. rewrite index_with_matrix.
  rewrite Hcells by exact Hin. destruct Hin as [_ Hjc].
  destruct (Z.leb_spec 0 jc), (Z.ltb_spec jc (0 + Z.of_nat (List.length (spec_sources r))));
    cbn [andb]; try lia.
  now rewrite Z.sub_0_r.
Qed.

(** A matrix of one row and [2^31] columns that holds 1.0 in column 1 and
    0.0 elsewhere. *)
Lemma single_row_wide (rest : list float) :
  Z.of_nat (List.length rest) = 2 ^ 31 - 2 ->
  (forall i, nth i rest zero = zero) ->
  let r := mk 0 1 (2 ^ 31) 0 (zero :: of_Z 1 :: rest) in
  wf r /\ 1 <= _message_length r
  /\ deinterleave r = r
  /\ nth 1 (spec_sources r) 0 = 2 ^ 30
  /\ cell (deinterleave r) 0 1 = of_Z 1
  /\ cell (spec_deinterleave r) 0 1 = zero
  /\ deinterleave r <> spec_deinterleave r.
Proof.
  intros Hlen Hrest r.
  assert (Hwf : wf r).
  { apply wf_pack; unfold r;
      cbn [_nb_symbols_log2 _nb_symbols _message_length _message_symbol_count
           _matrix List.length]; lia. }
  assert (Hml : _message_length r = 2 ^ 31) by reflexivity.
  assert (Hnb : _nb_symbols r = 1) by reflexivity.
  assert (Hid : deinterleave r = r) by (apply deinterleave_wide; rewrite Hml; lia).
  assert (Hsrc : nth 1 (spec_sources r) 0 = 2 ^ 30).
  { destruct (spec_sources_power_of_two r 31 1) as [E _].
    - split; [lia | exact Hml].
    - rewrite Hml. lia.
    - change (Z.to_nat 1) with 1%nat in E. rewrite E.
      vm_compute. reflexivity. }
  assert (Hone : cell r 0 1 = of_Z 1) by reflexivity.
  assert (Hfar : cell r 0 (2 ^ 30) = zero).
  { assert (Hin : in_range r 0 (2 ^ 30)) by (split; rewrite ?Hml, ?Hnb; lia).
    destruct (index_eq r 0 (2 ^ 30) Hwf Hin) as [E _].
    unfold cell, get. rewrite E, Hnb.
    replace (Z.to_nat (2 ^ 30 * 1 + 0)) with (S (S (Z.to_nat (2 ^ 30 - 2)))) by lia.
    unfold r. cbn [_matrix nth]. apply Hrest. }
  assert (Hspec : cell (spec_deinterleave r) 0 1 = zero).
  { rewrite spec_deinterleave_cell; [|exact Hwf | rewrite Hml; lia |
                                     split; rewrite ?Hml, ?Hnb; lia].
    change (Z.to_nat 1) with 1%nat. now rewrite Hsrc. }
  assert (Hcode : cell (deinterleave r) 0 1 = of_Z 1) by now rewrite Hid.
  assert (Hdiff : of_Z 1 <> zero) by (vm_compute; discriminate).
  refine (conj Hwf (conj _ (conj Hid (conj Hsrc (conj Hcode (conj Hspec _)))))).
  - rewrite Hml. lia.
  - intros E. apply Hdiff.
    transitivity (cell (deinterleave r) 0 1); [symmetry; exact Hcode|].
    rewrite E. exact Hspec.
Qed.

(** A well-formed matrix with one row and [2^31] columns, 1.0 in column 1
    and 0.0 elsewhere.  The loop bound [1 << 32] of [deinterleave] is 0 in
    an [unsigned int], so no column is moved and column 1 still holds 1.0;
    the procedure of the specification, with [w = 31], reads column
    [2^30] into column 1, which then holds 0.0. *)
Lemma deinterleave_wide_counterexample :
  let r := mk 0 1 (2 ^ 31) 0 (zero :: of_Z 1 :: repeat zero (Z.to_nat (2 ^ 31 - 2))) in
  wf r /\ 1 <= _message_length r
  /\ deinterleave r = r
  /\ nth 1 (spec_sources r) 0 = 2 ^ 30
  /\ cell (deinterleave r) 0 1 = of_Z 1
  /\ cell (spec_deinterleave r) 0 1 = zero
  /\ deinterleave r <> spec_deinterleave r.
Proof.
  apply single_row_wide.
  - rewrite repeat_length. lia.
  - intros i. apply nth_repeat.
Qed.

End DeinterleaveWide.
